(** * id-gen: name normalisation and identifier assignment

    A shallow embedding of [utils/name_processor.py], [utils/hash_generator.py]
    and the generation step of [app.py], with the parts of
    [utils/file_parser.py] and [utils/export_manager.py] that do not go
    through pandas.

    Python [str] values are modelled by [string] on the 7-bit ASCII range,
    where Python's Unicode character database is a fixed, small table:
    a character above code 127 is treated as an uncased, non-word,
    non-blank symbol, and a statement that would not carry over to such
    characters is stated for ASCII text ([Spec.ascii_text]). *)

From Stdlib Require Import ZArith NArith Ascii String DecimalString DecimalNat.
From stdpp Require Import base gmap strings list.

(** ** Python's [str] methods on ASCII text *)

Module pystr.

Definition code (c : ascii) : N := N_of_ascii c.

Definition between (lo hi : N) (c : ascii) : bool :=
  ((lo <=? code c) && (code c <=? hi))%N.

Definition is_ascii (c : ascii) : bool := (code c <? 128)%N.

(** [str.isspace] on one character: TAB..CR, FS..US and SPACE. *)
Definition isspace (c : ascii) : bool :=
  between 9 13 c || between 28 32 c.

Definition isdigit_ch (c : ascii) : bool := between 48 57 c.
Definition isupper (c : ascii) : bool := between 65 90 c.
Definition islower (c : ascii) : bool := between 97 122 c.

(** [[a-zA-Z]]; on ASCII text also [str.isalpha] and "is cased". *)
Definition isalpha (c : ascii) : bool := isupper c || islower c.

Definition isalnum (c : ascii) : bool := isalpha c || isdigit_ch c.

Definition lower_ch (c : ascii) : ascii :=
  if isupper c then ascii_of_N (code c + 32) else c.

Definition upper_ch (c : ascii) : ascii :=
  if islower c then ascii_of_N (code c - 32) else c.

Fixpoint forallb (p : ascii -> bool) (s : string) : bool :=
  match s with
  | EmptyString => true
  | String c s' => p c && forallb p s'
  end.

Fixpoint existsb (p : ascii -> bool) (s : string) : bool :=
  match s with
  | EmptyString => false
  | String c s' => p c || existsb p s'
  end.

Fixpoint map (f : ascii -> ascii) (s : string) : string :=
  match s with
  | EmptyString => EmptyString
  | String c s' => String (f c) (map f s')
  end.

Definition len (s : string) : nat := String.length s.

(** Python truthiness of a [str]. *)
Definition truthy (s : string) : bool :=
  match s with EmptyString => false | _ => true end.

Fixpoint lstrip (s : string) : string :=
  match s with
  | EmptyString => EmptyString
  | String c s' => if isspace c then lstrip s' else s
  end.

Fixpoint rstrip (s : string) : string :=
  match s with
  | EmptyString => EmptyString
  | String c s' =>
      match rstrip s' with
      | EmptyString => if isspace c then EmptyString else String c EmptyString
      | r => String c r
      end
  end.

Definition strip (s : string) : string := rstrip (lstrip s).

Definition lower (s : string) : string := map lower_ch s.

(** [str.isdigit]: at least one character, all of them digits. *)
Definition isdigit (s : string) : bool := truthy s && forallb isdigit_ch s.

(** [str.title], CPython's [do_title]: a character is title-cased
    (upper-cased, on ASCII) unless the character before it is cased, in
    which case it is lower-cased. *)
Fixpoint title_go (previous_is_cased : bool) (s : string) : string :=
  match s with
  | EmptyString => EmptyString
  | String c s' =>
      String (if previous_is_cased then lower_ch c else upper_ch c)
             (title_go (isalpha c) s')
  end.

Definition title (s : string) : string := title_go false s.

(** [s.replace(ch, '')] for a one-character pattern. *)
Fixpoint remove_ch (ch : ascii) (s : string) : string :=
  match s with
  | EmptyString => EmptyString
  | String c s' =>
      if Ascii.eqb c ch then remove_ch ch s' else String c (remove_ch ch s')
  end.

(** [f"{n}"] for a non-negative integer. *)
Definition of_nat (n : nat) : string :=
  NilEmpty.string_of_uint (Nat.to_uint n).

Fixpoint zeros (k : nat) : string :=
  match k with O => EmptyString | S k' => String "0"%char (zeros k') end.

(** [f"{n:0{w}d}"]: zero-filled on the left up to width [w], never cut. *)
Definition zfill (w : nat) (n : nat) : string :=
  let d := of_nat n in zeros (w - len d) +:+ d.

End pystr.

(** ** The three regular expressions of [name_processor.py] *)

Module re.
Import pystr.

(** [\w] on ASCII text. *)
Definition word (c : ascii) : bool := isalnum c || Ascii.eqb c "_"%char.

(** The class [[^\w\s]]. *)
Definition special (c : ascii) : bool := negb (word c) && negb (isspace c).

(** [re.sub(r'\s+', ' ', s)]; [in_run] tells that the character before
    belongs to a run already replaced. *)
Fixpoint sub_spaces_go (in_run : bool) (s : string) : string :=
  match s with
  | EmptyString => EmptyString
  | String c s' =>
      if isspace c
      then if in_run then sub_spaces_go true s'
           else String " "%char (sub_spaces_go true s')
      else String c (sub_spaces_go false s')
  end.

Definition sub_spaces (s : string) : string := sub_spaces_go false s.

(** Where [$] matches: at the end, or before a newline that ends the
    string. *)
Definition at_dollar (s : string) : bool :=
  match s with
  | EmptyString => true
  | String c EmptyString => Ascii.eqb c "010"%char
  | _ => false
  end.

(** [[^\w\s]*$] tried at the head of [s]: what is left after the match. *)
Fixpoint special_run_to_dollar (s : string) : option string :=
  if at_dollar s then Some s
  else match s with
       | EmptyString => None
       | String c s' => if special c then special_run_to_dollar s' else None
       end.

(** The alternative [^[^\w\s]+]: the leading run is deleted. *)
Fixpoint sub_leading (s : string) : string :=
  match s with
  | EmptyString => EmptyString
  | String c s' => if special c then sub_leading s' else s
  end.

(** The alternative [[^\w\s]+$], searched from left to right. *)
Fixpoint sub_trailing (s : string) : string :=
  match s with
  | EmptyString => EmptyString
  | String c s' =>
      if special c
      then match special_run_to_dollar s' with
           | Some rest => rest
           | None => String c (sub_trailing s')
           end
      else String c (sub_trailing s')
  end.

(** [re.sub(r'^[^\w\s]+|[^\w\s]+$', '', s)]. *)
Definition sub_edge_punct (s : string) : string :=
  sub_trailing (sub_leading s).

(** [re.match(r'^[^\w\s]+$', s)] as a truth value. *)
Definition match_only_special (s : string) : bool :=
  match s with
  | EmptyString => false
  | String c s' => special c && bool_decide (is_Some (special_run_to_dollar s'))
  end.

(** [re.search(r'[a-zA-Z]', s)] as a truth value. *)
Definition search_letter (s : string) : bool := existsb isalpha s.

End re.

(** ** [hashlib] and the UTF-8 encoder

    The three digests [generate_hash] chooses from, on byte strings
    given as lists of integers below 256. *)

Module hashlib.
Local Open Scope Z_scope.

Definition mask32 : Z := 4294967295.
Definition add32 (a b : Z) : Z := Z.land (a + b) mask32.
Definition not32 (a : Z) : Z := Z.lxor a mask32.
Definition rotl32 (x n : Z) : Z :=
  Z.land (Z.lor (Z.shiftl x n) (Z.shiftr x (32 - n))) mask32.
Definition rotr32 (x n : Z) : Z := rotl32 x (32 - n).

(** [str.encode('utf-8')] for code points below 256. *)
Definition utf8_ch (c : ascii) : list Z :=
  let n := Z.of_N (N_of_ascii c) in
  if n <? 128 then [n]
  else [Z.lor 192 (Z.shiftr n 6); Z.lor 128 (Z.land n 63)].

Fixpoint encode_utf8 (s : string) : list Z :=
  match s with
  | EmptyString => []
  | String c s' => utf8_ch c ++ encode_utf8 s'
  end.

Definition le_bytes (k : nat) (x : Z) : list Z :=
  (fun i => Z.land (Z.shiftr x (8 * Z.of_nat i)) 255) <$> seq 0 k.
Definition be_bytes (k : nat) (x : Z) : list Z := reverse (le_bytes k x).

Definition of_be (bs : list Z) : Z := foldl (fun acc b => acc * 256 + b) 0 bs.
Definition of_le (bs : list Z) : Z := of_be (reverse bs).

(** The message followed by 0x80, zeros up to 56 modulo 64, and the
    bit length on 8 bytes. *)
Definition pad (len_bytes : Z -> list Z) (msg : list Z) : list Z :=
  let n := length msg in
  let z := Z.to_nat ((55 - Z.of_nat n) mod 64) in
  msg ++ [128] ++ replicate z 0 ++ len_bytes (8 * Z.of_nat n).

Fixpoint chunks (size count : nat) (l : list Z) : list (list Z) :=
  match count with
  | O => []
  | S count' => take size l :: chunks size count' (drop size l)
  end.

Definition words (of_bytes : list Z -> Z) (block : list Z) : list Z :=
  of_bytes <$> chunks 4 16 block.

Definition blocks (msg : list Z) : list (list Z) :=
  chunks 64 (length msg / 64) msg.

Definition word (w : list Z) (i : nat) : Z := nth i w 0.

Definition hex_digit (n : Z) : ascii :=
  if n <? 10 then ascii_of_N (Z.to_N (48 + n)) else ascii_of_N (Z.to_N (87 + n)).

Fixpoint hex (bs : list Z) : string :=
  match bs with
  | [] => EmptyString
  | b :: bs' => String (hex_digit (Z.shiftr b 4)) (String (hex_digit (Z.land b 15)) (hex bs'))
  end.

(** *** MD5 (RFC 1321) *)

Definition md5_K : list Z :=
  [3614090360; 3905402710; 606105819; 3250441966; 4118548399; 1200080426;
   2821735955; 4249261313; 1770035416; 2336552879; 4294925233; 2304563134;
   1804603682; 4254626195; 2792965006; 1236535329; 4129170786; 3225465664;
   643717713; 3921069994; 3593408605; 38016083; 3634488961; 3889429448;
   568446438; 3275163606; 4107603335; 1163531501; 2850285829; 4243563512;
   1735328473; 2368359562; 4294588738; 2272392833; 1839030562; 4259657740;
   2763975236; 1272893353; 4139469664; 3200236656; 681279174; 3936430074;
   3572445317; 76029189; 3654602809; 3873151461; 530742520; 3299628645;
   4096336452; 1126891415; 2878612391; 4237533241; 1700485571; 2399980690;
   4293915773; 2240044497; 1873313359; 4264355552; 2734768916; 1309151649;
   4149444226; 3174756917; 718787259; 3951481745].

Definition md5_s : list Z :=
  [7; 12; 17; 22; 7; 12; 17; 22; 7; 12; 17; 22; 7; 12; 17; 22;
   5; 9; 14; 20; 5; 9; 14; 20; 5; 9; 14; 20; 5; 9; 14; 20;
   4; 11; 16; 23; 4; 11; 16; 23; 4; 11; 16; 23; 4; 11; 16; 23;
   6; 10; 15; 21; 6; 10; 15; 21; 6; 10; 15; 21; 6; 10; 15; 21].

Definition md5_step (m : list Z) (st : Z * Z * Z * Z) (i : nat) : Z * Z * Z * Z :=
  let '(a, b, c, d) := st in
  let '(f, g) :=
    if (i <? 16)%nat then (Z.lor (Z.land b c) (Z.land (not32 b) d), i)
    else if (i <? 32)%nat then (Z.lor (Z.land d b) (Z.land (not32 d) c), (5 * i + 1) mod 16)%nat
    else if (i <? 48)%nat then (Z.lxor (Z.lxor b c) d, (3 * i + 5) mod 16)%nat
    else (Z.lxor c (Z.lor b (not32 d)), (7 * i) mod 16)%nat in
  let f := add32 (add32 (add32 f a) (word md5_K i)) (word m g) in
  (d, add32 b (rotl32 f (word md5_s i)), b, c).

Definition md5_block (st : Z * Z * Z * Z) (block : list Z) : Z * Z * Z * Z :=
  let '(a0, b0, c0, d0) := st in
  let '(a, b, c, d) := foldl (md5_step (words of_le block)) st (seq 0 64) in
  (add32 a0 a, add32 b0 b, add32 c0 c, add32 d0 d).

Definition md5_digest (msg : list Z) : list Z :=
  let '(a, b, c, d) :=
    foldl md5_block (1732584193, 4023233417, 2562383102, 271733878)
          (blocks (pad (le_bytes 8) msg)) in
  le_bytes 4 a ++ le_bytes 4 b ++ le_bytes 4 c ++ le_bytes 4 d.

(** *** SHA-1 (FIPS 180-4) *)

Fixpoint sha1_schedule (n : nat) (w : list Z) : list Z :=
  match n with
  | O => w
  | S n' =>
      let i := length w in
      sha1_schedule n'
        (w ++ [rotl32 (Z.lxor (Z.lxor (word w (i - 3)) (word w (i - 8)))
                              (Z.lxor (word w (i - 14)) (word w (i - 16)))) 1])
  end.

Definition sha1_step (w : list Z) (st : Z * Z * Z * Z * Z) (i : nat)
  : Z * Z * Z * Z * Z :=
  let '(a, b, c, d, e) := st in
  let '(f, k) :=
    if (i <? 20)%nat then (Z.lor (Z.land b c) (Z.land (not32 b) d), 1518500249)
    else if (i <? 40)%nat then (Z.lxor (Z.lxor b c) d, 1859775393)
    else if (i <? 60)%nat
         then (Z.lor (Z.lor (Z.land b c) (Z.land b d)) (Z.land c d), 2400959708)
    else (Z.lxor (Z.lxor b c) d, 3395469782) in
  let t := add32 (add32 (add32 (add32 (rotl32 a 5) f) e) k) (word w i) in
  (t, a, rotl32 b 30, c, d).

Definition sha1_block (st : Z * Z * Z * Z * Z) (block : list Z)
  : Z * Z * Z * Z * Z :=
  let '(a0, b0, c0, d0, e0) := st in
  let w := sha1_schedule 64 (words of_be block) in
  let '(a, b, c, d, e) := foldl (sha1_step w) st (seq 0 80) in
  (add32 a0 a, add32 b0 b, add32 c0 c, add32 d0 d, add32 e0 e).

Definition sha1_digest (msg : list Z) : list Z :=
  let '(a, b, c, d, e) :=
    foldl sha1_block (1732584193, 4023233417, 2562383102, 271733878, 3285377520)
          (blocks (pad (be_bytes 8) msg)) in
  be_bytes 4 a ++ be_bytes 4 b ++ be_bytes 4 c ++ be_bytes 4 d ++ be_bytes 4 e.

(** *** SHA-256 (FIPS 180-4) *)

Definition sha256_K : list Z :=
  [1116352408; 1899447441; 3049323471; 3921009573; 961987163; 1508970993;
   2453635748; 2870763221; 3624381080; 310598401; 607225278; 1426881987;
   1925078388; 2162078206; 2614888103; 3248222580; 3835390401; 4022224774;
   264347078; 604807628; 770255983; 1249150122; 1555081692; 1996064986;
   2554220882; 2821834349; 2952996808; 3210313671; 3336571891; 3584528711;
   113926993; 338241895; 666307205; 773529912; 1294757372; 1396182291;
   1695183700; 1986661051; 2177026350; 2456956037; 2730485921; 2820302411;
   3259730800; 3345764771; 3516065817; 3600352804; 4094571909; 275423344;
   430227734; 506948616; 659060556; 883997877; 958139571; 1322822218;
   1537002063; 1747873779; 1955562222; 2024104815; 2227730452; 2361852424;
   2428436474; 2756734187; 3204031479; 3329325298].

Definition sha256_H0 : list Z :=
  [1779033703; 3144134277; 1013904242; 2773480762;
   1359893119; 2600822924; 528734635; 1541459225].

Fixpoint sha256_schedule (n : nat) (w : list Z) : list Z :=
  match n with
  | O => w
  | S n' =>
      let i := length w in
      let x := word w (i - 15) in
      let y := word w (i - 2) in
      let s0 := Z.lxor (Z.lxor (rotr32 x 7) (rotr32 x 18)) (Z.shiftr x 3) in
      let s1 := Z.lxor (Z.lxor (rotr32 y 17) (rotr32 y 19)) (Z.shiftr y 10) in
      sha256_schedule n'
        (w ++ [add32 (add32 (add32 (word w (i - 16)) s0) (word w (i - 7))) s1])
  end.

Definition sha256_step (w : list Z) (st : list Z) (i : nat) : list Z :=
  match st with
  | [a; b; c; d; e; f; g; h] =>
      let S1 := Z.lxor (Z.lxor (rotr32 e 6) (rotr32 e 11)) (rotr32 e 25) in
      let ch := Z.lxor (Z.land e f) (Z.land (not32 e) g) in
      let t1 := add32 (add32 (add32 (add32 h S1) ch) (word sha256_K i)) (word w i) in
      let S0 := Z.lxor (Z.lxor (rotr32 a 2) (rotr32 a 13)) (rotr32 a 22) in
      let maj := Z.lxor (Z.lxor (Z.land a b) (Z.land a c)) (Z.land b c) in
      [add32 t1 (add32 S0 maj); a; b; c; add32 d t1; e; f; g]
  | _ => st
  end.

Definition sha256_block (st : list Z) (block : list Z) : list Z :=
  let w := sha256_schedule 48 (words of_be block) in
  zip_with add32 st (foldl (sha256_step w) st (seq 0 64)).

Definition sha256_digest (msg : list Z) : list Z :=
  foldl sha256_block sha256_H0 (blocks (pad (be_bytes 8) msg)) ≫= be_bytes 4.

(** [hashlib.<alg>(data).hexdigest()] *)
Definition md5 (data : list Z) : string := hex (md5_digest data).
Definition sha1 (data : list Z) : string := hex (sha1_digest data).
Definition sha256 (data : list Z) : string := hex (sha256_digest data).
End hashlib.

(** ** [utils/name_processor.py] *)

Module NameProcessor.
Import pystr.

Definition _clean_name (name : string) : string :=
  if negb (truthy name) then ""
  else
    let name := strip name in
    let name := re.sub_spaces name in
    let name := re.sub_edge_punct name in
    let name := title name in
    name.

Definition _validate_name (name : string) : bool :=
  if negb (truthy name) || (len (strip name) <? 1) then false
  else if isdigit name then false
  else if re.match_only_special name then false
  else if len name <? 2 then false
  else if negb (re.search_letter name) then false
  else true.

(** [collections.Counter(names)]: a dict keeps its keys in the order of
    their first insertion, hence an association list. *)
Fixpoint count_up (name : string) (counts : list (string * nat))
  : list (string * nat) :=
  match counts with
  | [] => [(name, 1)]
  | (k, v) :: counts' =>
      if decide (k = name) then (k, S v) :: counts'
      else (k, v) :: count_up name counts'
  end.

Definition Counter (names : list string) : list (string * nat) :=
  foldl (fun counts name => count_up name counts) [] names.

(** One value of the [duplicate_groups] dict. *)
Record DuplicateGroup := {
  name : string;
  count : nat;
  indices : list nat
}.

(** [[i for i, n in enumerate(cleaned_names) if n == name]], the
    enumeration starting at [i]. *)
Fixpoint indices_of (name : string) (i : nat) (cleaned_names : list string)
  : list nat :=
  match cleaned_names with
  | [] => []
  | n :: rest =>
      if decide (n = name) then i :: indices_of name (S i) rest
      else indices_of name (S i) rest
  end.

Definition has_key {V} (k : string) (d : list (string * V)) : bool :=
  bool_decide (k ∈ d.*1).

(** [d[k]['indices'] = indices] *)
Fixpoint set_indices (k : string) (ix : list nat)
    (d : list (string * DuplicateGroup)) : list (string * DuplicateGroup) :=
  match d with
  | [] => []
  | (k', g) :: d' =>
      if decide (k' = k)
      then (k', {| name := name g; count := count g; indices := ix |}) :: d'
      else (k', g) :: set_indices k ix d'
  end.

(** The dict [process_names] returns. *)
Record Processed := {
  unique_names : list string;
  duplicate_groups : list (string * DuplicateGroup);
  invalid_names : list string;
  total_names : nat;
  unique_count : nat;
  duplicate_count : nat;
  invalid_count : nat;
  all_cleaned_names : list string
}.

(** The first loop of [process_names]: (cleaned_names, invalid_names). *)
Fixpoint clean_and_validate (names : list string) (cleaned invalid : list string)
  : list string * list string :=
  match names with
  | [] => (cleaned, invalid)
  | raw :: rest =>
      let c := _clean_name raw in
      if _validate_name c
      then clean_and_validate rest (cleaned ++ [c]) invalid
      else clean_and_validate rest cleaned (invalid ++ [raw])
  end.

(** The body of the loop over [name_counts.items()]. *)
Definition separate (cleaned_names : list string)
    (acc : list string * list (string * DuplicateGroup)) (item : string * nat)
  : list string * list (string * DuplicateGroup) :=
  let '(unique, groups) := acc in
  let '(n, c) := item in
  if c =? 1 then (unique ++ [n], groups)
  else
    let groups :=
      if negb (has_key n groups)
      then groups ++ [(n, {| name := n; count := c; indices := [] |})]
      else groups in
    (unique, set_indices n (indices_of n 0 cleaned_names) groups).

(** The object's attributes. *)
Record NameProcessor := {
  processed_names : list string;
  duplicates : list (string * DuplicateGroup);
  name_counts : list (string * nat)
}.

Definition __init__ : NameProcessor :=
  {| processed_names := []; duplicates := []; name_counts := [] |}.

Definition process_names (self : NameProcessor) (names : list string)
  : Processed * NameProcessor :=
  let '(cleaned_names, invalid) := clean_and_validate names [] [] in
  let counts := Counter cleaned_names in
  let '(unique, groups) := foldl (separate cleaned_names) ([], []) counts in
  ({| unique_names := unique;
      duplicate_groups := groups;
      invalid_names := invalid;
      total_names := length cleaned_names;
      unique_count := length unique;
      duplicate_count := length groups;
      invalid_count := length invalid;
      all_cleaned_names := cleaned_names |},
   {| processed_names := []; duplicates := groups; name_counts := counts |}).

(** The dict [get_duplicate_summary] returns; the key
    ['duplicate_groups'] is absent when there is no duplicate. *)
Record DuplicateSummary := {
  has_duplicates : bool;
  summary_duplicate_count : nat;
  duplicate_names : list string;
  total_duplicate_entries : nat;
  summary_duplicate_groups : option (list (string * DuplicateGroup))
}.

Definition get_duplicate_summary (self : NameProcessor) : DuplicateSummary :=
  match duplicates self with
  | [] =>
      {| has_duplicates := false;
         summary_duplicate_count := 0;
         duplicate_names := [];
         total_duplicate_entries := 0;
         summary_duplicate_groups := None |}
  | groups =>
      let total_entries := foldr (fun g acc => count g.2 + acc) 0 groups in
      let duplicate_names := groups.*1 in
      {| has_duplicates := true;
         summary_duplicate_count := length groups;
         duplicate_names := duplicate_names;
         total_duplicate_entries := total_entries;
         summary_duplicate_groups := Some groups |}
  end.

(** [d[k]] for a key known to be present. *)
Fixpoint item {V} (k : string) (d : list (string * V)) : option V :=
  match d with
  | [] => None
  | (k', v) :: d' => if decide (k' = k) then Some v else item k d'
  end.

(** The loop of [resolve_duplicates] over [resolution_choices.items()]. *)
Fixpoint resolve_loop (self : NameProcessor) (choices : list (string * string))
    (final_names : list string) : list string :=
  match choices with
  | [] => final_names
  | (duplicate_name, choice) :: rest =>
      let final_names :=
        if has_key duplicate_name (duplicates self)
        then if decide (choice = "keep_one")
             then final_names ++ [duplicate_name]
             else if decide (choice = "keep_all")
                  then match item duplicate_name (duplicates self) with
                       | Some g => final_names ++ replicate (count g) duplicate_name
                       | None => final_names
                       end
                  else final_names
        else final_names in
      resolve_loop self rest final_names
  end.

(** [resolution_choices] is a dict: an association list in insertion
    order, with distinct keys. *)
Definition resolve_duplicates (self : NameProcessor)
    (resolution_choices : list (string * string)) : list string :=
  let unique_names :=
    (filter (fun nc : string * nat => nc.2 = 1) (name_counts self)).*1 in
  resolve_loop self resolution_choices ([] ++ unique_names).

End NameProcessor.

(** ** [config.py]

    [HASH_ALGORITHM] is set there; [SALT_ENABLED] and [DEFAULT_SALT], which
    [hash_generator.py] imports, are not, and are taken as parameters. *)

Definition HASH_ALGORITHM : string := "md5".

Class Config := {
  SALT_ENABLED : bool;
  DEFAULT_SALT : string
}.

(** The values [str(uuid.uuid4())] takes, in the order of the calls: the
    random source is outside the program. *)
Class Entropy := { uuid4 : nat -> string }.

(** ** [utils/hash_generator.py] *)

Module HashGenerator.
Import pystr.

(** The object's attributes. *)
Record HashGenerator := {
  algorithm : string;
  salt : string;
  hash_cache : gmap string string
}.

Definition __init__ (algorithm salt : string) : HashGenerator :=
  {| algorithm := algorithm; salt := salt; hash_cache := ∅ |}.

(** A run: the generator object and how many UUIDs were drawn so far. *)
Record Run := {
  self : HashGenerator;
  uuid_calls : nat
}.

(** Methods thread the run. *)
Definition M (A : Type) : Type := Run -> A * Run.

Definition ret {A} (a : A) : M A := fun r => (a, r).

Definition bind {A B} (m : M A) (k : A -> M B) : M B :=
  fun r => let '(a, r') := m r in k a r'.

Notation "'let*' x ':=' m 'in' k" := (bind m (fun x => k))
  (at level 10, x name, m at level 100, k at level 200).

Definition get_self : M HashGenerator := fun r => (self r, r).

Definition put_self (g : HashGenerator) : M unit :=
  fun r => (tt, {| self := g; uuid_calls := uuid_calls r |}).

(** [str(uuid.uuid4())] *)
Definition str_uuid4 `{Entropy} : M string :=
  fun r => (uuid4 (uuid_calls r),
            {| self := self r; uuid_calls := S (uuid_calls r) |}).

(** [hashlib.<algorithm>(data).hexdigest()], MD5 when the name is
    unknown. *)
Definition hexdigest (algorithm : string) (data : list Z) : string :=
  if decide (algorithm = "md5") then hashlib.md5 data
  else if decide (algorithm = "sha256") then hashlib.sha256 data
  else if decide (algorithm = "sha1") then hashlib.sha1 data
  else hashlib.md5 data.

(** Lines 33-51 of [generate_hash]: the digest computed when the cache
    has no entry. *)
Definition compute_hash `{Config} (g : HashGenerator) (name : string) : string :=
  let hash_input := lower (strip name) in
  let hash_input :=
    if SALT_ENABLED && truthy (salt g) then salt g +:+ hash_input
    else hash_input in
  hexdigest (algorithm g) (hashlib.encode_utf8 hash_input).

Definition generate_hash `{Config} (name : string) : M string :=
  let* g := get_self in
  match hash_cache g !! name with
  | Some cached => ret cached
  | None =>
      let hash_value := compute_hash g name in
      let* _ := put_self {| algorithm := algorithm g; salt := salt g;
                       hash_cache := <[name := hash_value]> (hash_cache g) |} in
      ret hash_value
  end.

(** The [while True] loop of [generate_unique_hash], entered with
    [counter = 1]. The loop leaves after the round in which [counter]
    becomes 1001: [rounds] counts the rounds that remain, 1000 at entry. *)
Fixpoint retry `{Config} `{Entropy} (name : string) (existing_hashes : gset string)
    (rounds counter : nat) : M string :=
  match rounds with
  | O =>
      let* u := str_uuid4 in
      ret (remove_ch "-" u)
  | S rounds' =>
      let modified_name := name +:+ "_" +:+ of_nat counter in
      let* new_hash := generate_hash modified_name in
      if bool_decide (new_hash ∉ existing_hashes) then ret new_hash
      else retry name existing_hashes rounds' (counter + 1)
  end.

Definition generate_unique_hash `{Config} `{Entropy}
    (name : string) (existing_hashes : gset string) : M string :=
  let* base_hash := generate_hash name in
  if bool_decide (base_hash ∉ existing_hashes) then ret base_hash
  else retry name existing_hashes 1000 1.

(** [generate_sequential_ids]: the dict built by the loop over
    [enumerate(names, 1)], [i] being the next index. *)
Fixpoint sequential_loop (prefix : string) (i : nat) (names : list string)
    (ids : gmap string string) : gmap string string :=
  match names with
  | [] => ids
  | name :: rest =>
      let sequential_id := prefix +:+ zfill 3 i in
      sequential_loop prefix (S i) rest (<[name := sequential_id]> ids)
  end.

Definition generate_sequential_ids (names : list string) (prefix : string)
  : gmap string string :=
  sequential_loop prefix 1 names ∅.

(** One element of the list [create_name_id_mapping] returns. *)
Record Mapping := { Name : string; ID : string }.

(** The loop of [create_name_id_mapping] over [names], with its two
    accumulators. *)
Fixpoint mapping_loop `{Config} `{Entropy} (id_type : string)
    (names : list string) (mappings : list Mapping) (existing_ids : gset string)
  : M (list Mapping) :=
  match names with
  | [] => ret mappings
  | name :: rest =>
      let* id_value :=
        (if decide (id_type = "hash") then generate_unique_hash name existing_ids
         else if decide (id_type = "sequential")
              then ret ("ID" +:+ zfill 3 (length mappings + 1))
         else if decide (id_type = "uuid") then str_uuid4
         else generate_unique_hash name existing_ids) in
      mapping_loop id_type rest
        (mappings ++ [{| Name := name; ID := id_value |}])
        ({[id_value]} ∪ existing_ids)
  end.

Definition create_name_id_mapping `{Config} `{Entropy}
    (names : list string) (id_type : string) : M (list Mapping) :=
  mapping_loop id_type names [] ∅.

Definition clear_cache : M unit :=
  let* g := get_self in
  put_self {| algorithm := algorithm g; salt := salt g; hash_cache := ∅ |}.

Definition set_salt (new_salt : string) : M unit :=
  let* g := get_self in
  let* _ := put_self {| algorithm := algorithm g; salt := new_salt;
                   hash_cache := hash_cache g |} in
  clear_cache.

(** The assignment [hash_generator.algorithm = algorithm] of [app.py]. *)
Definition set_algorithm (new_algorithm : string) : M unit :=
  let* g := get_self in
  put_self {| algorithm := new_algorithm; salt := salt g;
              hash_cache := hash_cache g |}.

(** The loop of [generate_hashes_batch]. *)
Fixpoint batch_loop `{Config} (names : list string) (hashes : gmap string string)
  : M (gmap string string) :=
  match names with
  | [] => ret hashes
  | name :: rest =>
      let* h := generate_hash name in
      batch_loop rest (<[name := h]> hashes)
  end.

Definition generate_hashes_batch `{Config} (names : list string)
  : M (gmap string string) :=
  batch_loop names ∅.

(** The dict [verify_hash_uniqueness] returns. Each entry of
    ['duplicates'] holds under ['names'] the very list object stored in
    [hash_counts], so it shows every name appended to that list later
    on: the entry is kept as its hash and read through [hash_counts]
    when the dict is returned. *)
Record Verification := {
  is_unique : bool;
  total_hashes : nat;
  unique_hashes : nat;
  duplicate_hashes : nat;
  duplicates : list (string * list string)
}.

(** One round of the loop of [verify_hash_uniqueness]: [hash_counts], and
    the hashes of the entries of [duplicates]. *)
Definition verify_step (st : gmap string (list string) * list string) (pair : Mapping)
  : gmap string (list string) * list string :=
  let '(hash_counts, duplicates) := st in
  let hash_value := ID pair in
  match hash_counts !! hash_value with
  | Some names =>
      let hash_counts := <[hash_value := names ++ [Name pair]]> hash_counts in
      if bool_decide (hash_value ∉ duplicates)
      then (hash_counts, duplicates ++ [hash_value])
      else (hash_counts, duplicates)
  | None => (<[hash_value := [Name pair]]> hash_counts, duplicates)
  end.

Definition verify_hash_uniqueness (name_hash_pairs : list Mapping) : Verification :=
  let '(hash_counts, duplicates) := foldl verify_step (∅, []) name_hash_pairs in
  {| is_unique := bool_decide (length duplicates = 0);
     total_hashes := length name_hash_pairs;
     unique_hashes :=
       size (filter (fun item : string * list string => length item.2 = 1) hash_counts);
     duplicate_hashes := length duplicates;
     duplicates := (fun h => (h, default [] (hash_counts !! h))) <$> duplicates |}.

End HashGenerator.


(** ** The generation step of [app.py] *)

Module app.
Import pystr HashGenerator.

(** The options of the "ID Generation Method" select box. *)
Inductive IdType := hash | sequential | uuid.

(** The keys of [st.session_state] the step reads or writes;
    [editable_names] is [None] until the key is set. Each
    [{'Name': name}] item is kept as its name. *)
Record SessionState := {
  step : nat;
  names_list : list string;
  editable_names : option (list string);
  name_id_mappings : list Mapping
}.

(** What the page shows after the button was pressed. *)
Inductive Message :=
| error (text : string)
| success (generated : nat).

(** The head of step 2: the uploaded names are processed and, on the
    first visit, their cleaned forms become the editable list. *)
Definition review (name_processor : NameProcessor.NameProcessor)
    (session : SessionState) : SessionState :=
  let default :=
    match names_list session with
    | [] => [""]
    | names =>
        NameProcessor.all_cleaned_names
          (NameProcessor.process_names name_processor names).1
    end in
  {| step := step session;
     names_list := names_list session;
     editable_names :=
       Some (match editable_names session with
             | Some items => items
             | None => default
             end);
     name_id_mappings := name_id_mappings session |}.

(** [[item['Name'].strip() for item in editable_names
      if item['Name'].strip()]] *)
Fixpoint final_names (items : list string) : list string :=
  match items with
  | [] => []
  | item :: rest =>
      if truthy (strip item) then strip item :: final_names rest
      else final_names rest
  end.

(** The loop over [enumerate(final_names)], [i] being the next index. *)
Fixpoint generate_loop `{Config} `{Entropy} (id_type : IdType) (i : nat)
    (names : list string) (mappings : list Mapping) : M (list Mapping) :=
  match names with
  | [] => ret mappings
  | name :: rest =>
      let* id_value :=
        match id_type with
        | hash => generate_hash name
        | sequential => ret ("ID" +:+ zfill 3 (i + 1))
        | uuid => str_uuid4
        end in
      generate_loop id_type (S i) rest
        (mappings ++ [{| Name := name; ID := id_value |}])
  end.

(** The "Generate IDs" branch of step 2 (lines 296-334), run on the
    session after [review]. *)
Definition step_2_generate_ids `{Config} `{Entropy}
    (id_type : IdType) (algorithm : string) (session : SessionState)
  : M (Message * SessionState) :=
  let names := final_names (default [] (editable_names session)) in
  match names with
  | [] => ret (error "No names to process!", session)
  | _ =>
      let* _ :=
        match id_type with
        | hash => set_algorithm algorithm
        | _ => ret tt
        end in
      let* mappings := generate_loop id_type 0 names [] in
      ret (success (length mappings),
           {| step := 3;
              names_list := names_list session;
              editable_names := editable_names session;
              name_id_mappings := mappings |})
  end.

(** [main] builds its generator anew on every run of the script. *)
Definition main_hash_generator `{Config} : HashGenerator :=
  __init__ HASH_ALGORITHM DEFAULT_SALT.

Definition start `{Config} (drawn : nat) : Run :=
  {| self := main_hash_generator; uuid_calls := drawn |}.

(** The head of step 3: the error shown when there is nothing to
    download, or the three metrics of the page. *)
Inductive Step3 :=
| nothing_to_download (text : string)
| metrics (total_records unique_names unique_ids : nat).

Definition step_3_download_results (session : SessionState) : Step3 :=
  match name_id_mappings session with
  | [] => nothing_to_download "No mappings to download!"
  | mappings =>
      metrics (length mappings)
              (size (list_to_set (Name <$> mappings) : gset string))
              (size (list_to_set (ID <$> mappings) : gset string))
  end.

End app.

(** ** [utils/file_parser.py]

    The parts that do not go through pandas. *)

#[warnings="-abstract-large-number"]
Definition MAX_NAMES_COUNT : nat := 10000.

Module FileParser.
Import pystr.

(** [s.split(sep)] for a one-character separator: empty pieces are kept,
    and there is always at least one piece. *)
Fixpoint split (sep : ascii) (s : string) : list string :=
  match s with
  | EmptyString => [EmptyString]
  | String c s' =>
      if Ascii.eqb c sep then EmptyString :: split sep s'
      else match split sep s' with
           | piece :: pieces => String c piece :: pieces
           | [] => [String c EmptyString]
           end
  end.

(** [ch in s] *)
Definition contains (ch : ascii) (s : string) : bool := existsb (Ascii.eqb ch) s.

Definition supported_extensions : list string := [".csv"; ".txt"; ".xlsx"].

Definition _get_file_extension (filename : string) : string :=
  "." +:+ lower (default "" (last (split "." filename))).

(** The class [[\d\s\W]]. *)
Definition digit_space_or_non_word (c : ascii) : bool :=
  isdigit_ch c || isspace c || negb (re.word c).

(** [re.match(r'^[\d\s\W]+$', s)] as a truth value. The class holds the
    newline, so a match that stops before a final newline extends to the
    end: the pattern matches the non-empty strings made of the class. *)
Definition match_no_name (s : string) : bool :=
  truthy s && forallb digit_space_or_non_word s.

Fixpoint _clean_names (names : list string) : list string :=
  match names with
  | [] => []
  | name :: rest =>
      let name := strip name in
      if negb (truthy name) then _clean_names rest
      else if match_no_name name then _clean_names rest
      else re.sub_spaces name :: _clean_names rest
  end.

(** [[x.strip() for x in pieces if x.strip()]] *)
Fixpoint stripped_pieces (pieces : list string) : list string :=
  match pieces with
  | [] => []
  | x :: rest =>
      if truthy (strip x) then strip x :: stripped_pieces rest
      else stripped_pieces rest
  end.

(** The common end of the three parsers. *)
Definition capped (kind : string) (names : list string) : list string * string :=
  if MAX_NAMES_COUNT <? length names
  then (take MAX_NAMES_COUNT names,
        "File contains " +:+ of_nat (length names) +:+ " names. Showing first "
          +:+ of_nat MAX_NAMES_COUNT +:+ ".")
  else (names,
        "Successfully extracted " +:+ of_nat (length names) +:+ " names from "
          +:+ kind +:+ " file.").

(** [_parse_txt] on the decoded content of the file. *)
Definition _parse_txt (content : string) : list string * string :=
  let names :=
    if contains "," content
    then foldl (fun names part => names ++ stripped_pieces (split "010" part))
               [] (split "," content)
    else stripped_pieces (split "010" content) in
  let names := _clean_names names in
  capped "TXT" names.

(** The inner loop of the column search of [_parse_xlsx]. *)
Fixpoint find_column (priority_col : string) (columns : list string)
    (name_column : option string) : option string :=
  match columns with
  | [] => name_column
  | col :: rest =>
      if decide (lower col = priority_col) then Some col
      else find_column priority_col rest name_column
  end.

(** The outer loop, left as soon as [name_column] is set (and truthy). *)
Fixpoint search_columns (priority_columns columns : list string)
    (name_column : option string) : option string :=
  match priority_columns with
  | [] => name_column
  | priority_col :: rest =>
      let name_column := find_column priority_col columns name_column in
      if from_option truthy false name_column then name_column
      else search_columns rest columns name_column
  end.

(** Lines 124-134 of [_parse_xlsx]: the column the names are read from,
    given [df.columns]. *)
Definition select_name_column (columns : list string) : option string :=
  search_columns ["name"; "subject"; "trial"] columns None.

End FileParser.

(** ** [utils/export_manager.py]: [validate_export_data] *)

Module ExportManager.
Import pystr.

(** What [validate_export_data] reports; the texts are
    "No data to export", "Missing required fields: ..." over the set of
    the fields missed, and "Found m empty names and n empty IDs". *)
Inductive Validation :=
| no_data
| missing_required_fields (fields : gset string)
| empty_values (empty_names empty_ids : nat)
| valid (total_records : nat).

(** The nested loop that collects [missing_fields]. *)
Definition missing_in (mapping : gmap string string) : list string :=
  filter (fun field => mapping !! field = None) ["Name"; "ID"].

(** [sum(1 for mapping in mappings if not mapping.get(field, '').strip())] *)
Definition blank_count (field : string) (mappings : list (gmap string string)) : nat :=
  length (filter (fun mapping : gmap string string =>
                    truthy (strip (default "" (mapping !! field))) = false) mappings).

Definition validate_export_data (name_id_mappings : list (gmap string string))
  : Validation :=
  match name_id_mappings with
  | [] => no_data
  | _ =>
      let missing_fields := name_id_mappings ≫= missing_in in
      match missing_fields with
      | _ :: _ => missing_required_fields (list_to_set missing_fields)
      | [] =>
          let empty_names := blank_count "Name" name_id_mappings in
          let empty_ids := blank_count "ID" name_id_mappings in
          if (0 <? empty_names) || (0 <? empty_ids)
          then empty_values empty_names empty_ids
          else valid (length name_id_mappings)
      end
  end.

(** A record of the generation step as the dict it is. *)
Definition as_dict (m : HashGenerator.Mapping) : gmap string string :=
  <["Name" := HashGenerator.Name m]> (<["ID" := HashGenerator.ID m]> ∅).

End ExportManager.

(** ** Vocabulary of the statements *)

Module Spec.
Import pystr HashGenerator.

(** Text on which the model and Python's Unicode tables agree. *)
Definition ascii_text (s : string) : Prop := forallb is_ascii s = true.

(** The spec's [normalize]: one round of the first loop of
    [process_names], [None] standing for Invalid. *)
Definition normalize (raw : string) : option string :=
  let cleaned := NameProcessor._clean_name raw in
  if NameProcessor._validate_name cleaned then Some cleaned else None.

(** The case rule in the specification's words: the first character of
    each space-separated token upper-cased, the others lower-cased. *)
Fixpoint capitalize_tokens_go (token_start : bool) (s : string) : string :=
  match s with
  | EmptyString => EmptyString
  | String c s' =>
      String (if token_start then upper_ch c else lower_ch c)
             (capitalize_tokens_go (Ascii.eqb c " ") s')
  end.

Definition capitalize_tokens (s : string) : string := capitalize_tokens_go true s.

(** In title case with respect to space-separated tokens only. *)
Definition space_title_cased (s : string) : Prop := capitalize_tokens s = s.

(** The character before position [i] of [s] is a letter. *)
Definition preceded_by_letter (s : string) (i : nat) : bool :=
  match i with
  | O => false
  | S j => from_option isalpha false (String.get j s)
  end.

(** Blanks are single spaces: no other white space, no two in a row
    ([after_blank] tells that the character before is a blank). *)
Fixpoint tidy_go (after_blank : bool) (s : string) : bool :=
  match s with
  | EmptyString => true
  | String c s' =>
      if isspace c
      then Ascii.eqb c " " && negb after_blank && tidy_go true s'
      else tidy_go false s'
  end.

(** Empty, or starting with a character outside [[^\w\s]]. *)
Definition head_kept (s : string) : bool :=
  match s with
  | EmptyString => true
  | String c _ => negb (re.special c)
  end.

(** The alternatives of the validity rule, in the specification's words. *)
Definition entirely_numeric (s : string) : Prop :=
  s <> "" /\ forallb isdigit_ch s = true.

Definition entirely_non_word (s : string) : Prop :=
  s <> "" /\ forallb (fun c => negb (re.word c)) s = true.

Definition no_alphabetic (s : string) : Prop := existsb isalpha s = false.

(** What [generate_hash] answers for [name] on generator [g]. *)
Definition hash_of `{Config} (g : HashGenerator) (name : string) : string :=
  default (compute_hash g name) (hash_cache g !! name).

(** The generator after [generate_hash name]. *)
Definition remember `{Config} (g : HashGenerator) (name : string) : HashGenerator :=
  match hash_cache g !! name with
  | Some _ => g
  | None => {| algorithm := algorithm g; salt := salt g;
               hash_cache := <[name := compute_hash g name]> (hash_cache g) |}
  end.

(** Every cached digest is the one [generate_hash] would compute now:
    the state of a generator whose attributes were set before it hashed
    anything. *)
Definition cache_sound `{Config} (g : HashGenerator) : Prop :=
  forall name digest,
    hash_cache g !! name = Some digest -> digest = compute_hash g name.

(** A byte of a digest. *)
Definition byte (b : Z) : Prop := (0 <= b < 256)%Z.

Definition lower_hex_ch (c : ascii) : bool := between 48 57 c || between 97 102 c.

(** A string of the digits [0-9a-f]. *)
Definition lower_hex (s : string) : Prop := forallb lower_hex_ch s = true.

(** The [counter]-th renamed variant, [f"{name}_{counter}"]. *)
Definition renamed (name : string) (counter : nat) : string :=
  name +:+ "_" +:+ of_nat counter.

(** The number a string of decimal digits denotes. *)
Definition decimal_value (s : string) : option nat :=
  Nat.of_uint <$> NilEmpty.uint_of_string s.

(** The sequential identifier of the record at 1-based position [k]. *)
Definition sequential_id (k : nat) : string := "ID" +:+ zfill 3 k.

Definition ids (mappings : list Mapping) : list string := ID <$> mappings.

(** The identifier one round of [create_name_id_mapping] assigns: the
    [if]/[elif] chain of its loop, [n] being [len(mappings) + 1]. *)
Definition assign `{Config} `{Entropy} (id_type name : string) (n : nat)
    (existing_ids : gset string) : M string :=
  if decide (id_type = "hash") then generate_unique_hash name existing_ids
  else if decide (id_type = "sequential") then ret ("ID" +:+ zfill 3 n)
  else if decide (id_type = "uuid") then str_uuid4
  else generate_unique_hash name existing_ids.
Definition names_of (mappings : list Mapping) : list string := Name <$> mappings.

(** How many times [n] occurs in [l]. *)
Definition occurrences (n : string) (l : list string) : nat :=
  count_occ String.eq_dec l n.

(** The sum of the counts of a [Counter]. *)
Definition total_count (counts : list (string * nat)) : nat :=
  foldr (fun nc acc => nc.2 + acc) 0 counts.

(** The group built for a name that occurs [c] times. *)
Definition group_of (cleaned : list string) (nc : string * nat)
  : string * NameProcessor.DuplicateGroup :=
  (nc.1, {| NameProcessor.name := nc.1; NameProcessor.count := nc.2;
            NameProcessor.indices := NameProcessor.indices_of nc.1 0 cleaned |}).

(** What one name adds to the output of the loop of
    [resolve_duplicates]. *)
Definition contribution (self : NameProcessor.NameProcessor)
    (choices : list (string * string)) (x : string) : nat :=
  match NameProcessor.item x choices,
        NameProcessor.item x (NameProcessor.duplicates self) with
  | Some choice, Some g =>
      if decide (choice = "keep_one") then 1
      else if decide (choice = "keep_all") then NameProcessor.count g else 0
  | _, _ => 0
  end.

(** The names of the records that carry the identifier [h], in order. *)
Definition names_with (h : string) (pairs : list HashGenerator.Mapping) : list string :=
  HashGenerator.Name <$> filter (fun p => HashGenerator.ID p = h) pairs.

(** The width of the digest of each algorithm, in hexadecimal digits. *)
Definition digest_width (algorithm : string) : nat :=
  if decide (algorithm = "sha256") then 64
  else if decide (algorithm = "sha1") then 40
  else 32.

(** What the loop of [verify_hash_uniqueness] has gathered after the
    records [done]: the names under each identifier, and the identifiers
    met twice. *)
Definition gathered (done : list HashGenerator.Mapping)
    (st : gmap string (list string) * list string) : Prop :=
  (forall h, st.1 !! h = if decide (names_with h done = []) then None
                         else Some (names_with h done))
  /\ NoDup st.2
  /\ (forall h, h ∈ st.2 <-> 2 <= length (names_with h done)).

(** The content of a text file with its commas turned into line breaks. *)
Definition commas_as_line_breaks (content : string) : string :=
  map (fun c => if Ascii.eqb c "," then "010"%char else c) content.

(** A letter or an underscore: a word character that is not a digit. *)
Definition letter_or_underscore (c : ascii) : bool :=
  isalpha c || Ascii.eqb c "_".

(** A record [validate_export_data] has nothing to say against. *)
Definition complete (mapping : gmap string string) : Prop :=
  exists name id,
    mapping !! "Name" = Some name /\ mapping !! "ID" = Some id
    /\ strip name <> "" /\ strip id <> "".

(** The first of [columns] whose lower-cased label is [p]. *)
Definition first_labelled (p : string) (columns : list string) : option string :=
  snd <$> list_find (fun col => lower col = p) columns.

End Spec.

(** ** A concrete environment, for the examples

    Salting switched off, as [app.py] leaves it (its salt option was
    removed), and a random source that hands out version-4 UUIDs in
    ascending order. *)

Module Sample.
Import pystr.

Definition config : Config := {| SALT_ENABLED := false; DEFAULT_SALT := "" |}.

Definition entropy : Entropy :=
  {| uuid4 := fun k => "00000000-0000-4000-8000-" +:+ zfill 12 k |}.

Definition start : HashGenerator.Run := @app.start config 0.

End Sample.

(** * Proofs *)

(** ** Runs of the generator's methods *)

Section Runs.
Import pystr HashGenerator Spec.
Context `{cfg : Config} `{ent : Entropy}.

Lemma generate_hash_run (name : string) (r : Run) :
  generate_hash name r =
    (hash_of (self r) name,
     {| self := remember (self r) name; uuid_calls := uuid_calls r |}).
Proof.
  destruct r as [g k]. unfold generate_hash, hash_of, remember, bind, get_self.
  simpl. destruct (hash_cache g !! name); reflexivity.
Qed.

Lemma remember_algorithm g name : algorithm (remember g name) = algorithm g.
Proof. unfold remember. destruct (hash_cache g !! name); reflexivity. Qed.

Lemma remember_salt g name : salt (remember g name) = salt g.
Proof. unfold remember. destruct (hash_cache g !! name); reflexivity. Qed.

Lemma compute_hash_ext g g' name :
  algorithm g' = algorithm g -> salt g' = salt g ->
  compute_hash g' name = compute_hash g name.
Proof. unfold compute_hash. intros -> ->. reflexivity. Qed.

(** A call of [generate_hash] changes no later answer. *)
Lemma hash_of_remember g name other :
  hash_of (remember g name) other = hash_of g other.
Proof.
  unfold hash_of, remember.
  destruct (hash_cache g !! name) eqn:Hc; [reflexivity|]. simpl.
  destruct (decide (name = other)) as [->|Hne].
  - rewrite lookup_insert_eq, Hc. reflexivity.
  - rewrite lookup_insert_ne by done. reflexivity.
Qed.

Lemma hash_of_cached g name digest :
  hash_cache g !! name = Some digest -> hash_of g name = digest.
Proof. unfold hash_of. intros ->. reflexivity. Qed.

Lemma remember_cached g name digest :
  hash_cache g !! name = Some digest -> remember g name = g.
Proof. unfold remember. intros ->. reflexivity. Qed.

End Runs.

(** ** Digests are rendered in lower-case hexadecimal *)

Section Hex.
Import pystr hashlib Spec.
Local Open Scope Z_scope.

Lemma hex_digit_lower (n : Z) : 0 <= n < 16 -> lower_hex_ch (hex_digit n) = true.
Proof.
  intros Hn. rewrite <- (Z2Nat.id n) by lia.
  assert (Hlt : (Z.to_nat n < 16)%nat) by lia.
  remember (Z.to_nat n) as k eqn:Ek. clear Ek Hn.
  do 16 (destruct k as [|k]; [reflexivity|]). lia.
Qed.

Lemma hex_lower (bs : list Z) : Forall byte bs -> lower_hex (hex bs).
Proof.
  unfold lower_hex. induction 1 as [|b bs Hb _ IH]; [reflexivity|].
  unfold byte in Hb. simpl. rewrite IH, !hex_digit_lower; [reflexivity| |].
  - change 15 with (Z.ones 4). rewrite Z.land_ones by lia.
    apply Z.mod_pos_bound. lia.
  - rewrite Z.shiftr_div_pow2 by lia. change (2 ^ 4) with 16.
    split; [apply Z.div_pos; lia | apply Z.div_lt_upper_bound; lia].
Qed.

Lemma le_bytes_byte (k : nat) (x : Z) : Forall byte (le_bytes k x).
Proof.
  unfold le_bytes. apply Forall_fmap, Forall_forall. intros i _. simpl.
  unfold byte. change 255 with (Z.ones 8). rewrite Z.land_ones by lia.
  apply Z.mod_pos_bound. lia.
Qed.

Lemma be_bytes_byte (k : nat) (x : Z) : Forall byte (be_bytes k x).
Proof. unfold be_bytes. apply Forall_reverse, le_bytes_byte. Qed.

Lemma md5_digest_bytes (msg : list Z) : Forall byte (md5_digest msg).
Proof.
  unfold md5_digest.
  destruct (foldl md5_block _ _) as [[[a b] c] d].
  repeat apply Forall_app_2; apply le_bytes_byte.
Qed.

Lemma sha1_digest_bytes (msg : list Z) : Forall byte (sha1_digest msg).
Proof.
  unfold sha1_digest.
  destruct (foldl sha1_block _ _) as [[[[a b] c] d] e].
  repeat apply Forall_app_2; apply be_bytes_byte.
Qed.

Lemma sha256_digest_bytes (msg : list Z) : Forall byte (sha256_digest msg).
Proof.
  unfold sha256_digest. apply Forall_bind, Forall_forall.
  intros w _. apply be_bytes_byte.
Qed.

Lemma hexdigest_lower (algorithm : string) (data : list Z) :
  lower_hex (HashGenerator.hexdigest algorithm data).
Proof.
  unfold HashGenerator.hexdigest, md5, sha1, sha256.
  repeat case_decide;
    auto using hex_lower, md5_digest_bytes, sha1_digest_bytes, sha256_digest_bytes.
Qed.

End Hex.

(** ** The cache of [generate_hash] *)

Section Cache.
Import pystr HashGenerator Spec.
Context `{cfg : Config}.

(** C10. A name the cache already holds is answered from the cache,
    whatever the [algorithm] attribute says: on the generator as it is,
    and after the attribute was reassigned, which leaves the cache as it
    was; [set_salt] is the operation that empties the cache. *)
Theorem cached_digest_survives_algorithm_change
    (g : HashGenerator) (n digest new_algorithm new_salt : string) (k : nat) :
  hash_cache g !! n = Some digest ->
  let r := {| self := g; uuid_calls := k |} in
  let r' := (set_algorithm new_algorithm r).2 in
  generate_hash n r = (digest, r)
  /\ algorithm (self r') = new_algorithm
  /\ hash_cache (self r') = hash_cache g
  /\ generate_hash n r' = (digest, r')
  /\ hash_cache (self (set_salt new_salt r).2) = ∅.
Proof.
  intros Hc r r'. subst r r'. rewrite !generate_hash_run. simpl.
  rewrite (hash_of_cached _ _ _ Hc), (remember_cached _ _ _ Hc).
  repeat split.
  unfold hash_of, remember. simpl. rewrite Hc. reflexivity.
Qed.

(** The constructor, [generate_hash], [clear_cache] and [set_salt] give
    and keep a sound cache; so does assigning [algorithm] before the
    first hash, as step 2 of the app does. *)
Lemma cache_sound_init (alg slt : string) : cache_sound (__init__ alg slt).
Proof. intros name digest. simpl. rewrite lookup_empty. discriminate. Qed.

Lemma cache_sound_generate_hash (g : HashGenerator) (name : string) (k : nat) :
  cache_sound g ->
  cache_sound (self (generate_hash name {| self := g; uuid_calls := k |}).2).
Proof.
  intros Hg. rewrite generate_hash_run. cbn [snd self]. unfold remember.
  destruct (hash_cache g !! name) eqn:Hc; [exact Hg|].
  intros other digest. cbn [hash_cache].
  destruct (decide (name = other)) as [->|Hne].
  - rewrite lookup_insert_eq. intros [= <-]. reflexivity.
  - rewrite lookup_insert_ne by done. intros Hother.
    rewrite (Hg other digest Hother). reflexivity.
Qed.

Lemma cache_sound_set_salt (g : HashGenerator) (new_salt : string) (k : nat) :
  cache_sound (self (set_salt new_salt {| self := g; uuid_calls := k |}).2).
Proof. intros name digest. simpl. rewrite lookup_empty. discriminate. Qed.

Lemma cache_sound_clear_cache (g : HashGenerator) (k : nat) :
  cache_sound (self (clear_cache {| self := g; uuid_calls := k |}).2).
Proof. intros name digest. simpl. rewrite lookup_empty. discriminate. Qed.

Lemma cache_sound_set_algorithm (g : HashGenerator) (new_algorithm : string) (k : nat) :
  hash_cache g = ∅ ->
  cache_sound (self (set_algorithm new_algorithm {| self := g; uuid_calls := k |}).2).
Proof. intros He name digest. simpl. rewrite He, lookup_empty. discriminate. Qed.

Lemma hash_of_sound (g : HashGenerator) (name : string) :
  cache_sound g -> hash_of g name = compute_hash g name.
Proof.
  intros Hg. unfold hash_of.
  destruct (hash_cache g !! name) eqn:Hc; [|reflexivity].
  simpl. apply Hg, Hc.
Qed.

Lemma compute_hash_canonical (g1 g2 : HashGenerator) (n1 n2 : string) :
  algorithm g1 = algorithm g2 -> salt g1 = salt g2 ->
  lower (strip n1) = lower (strip n2) ->
  compute_hash g1 n1 = compute_hash g2 n2.
Proof. unfold compute_hash. intros -> -> ->. reflexivity. Qed.

(** C3, as the code has it. On generators whose caches are sound (every
    cached digest is the one the generator's algorithm and salt give),
    two names equal after trimming and lower-casing get the same digest,
    in lower-case hexadecimal, whenever the algorithm and the salt are
    the same: from two generators, from one generator asked twice in a
    row, and from a fresh one. The constructor builds a sound cache, and
    [generate_hash], [set_salt] and [clear_cache] keep it sound. A cache
    is sound exactly when the generator answers for every name what a
    fresh generator with its algorithm and salt answers. *)
Theorem generate_hash_deterministic
    (n1 n2 : string) (g1 g2 : HashGenerator) (k1 k2 : nat) :
  cache_sound g1 ->
  cache_sound g2 ->
  algorithm g1 = algorithm g2 ->
  salt g1 = salt g2 ->
  lower (strip n1) = lower (strip n2) ->
  let r1 := {| self := g1; uuid_calls := k1 |} in
  let r2 := {| self := g2; uuid_calls := k2 |} in
  (generate_hash n1 r1).1 = (generate_hash n2 r2).1
  /\ (generate_hash n2 (generate_hash n1 r1).2).1 = (generate_hash n1 r1).1
  /\ (generate_hash n1 {| self := __init__ (algorithm g1) (salt g1);
                          uuid_calls := k1 |}).1
     = (generate_hash n1 r1).1
  /\ lower_hex (generate_hash n1 r1).1
  /\ cache_sound (self (generate_hash n1 r1).2)
  /\ (forall new_salt, cache_sound (self (set_salt new_salt r1).2))
  /\ cache_sound (self (clear_cache r1).2)
  /\ (forall chosen slt, cache_sound (__init__ chosen slt))
  /\ (forall (g : HashGenerator) (k : nat),
        cache_sound g
        <-> forall n,
              (generate_hash n {| self := g; uuid_calls := k |}).1
              = (generate_hash n {| self := __init__ (algorithm g) (salt g);
                                    uuid_calls := k |}).1).
Proof.
  intros H1 H2 Ha Hs Heq r1 r2. subst r1 r2.
  split; [|split; [|split; [|split; [|split; [|split; [|split; [|split]]]]]]].
  - rewrite !generate_hash_run. cbn [fst].
    rewrite (hash_of_sound g1) by exact H1. rewrite (hash_of_sound g2) by exact H2.
    apply compute_hash_canonical; assumption.
  - rewrite !generate_hash_run. cbn [fst snd self]. rewrite hash_of_remember.
    rewrite !(hash_of_sound g1) by exact H1.
    apply compute_hash_canonical; [reflexivity..|]. symmetry. exact Heq.
  - rewrite !generate_hash_run. cbn [fst self].
    rewrite (hash_of_sound g1) by exact H1.
    rewrite (hash_of_sound (__init__ _ _)) by apply cache_sound_init.
    apply compute_hash_ext; reflexivity.
  - rewrite generate_hash_run. cbn [fst].
    rewrite (hash_of_sound g1) by exact H1. apply hexdigest_lower.
  - apply cache_sound_generate_hash, H1.
  - intros new_salt. apply cache_sound_set_salt.
  - apply cache_sound_clear_cache.
  - apply cache_sound_init.
  - intros g k. split.
    + intros Hg n. rewrite !generate_hash_run. cbn [fst self].
      rewrite (hash_of_sound g) by exact Hg.
      rewrite (hash_of_sound (__init__ _ _)) by apply cache_sound_init.
      symmetry. apply compute_hash_ext; reflexivity.
    + intros Hall n digest Hc. specialize (Hall n).
      rewrite !generate_hash_run in Hall. cbn [fst self] in Hall.
      rewrite (hash_of_cached _ _ _ Hc) in Hall.
      rewrite (hash_of_sound (__init__ _ _)) in Hall by apply cache_sound_init.
      rewrite Hall. apply compute_hash_ext; reflexivity.
Qed.

End Cache.

(** C10 at work: "Ann" is hashed under MD5, the attribute is then set to
    SHA-256, and the generator still answers the MD5 digest. *)
Lemma cached_digest_survives_algorithm_change_witness :
  let g := HashGenerator.self (@HashGenerator.generate_hash Sample.config "Ann" Sample.start).2 in
  let r := {| HashGenerator.self := g; HashGenerator.uuid_calls := 0 |} in
  let r' := (HashGenerator.set_algorithm "sha256" r).2 in
  let digest := "7e0d7f8a5d96c24ffcc840f31bce72b2" in
  HashGenerator.hash_cache g !! "Ann" = Some digest
  /\ (@HashGenerator.generate_hash Sample.config "Ann" r = (digest, r)
      /\ HashGenerator.algorithm (HashGenerator.self r') = "sha256"
      /\ HashGenerator.hash_cache (HashGenerator.self r') = HashGenerator.hash_cache g
      /\ @HashGenerator.generate_hash Sample.config "Ann" r' = (digest, r')
      /\ HashGenerator.hash_cache
           (HashGenerator.self (HashGenerator.set_salt "pepper" r).2) = ∅).
Proof.
  split.
  - vm_compute. reflexivity.
  - apply (@cached_digest_survives_algorithm_change Sample.config).
    vm_compute. reflexivity.
Defined.

(** C3 at work: " Ann" on a fresh MD5 generator and "ann" on one that
    has already hashed another name. *)
Lemma generate_hash_deterministic_witness :
  let fresh := HashGenerator.__init__ "md5" "" in
  let used :=
    HashGenerator.self
      (@HashGenerator.generate_hash Sample.config "Bob"
         {| HashGenerator.self := fresh; HashGenerator.uuid_calls := 0 |}).2 in
  let r1 := {| HashGenerator.self := fresh; HashGenerator.uuid_calls := 0 |} in
  let r2 := {| HashGenerator.self := used; HashGenerator.uuid_calls := 0 |} in
  pystr.lower (pystr.strip " Ann") = pystr.lower (pystr.strip "ann")
  /\ (@HashGenerator.generate_hash Sample.config " Ann" r1).1
     = (@HashGenerator.generate_hash Sample.config "ann" r2).1
  /\ Spec.lower_hex (@HashGenerator.generate_hash Sample.config " Ann" r1).1.
Proof.
  intros fresh used r1 r2.
  assert (Hcanon : pystr.lower (pystr.strip " Ann") = pystr.lower (pystr.strip "ann"))
    by reflexivity.
  pose proof (@generate_hash_deterministic Sample.config " Ann" "ann"
                fresh used 0 0
                (@cache_sound_init Sample.config "md5" "")
                (@cache_sound_generate_hash Sample.config fresh "Bob" 0
                   (@cache_sound_init Sample.config "md5" ""))
                eq_refl eq_refl Hcanon) as (Hsame & _ & _ & Hhex & _).
  exact (conj Hcanon (conj Hsame Hhex)).
Defined.

(** C3 as stated fails: one generator hashes "Ann" under MD5 and has its
    [algorithm] set to SHA-256 afterwards, as step 2 of the app sets it.
    Under this one algorithm and salt it answers "Ann" with the cached
    MD5 digest and "ann", equal to it after trimming and lower-casing,
    with the SHA-256 digest, which is also what a fresh SHA-256
    generator answers for "Ann". *)
Lemma reassigned_algorithm_breaks_determinism :
  let used := (@HashGenerator.generate_hash Sample.config "Ann" Sample.start).2 in
  let r := (HashGenerator.set_algorithm "sha256" used).2 in
  let fresh := {| HashGenerator.self := HashGenerator.__init__ "sha256" "";
                  HashGenerator.uuid_calls := 0 |} in
  HashGenerator.algorithm (HashGenerator.self r) = "sha256"
  /\ HashGenerator.salt (HashGenerator.self r) = ""
  /\ pystr.lower (pystr.strip "Ann") = pystr.lower (pystr.strip "ann")
  /\ (@HashGenerator.generate_hash Sample.config "Ann" r).1
     = "7e0d7f8a5d96c24ffcc840f31bce72b2"
  /\ (@HashGenerator.generate_hash Sample.config "ann" r).1
     = "49915e0d7d4b402e3017d010bc1c0e83cac6c797d6c16e66340fe3268693a6a1"
  /\ (@HashGenerator.generate_hash Sample.config "Ann" fresh).1
     = "49915e0d7d4b402e3017d010bc1c0e83cac6c797d6c16e66340fe3268693a6a1"
  /\ (@HashGenerator.generate_hash Sample.config "Ann" r).1
     <> (@HashGenerator.generate_hash Sample.config "ann" r).1
  /\ ~ @Spec.cache_sound Sample.config (HashGenerator.self r).
Proof.
  intros used r fresh.
  assert (Hcached : (@HashGenerator.generate_hash Sample.config "Ann" r).1
                    = "7e0d7f8a5d96c24ffcc840f31bce72b2") by (vm_compute; reflexivity).
  assert (Hcomputed : (@HashGenerator.generate_hash Sample.config "ann" r).1
    = "49915e0d7d4b402e3017d010bc1c0e83cac6c797d6c16e66340fe3268693a6a1")
    by (vm_compute; reflexivity).
  split; [reflexivity|]. split; [reflexivity|]. split; [reflexivity|].
  split; [exact Hcached|]. split; [exact Hcomputed|].
  split; [vm_compute; reflexivity|]. split.
  - rewrite Hcached, Hcomputed. discriminate.
  - intros Hsound.
    assert (Hentry : HashGenerator.hash_cache (HashGenerator.self r) !! "Ann"
                     = Some "7e0d7f8a5d96c24ffcc840f31bce72b2")
      by (vm_compute; reflexivity).
    apply Hsound in Hentry. vm_compute in Hentry. discriminate.
Qed.

(** ** Collision avoidance: [generate_unique_hash] *)

Section Collisions.
Import pystr HashGenerator Spec.
Context `{cfg : Config} `{ent : Entropy}.

Lemma retry_O (name : string) (existing : gset string) (counter : nat) (r : Run) :
  retry name existing 0 counter r =
    (remove_ch "-" (uuid4 (uuid_calls r)),
     {| self := self r; uuid_calls := S (uuid_calls r) |}).
Proof. reflexivity. Qed.

Lemma retry_S (name : string) (existing : gset string) (rounds counter : nat) (r : Run) :
  retry name existing (S rounds) counter r =
    let r' := {| self := remember (self r) (renamed name counter);
                 uuid_calls := uuid_calls r |} in
    if bool_decide (hash_of (self r) (renamed name counter) ∉ existing)
    then (hash_of (self r) (renamed name counter), r')
    else retry name existing rounds (counter + 1) r'.
Proof.
  simpl. unfold bind. rewrite generate_hash_run. fold (renamed name counter).
  case_bool_decide; reflexivity.
Qed.

Local Arguments retry : simpl never.

Lemma generate_unique_hash_run (name : string) (existing : gset string) (r : Run) :
  generate_unique_hash name existing r =
    let r' := {| self := remember (self r) name; uuid_calls := uuid_calls r |} in
    if bool_decide (hash_of (self r) name ∉ existing)
    then (hash_of (self r) name, r')
    else retry name existing 1000 1 r'.
Proof.
  unfold generate_unique_hash, bind. rewrite generate_hash_run.
  case_bool_decide; reflexivity.
Qed.

(** The loop returns the hash of the first renamed variant that is free. *)
Lemma retry_found (name : string) (existing : gset string) (rounds : nat) :
  forall (counter : nat) (r : Run) (m : nat),
    counter <= m < counter + rounds ->
    (forall j, counter <= j < m -> hash_of (self r) (renamed name j) ∈ existing) ->
    hash_of (self r) (renamed name m) ∉ existing ->
    (retry name existing rounds counter r).1 = hash_of (self r) (renamed name m)
    /\ uuid_calls (retry name existing rounds counter r).2 = uuid_calls r.
Proof.
  induction rounds as [|rounds IH]; intros counter r m Hm Hbusy Hfree; [lia|].
  rewrite retry_S. cbv zeta.
  destruct (decide (counter = m)) as [->|Hne].
  - rewrite bool_decide_eq_true_2 by exact Hfree. split; reflexivity.
  - rewrite bool_decide_eq_false_2 by (intros Hn; apply Hn, Hbusy; lia).
    destruct (IH (counter + 1)
                {| self := remember (self r) (renamed name counter);
                   uuid_calls := uuid_calls r |} m) as [E1 E2].
    + lia.
    + intros j Hj. simpl. rewrite hash_of_remember. apply Hbusy. lia.
    + simpl. rewrite hash_of_remember. exact Hfree.
    + rewrite E1, E2. simpl. rewrite hash_of_remember. split; reflexivity.
Qed.

(** When every variant of the remaining rounds is taken, the loop draws
    one UUID and returns it without its dashes. *)
Lemma retry_exhausted (name : string) (existing : gset string) (rounds : nat) :
  forall (counter : nat) (r : Run),
    (forall j, counter <= j < counter + rounds ->
               hash_of (self r) (renamed name j) ∈ existing) ->
    (retry name existing rounds counter r).1 = remove_ch "-" (uuid4 (uuid_calls r))
    /\ uuid_calls (retry name existing rounds counter r).2 = S (uuid_calls r).
Proof.
  induction rounds as [|rounds IH]; intros counter r Hbusy.
  - split; reflexivity.
  - rewrite retry_S. cbv zeta.
    rewrite bool_decide_eq_false_2 by (intros Hn; apply Hn, Hbusy; lia).
    destruct (IH (counter + 1)
                {| self := remember (self r) (renamed name counter);
                   uuid_calls := uuid_calls r |}) as [E1 E2].
    + intros j Hj. simpl. rewrite hash_of_remember. apply Hbusy. lia.
    + rewrite E1, E2. split; reflexivity.
Qed.

(** Whatever the loop returns without drawing a UUID is free; the
    generator keeps its answers. *)
Lemma retry_outcome (name : string) (existing : gset string) (rounds : nat) :
  forall (counter : nat) (r : Run),
    let out := retry name existing rounds counter r in
    (forall other, hash_of (self out.2) other = hash_of (self r) other)
    /\ (((out.1 ∉ existing) /\ uuid_calls out.2 = uuid_calls r)
        \/ uuid_calls out.2 = S (uuid_calls r)).
Proof.
  induction rounds as [|rounds IH]; intros counter r; cbv zeta.
  - rewrite retry_O. split; [reflexivity | right; reflexivity].
  - rewrite retry_S. cbv zeta.
    case_bool_decide as Hfree.
    + simpl. split; [intros; apply hash_of_remember | left; done].
    + specialize (IH (counter + 1)
                    {| self := remember (self r) (renamed name counter);
                       uuid_calls := uuid_calls r |}).
      simpl in IH. destruct IH as [Hsame Hout]. split; [|exact Hout].
      intros other. rewrite Hsame. apply hash_of_remember.
Qed.

Lemma generate_unique_hash_outcome (name : string) (existing : gset string) (r : Run) :
  let out := generate_unique_hash name existing r in
  (forall other, hash_of (self out.2) other = hash_of (self r) other)
  /\ (((out.1 ∉ existing) /\ uuid_calls out.2 = uuid_calls r)
      \/ uuid_calls out.2 = S (uuid_calls r)).
Proof.
  cbv zeta. rewrite generate_unique_hash_run. cbv zeta.
  case_bool_decide as Hfree.
  - simpl. split; [intros; apply hash_of_remember | left; done].
  - pose proof (retry_outcome name existing 1000 1
                  {| self := remember (self r) name; uuid_calls := uuid_calls r |})
      as [Hsame Hout].
    cbv zeta in Hsame, Hout. cbn [self uuid_calls] in Hsame, Hout.
    split; [|exact Hout].
    intros other. rewrite Hsame. apply hash_of_remember.
Qed.

End Collisions.

(** ** Decimal rendering *)

Section Decimal.
Import pystr Spec.

Lemma of_nat_value (n : nat) : decimal_value (of_nat n) = Some n.
Proof.
  unfold decimal_value, of_nat. rewrite NilEmpty.usu. simpl.
  f_equal. apply DecimalNat.Unsigned.of_to.
Qed.

Lemma zeros_value (k : nat) (s : string) :
  decimal_value (zeros k +:+ s) = decimal_value s.
Proof.
  induction k as [|k IH]; [reflexivity|].
  rewrite <- IH. unfold decimal_value.
  change (zeros (S k) +:+ s) with (String "0"%char (zeros k +:+ s)).
  cbn [NilEmpty.uint_of_string].
  destruct (NilEmpty.uint_of_string (zeros k +:+ s)); reflexivity.
Qed.

(** The zero-filled rendering still denotes the number it was made from. *)
Lemma zfill_value (w n : nat) : decimal_value (zfill w n) = Some n.
Proof. unfold zfill. cbv zeta. rewrite zeros_value. apply of_nat_value. Qed.

Lemma zfill_inj (w n m : nat) : zfill w n = zfill w m -> n = m.
Proof.
  intros E. apply (f_equal decimal_value) in E.
  rewrite !zfill_value in E. congruence.
Qed.

Lemma sequential_id_inj (n m : nat) : sequential_id n = sequential_id m -> n = m.
Proof.
  unfold sequential_id. intros E. apply (inj (String.app "ID")) in E.
  eapply zfill_inj, E.
Qed.

Lemma sequential_ids_NoDup (from count : nat) :
  NoDup (sequential_id <$> seq from count).
Proof.
  apply NoDup_fmap_2; [|apply NoDup_seq].
  intros n m. apply sequential_id_inj.
Qed.

End Decimal.

(** ** The batch: [create_name_id_mapping] and the loop of step 2 *)

Section Batch.
Import pystr HashGenerator Spec.
Context `{cfg : Config} `{ent : Entropy}.

Local Arguments retry : simpl never.
Local Arguments generate_unique_hash : simpl never.

Lemma ids_snoc (mappings : list Mapping) (name id_value : string) :
  ids (mappings ++ [{| Name := name; ID := id_value |}]) = ids mappings ++ [id_value].
Proof. unfold ids. rewrite fmap_app. reflexivity. Qed.

Lemma names_of_snoc (mappings : list Mapping) (name id_value : string) :
  names_of (mappings ++ [{| Name := name; ID := id_value |}])
  = names_of mappings ++ [name].
Proof. unfold names_of. rewrite fmap_app. reflexivity. Qed.

Lemma mapping_loop_cons (id_type name : string) (rest : list string)
    (mappings : list Mapping) (existing : gset string) (r : Run) :
  mapping_loop id_type (name :: rest) mappings existing r =
    let out := assign id_type name (length mappings + 1) existing r in
    mapping_loop id_type rest (mappings ++ [{| Name := name; ID := out.1 |}])
      ({[out.1]} ∪ existing) out.2.
Proof.
  simpl. unfold bind. fold (assign id_type name (length mappings + 1) existing).
  destruct (assign id_type name (length mappings + 1) existing r); reflexivity.
Qed.

Lemma generate_loop_cons (id_type : app.IdType) (i : nat) (name : string)
    (rest : list string) (mappings : list Mapping) (r : Run) :
  app.generate_loop id_type i (name :: rest) mappings r =
    let out :=
      match id_type with
      | app.hash => generate_hash name
      | app.sequential => ret ("ID" +:+ zfill 3 (i + 1))
      | app.uuid => str_uuid4
      end r in
    app.generate_loop id_type (S i) rest
      (mappings ++ [{| Name := name; ID := out.1 |}]) out.2.
Proof.
  simpl. unfold bind. destruct id_type; [|reflexivity..].
  destruct (generate_hash name r); reflexivity.
Qed.

(** One record per name, in the order of the names, whatever happens
    while the identifiers are assigned. *)
Lemma mapping_loop_names (id_type : string) (names : list string) :
  forall (mappings : list Mapping) (existing : gset string) (r : Run),
    names_of (mapping_loop id_type names mappings existing r).1
    = names_of mappings ++ names.
Proof.
  induction names as [|name rest IH]; intros mappings existing r.
  - simpl. rewrite app_nil_r. reflexivity.
  - rewrite mapping_loop_cons. cbv zeta.
    rewrite IH, names_of_snoc, <- app_assoc. reflexivity.
Qed.

(** The sequential strategy numbers the records, and leaves the run alone. *)
Lemma mapping_loop_sequential (names : list string) :
  forall (mappings : list Mapping) (existing : gset string) (r : Run),
    ids (mapping_loop "sequential" names mappings existing r).1
    = ids mappings ++ (sequential_id <$> seq (length mappings + 1) (length names))
    /\ (mapping_loop "sequential" names mappings existing r).2 = r.
Proof.
  induction names as [|name rest IH]; intros mappings existing r; simpl.
  - rewrite app_nil_r. split; reflexivity.
  - unfold bind, ret.
    destruct (IH (mappings ++ [{| Name := name;
                                  ID := "ID" +:+ zfill 3 (length mappings + 1) |}])
                 ({["ID" +:+ zfill 3 (length mappings + 1)]} ∪ existing) r)
      as [E1 E2].
    rewrite E1, E2, ids_snoc, length_app, <- app_assoc. simpl.
    replace (length mappings + 1 + 1) with (S (length mappings + 1)) by lia.
    split; reflexivity.
Qed.

(** The identifier a round assigns without drawing a UUID is new, unless
    the strategy is the sequential one (which never looks at the set). *)
Lemma assign_outcome (id_type name : string) (n : nat) (existing : gset string) (r : Run) :
  id_type <> "sequential" ->
  let out := assign id_type name n existing r in
  uuid_calls r <= uuid_calls out.2
  /\ (uuid_calls out.2 = uuid_calls r -> out.1 ∉ existing).
Proof.
  intros Hseq. cbv zeta. unfold assign.
  pose proof (generate_unique_hash_outcome name existing r) as [_ Hout].
  cbv zeta in Hout.
  repeat case_decide; try done; simpl; try lia;
    destruct Hout as [[Hfree ->]| ->]; split; (done || lia).
Qed.

(** The records made so far stay as they are, and every name adds one. *)
Lemma mapping_loop_extends (id_type : string) (names : list string) :
  forall (mappings : list Mapping) (existing : gset string) (r : Run),
    exists tail,
      (mapping_loop id_type names mappings existing r).1 = mappings ++ tail
      /\ length tail = length names.
Proof.
  induction names as [|name rest IH]; intros mappings existing r.
  - exists []. simpl. rewrite app_nil_r. split; reflexivity.
  - rewrite mapping_loop_cons. cbv zeta.
    destruct (IH (mappings ++ [{| Name := name;
                                  ID := (assign id_type name (length mappings + 1)
                                           existing r).1 |}])
                 ({[(assign id_type name (length mappings + 1) existing r).1]}
                    ∪ existing)
                 (assign id_type name (length mappings + 1) existing r).2)
      as (tail & E & Hlen).
    eexists. rewrite E, <- app_assoc. split; [reflexivity|].
    cbn [app length]. rewrite Hlen. reflexivity.
Qed.

(** A batch is the batch of its first names, carried on with the others
    from the records, the identifiers and the generator reached. *)
Lemma mapping_loop_app (id_type : string) (names others : list string) :
  forall (mappings : list Mapping) (existing : gset string) (r : Run),
    existing = list_to_set (ids mappings) ->
    mapping_loop id_type (names ++ others) mappings existing r
    = let out := mapping_loop id_type names mappings existing r in
      mapping_loop id_type others out.1 (list_to_set (ids out.1)) out.2.
Proof.
  induction names as [|name rest IH]; intros mappings existing r Hex.
  - cbn [app]. cbv zeta. simpl. rewrite Hex. reflexivity.
  - change ((name :: rest) ++ others) with (name :: (rest ++ others)).
    rewrite !mapping_loop_cons. cbv zeta. apply IH.
    rewrite Hex, ids_snoc. apply set_eq. intros x.
    rewrite elem_of_union, elem_of_singleton, !elem_of_list_to_set, elem_of_app,
      list_elem_of_singleton. tauto.
Qed.

Lemma mapping_loop_unique (id_type : string) (names : list string) :
  id_type <> "sequential" ->
  forall (mappings : list Mapping) (existing : gset string) (r : Run),
    (forall x, x ∈ ids mappings -> x ∈ existing) ->
    let out := mapping_loop id_type names mappings existing r in
    uuid_calls r <= uuid_calls out.2
    /\ (uuid_calls out.2 = uuid_calls r -> NoDup (ids mappings) -> NoDup (ids out.1)).
Proof.
  intros Hseq.
  induction names as [|name rest IH]; intros mappings existing r Hsub.
  - simpl. split; [lia | auto].
  - rewrite mapping_loop_cons. cbv zeta.
    pose proof (assign_outcome id_type name (length mappings + 1) existing r Hseq)
      as Hstep. cbv zeta in Hstep.
    destruct (assign id_type name (length mappings + 1) existing r) as [id_value r1].
    simpl in Hstep. simpl. destruct Hstep as [Hle Hnew].
    specialize (IH (mappings ++ [{| Name := name; ID := id_value |}])
                   ({[id_value]} ∪ existing) r1).
    cbv zeta in IH. destruct IH as [Hle' Hnodup].
    { intros x. rewrite ids_snoc, elem_of_app, list_elem_of_singleton, elem_of_union,
        elem_of_singleton. intros [Hx | ->]; auto. }
    split; [lia|]. intros Hsame Hnd. apply Hnodup; [lia|].
    rewrite ids_snoc. apply NoDup_app. repeat split.
    + exact Hnd.
    + intros x Hx Hx'. apply list_elem_of_singleton in Hx' as ->.
      apply Hnew; [lia | auto].
    + apply NoDup_singleton.
Qed.

(** Step 2 under the hash strategy: each record gets what [generate_hash]
    answers for its name. *)
Lemma generate_loop_hash_records (names : list string) :
  forall (i : nat) (mappings : list Mapping) (r : Run),
    (app.generate_loop app.hash i names mappings r).1
    = mappings ++ ((fun n => {| Name := n; ID := hash_of (self r) n |}) <$> names)
    /\ uuid_calls (app.generate_loop app.hash i names mappings r).2 = uuid_calls r.
Proof.
  induction names as [|name rest IH]; intros i mappings r.
  - simpl. rewrite app_nil_r. split; reflexivity.
  - rewrite generate_loop_cons. cbv zeta. rewrite generate_hash_run.
    cbn [fst snd].
    destruct (IH (S i) (mappings ++ [{| Name := name; ID := hash_of (self r) name |}])
                 {| self := remember (self r) name; uuid_calls := uuid_calls r |})
      as [E1 E2].
    rewrite E1, E2, <- app_assoc. simpl. split; [|reflexivity].
    do 2 f_equal. apply list_fmap_ext. intros _ other _.
    rewrite hash_of_remember. reflexivity.
Qed.

Lemma generate_loop_hash (names : list string) (i : nat) (r : Run) :
  ids (app.generate_loop app.hash i names [] r).1 = hash_of (self r) <$> names.
Proof.
  destruct (generate_loop_hash_records names i [] r) as [-> _].
  unfold ids. simpl. rewrite <- list_fmap_compose. reflexivity.
Qed.

Lemma generate_loop_sequential (names : list string) :
  forall (i : nat) (mappings : list Mapping) (r : Run),
    ids (app.generate_loop app.sequential i names mappings r).1
    = ids mappings ++ (sequential_id <$> seq (i + 1) (length names))
    /\ (app.generate_loop app.sequential i names mappings r).2 = r.
Proof.
  induction names as [|name rest IH]; intros i mappings r; simpl.
  - rewrite app_nil_r. split; reflexivity.
  - unfold bind, ret.
    destruct (IH (S i) (mappings ++ [{| Name := name; ID := "ID" +:+ zfill 3 (i + 1) |}]) r)
      as [E1 E2].
    rewrite E1, E2, ids_snoc, <- app_assoc. simpl. split; reflexivity.
Qed.

Lemma generate_loop_uuid (names : list string) :
  forall (i : nat) (mappings : list Mapping) (r : Run),
    ids (app.generate_loop app.uuid i names mappings r).1
    = ids mappings ++ (uuid4 <$> seq (uuid_calls r) (length names)).
Proof.
  induction names as [|name rest IH]; intros i mappings r; simpl.
  - rewrite app_nil_r. reflexivity.
  - unfold bind, str_uuid4. rewrite IH, ids_snoc, <- app_assoc. reflexivity.
Qed.

Lemma generate_loop_names (id_type : app.IdType) (names : list string) :
  forall (i : nat) (mappings : list Mapping) (r : Run),
    names_of (app.generate_loop id_type i names mappings r).1
    = names_of mappings ++ names.
Proof.
  induction names as [|name rest IH]; intros i mappings r.
  - simpl. rewrite app_nil_r. reflexivity.
  - rewrite generate_loop_cons. cbv zeta.
    rewrite IH, names_of_snoc, <- app_assoc. reflexivity.
Qed.

End Batch.

(** ** [generate_sequential_ids] *)

Section SequentialDict.
Import pystr HashGenerator Spec.

Lemma sequential_loop_other (prefix name : string) (names : list string) :
  name ∉ names ->
  forall (i : nat) (ids : gmap string string),
    sequential_loop prefix i names ids !! name = ids !! name.
Proof.
  induction names as [|n rest IH]; intros Hnot i ids; [reflexivity|].
  simpl. apply not_elem_of_cons in Hnot as [Hne Hrest].
  rewrite IH by exact Hrest. apply lookup_insert_ne. congruence.
Qed.

(** The dict maps a name to the identifier of its last position. *)
Lemma generate_sequential_ids_last (prefix : string) (names : list string) :
  forall (i : nat) (ids : gmap string string) (k : nat) (name : string),
    names !! k = Some name ->
    name ∉ drop (S k) names ->
    sequential_loop prefix i names ids !! name = Some (prefix +:+ zfill 3 (i + k)).
Proof.
  induction names as [|n rest IH]; intros i ids k name Hk Hlast; [discriminate|].
  destruct k as [|k]; simpl in *.
  - injection Hk as ->. rewrite drop_0 in Hlast.
    rewrite sequential_loop_other by exact Hlast.
    rewrite lookup_insert_eq, Nat.add_0_r. reflexivity.
  - rewrite (IH (S i) _ k name Hk Hlast). do 3 f_equal. lia.
Qed.

End SequentialDict.

(** ** Statements about identifier assignment *)

Section Identifiers.
Import pystr HashGenerator Spec.
Context `{cfg : Config} `{ent : Entropy}.

Local Arguments retry : simpl never.
Local Arguments generate_unique_hash : simpl never.

(** C4. When the hash of a name is already among the identifiers,
    [generate_unique_hash] hashes the renamed variants [name_1],
    [name_2], ... (the name is changed, not the digest) and returns the
    first one that is free, trying at most 1000 of them; when all 1000
    are taken it draws one UUID and returns it without dashes. In a
    batch of [create_name_id_mapping] under the hash strategy the
    identifiers in question are those of the records made so far and
    the generator is the one these records left: the record of the name
    carries the name as given and the identifier so found, the records
    before it are the batch of the names before it, and the batch goes
    on with the names after it, the new identifier added to the set.
    [create_name_id_mapping] returns one record per name, in order. *)
Theorem collision_retries_then_falls_back
    (name : string) (existing : gset string) (r : Run) :
  hash_of (self r) name ∈ existing ->
  let out := generate_unique_hash name existing r in
  (forall m,
      1 <= m <= 1000 ->
      (forall j, 1 <= j < m -> hash_of (self r) (renamed name j) ∈ existing) ->
      hash_of (self r) (renamed name m) ∉ existing ->
      out.1 = hash_of (self r) (renamed name m)
      /\ uuid_calls out.2 = uuid_calls r)
  /\ ((forall j, 1 <= j <= 1000 -> hash_of (self r) (renamed name j) ∈ existing) ->
      out.1 = remove_ch "-" (uuid4 (uuid_calls r))
      /\ uuid_calls out.2 = S (uuid_calls r))
  /\ (forall (names rest : list string) (r0 : Run),
        let before := create_name_id_mapping names "hash" r0 in
        existing = list_to_set (ids before.1) ->
        r = before.2 ->
        let batch := create_name_id_mapping (names ++ name :: rest) "hash" r0 in
        batch = mapping_loop "hash" rest
                  (before.1 ++ [{| Name := name; ID := out.1 |}])
                  ({[out.1]} ∪ existing) out.2
        /\ take (length names) batch.1 = before.1
        /\ batch.1 !! length names = Some {| Name := name; ID := out.1 |}
        /\ length batch.1 = length names + S (length rest))
  /\ (forall (names : list string) (id_type : string),
        names_of (create_name_id_mapping names id_type r).1 = names).
Proof.
  intros Hbase out.
  assert (Hbatch : forall (names rest : list string) (r0 : Run),
        let before := create_name_id_mapping names "hash" r0 in
        existing = list_to_set (ids before.1) ->
        r = before.2 ->
        let batch := create_name_id_mapping (names ++ name :: rest) "hash" r0 in
        batch = mapping_loop "hash" rest
                  (before.1 ++ [{| Name := name; ID := out.1 |}])
                  ({[out.1]} ∪ existing) out.2
        /\ take (length names) batch.1 = before.1
        /\ batch.1 !! length names = Some {| Name := name; ID := out.1 |}
        /\ length batch.1 = length names + S (length rest)).
  { intros names rest r0 before Hex Hr batch.
    assert (Hlen : length before.1 = length names).
    { subst before. unfold create_name_id_mapping.
      pose proof (mapping_loop_names "hash" names [] ∅ r0) as Hn.
      apply (f_equal length) in Hn. unfold names_of in Hn.
      rewrite length_fmap in Hn. exact Hn. }
    assert (Hgo : batch = mapping_loop "hash" rest
                    (before.1 ++ [{| Name := name; ID := out.1 |}])
                    ({[out.1]} ∪ existing) out.2).
    { subst batch. unfold create_name_id_mapping.
      rewrite (mapping_loop_app "hash" names (name :: rest) [] ∅ r0) by reflexivity.
      cbv zeta. fold (create_name_id_mapping names "hash" r0). fold before.
      rewrite <- Hex, <- Hr, mapping_loop_cons. cbv zeta.
      unfold assign. rewrite decide_True by reflexivity. reflexivity. }
    split; [exact Hgo|].
    destruct (mapping_loop_extends "hash" rest
                (before.1 ++ [{| Name := name; ID := out.1 |}])
                ({[out.1]} ∪ existing) out.2) as (tail & E & Htail).
    rewrite <- Hgo in E. rewrite E, <- app_assoc. cbn [app]. split; [|split].
    - apply take_app_length'. symmetry. exact Hlen.
    - apply list_lookup_middle. symmetry. exact Hlen.
    - rewrite length_app. cbn [length]. rewrite Hlen, Htail. reflexivity. }
  split; [|split; [|split; [exact Hbatch|]]]; clear Hbatch; subst out;
    rewrite ?generate_unique_hash_run; cbv zeta;
    rewrite ?bool_decide_eq_false_2 by (intros Hn; exact (Hn Hbase)).
  - intros m Hm Hbusy Hfree.
    destruct (retry_found name existing 1000 1
                {| self := remember (self r) name; uuid_calls := uuid_calls r |} m)
      as [E1 E2].
    + lia.
    + intros j Hj. cbn [self]. rewrite hash_of_remember. auto.
    + cbn [self]. rewrite hash_of_remember. exact Hfree.
    + rewrite E1, E2. cbn [self uuid_calls]. rewrite hash_of_remember. done.
  - intros Hbusy.
    destruct (retry_exhausted name existing 1000 1
                {| self := remember (self r) name; uuid_calls := uuid_calls r |})
      as [E1 E2].
    + intros j Hj. cbn [self]. rewrite hash_of_remember. apply Hbusy. lia.
    + rewrite E1, E2. done.
  - intros names id_type. unfold create_name_id_mapping.
    rewrite mapping_loop_names. reflexivity.
Qed.

(** C1, as the code has it. The sequential strategy gives pairwise
    distinct identifiers, in [create_name_id_mapping] and in step 2 of
    the app. [create_name_id_mapping] gives pairwise distinct identifiers
    under every strategy in each run that draws no UUID (so under the
    hash strategy as long as the fallback is not reached). Step 2 of the
    app under the hash strategy gives each record what [generate_hash]
    answers for its name, so the occurrences of one name share their
    identifier; under the random strategy its identifiers are the UUIDs
    drawn, as distinct as those are. *)
Theorem identifiers_distinct_by_strategy
    (names : list string) (id_type : string) (r : Run) :
  NoDup (ids (create_name_id_mapping names "sequential" r).1)
  /\ NoDup (ids (app.generate_loop app.sequential 0 names [] r).1)
  /\ (uuid_calls (create_name_id_mapping names id_type r).2 = uuid_calls r ->
      NoDup (ids (create_name_id_mapping names id_type r).1))
  /\ ids (app.generate_loop app.hash 0 names [] r).1 = hash_of (self r) <$> names
  /\ ids (app.generate_loop app.uuid 0 names [] r).1
     = uuid4 <$> seq (uuid_calls r) (length names).
Proof.
  assert (Hseq : NoDup (ids (create_name_id_mapping names "sequential" r).1)).
  { unfold create_name_id_mapping.
    destruct (mapping_loop_sequential names [] ∅ r) as [-> _].
    apply sequential_ids_NoDup. }
  split; [exact Hseq|]. split; [|split; [|split]].
  - destruct (generate_loop_sequential names 0 [] r) as [-> _].
    apply sequential_ids_NoDup.
  - destruct (decide (id_type = "sequential")) as [->|Hne]; [auto|].
    intros Hsame. unfold create_name_id_mapping in *.
    destruct (mapping_loop_unique id_type names Hne [] ∅ r) as [_ Hnd].
    + intros x Hx. inversion Hx.
    + apply Hnd; [exact Hsame | constructor].
  - apply generate_loop_hash.
  - rewrite generate_loop_uuid. reflexivity.
Qed.

(** C5. Three names get ID001, ID002, ID003 whatever they are; in
    general the record at 0-based position [k] carries its name and "ID"
    followed by [k + 1] zero-filled to three digits (at least three
    characters, denoting [k + 1]); the index advances with every record,
    repeated names included. The dict of [generate_sequential_ids] is
    numbered the same way: a name is mapped to the identifier of its
    last position. *)
Theorem sequential_ids_follow_positions
    (n1 n2 n3 : string) (names : list string) (r : Run) :
  ids (create_name_id_mapping [n1; n2; n3] "sequential" r).1
    = ["ID001"; "ID002"; "ID003"]
  /\ ids (app.generate_loop app.sequential 0 [n1; n2; n3] [] r).1
    = ["ID001"; "ID002"; "ID003"]
  /\ (forall k name,
        names !! k = Some name ->
        (create_name_id_mapping names "sequential" r).1 !! k
          = Some {| Name := name; ID := "ID" +:+ zfill 3 (k + 1) |}
        /\ (app.generate_loop app.sequential 0 names [] r).1 !! k
          = Some {| Name := name; ID := "ID" +:+ zfill 3 (k + 1) |})
  /\ (forall k name,
        names !! k = Some name ->
        name ∉ drop (S k) names ->
        generate_sequential_ids names "ID" !! name
          = Some ("ID" +:+ zfill 3 (k + 1)))
  /\ (forall k, decimal_value (zfill 3 k) = Some k /\ 3 <= len (zfill 3 k)).
Proof.
  split; [reflexivity|]. split; [reflexivity|]. split; [|split].
  2:{ intros k name Hk Hlast. unfold generate_sequential_ids.
      rewrite (generate_sequential_ids_last "ID" names 1 ∅ k name Hk Hlast).
      do 3 f_equal. lia. }
  - intros k name Hk.
    assert (Hlt : k < length names) by (eapply lookup_lt_Some, Hk).
    assert (Hid : (sequential_id <$> seq 1 (length names)) !! k
                  = Some ("ID" +:+ zfill 3 (k + 1))).
    { rewrite list_lookup_fmap, lookup_seq_lt by exact Hlt.
      simpl. unfold sequential_id. do 3 f_equal. lia. }
    split.
    + pose proof (mapping_loop_names "sequential" names [] ∅ r) as Hn.
      destruct (mapping_loop_sequential names [] ∅ r) as [Hi _].
      unfold create_name_id_mapping.
      destruct (mapping_loop "sequential" names [] ∅ r) as [out r'].
      simpl in *. unfold names_of in Hn. unfold ids in Hi.
      apply (f_equal (fun l => l !! k)) in Hn, Hi.
      rewrite list_lookup_fmap in Hn, Hi. rewrite Hk in Hn. rewrite Hid in Hi.
      destruct (out !! k) as [[nm idv]|]; simpl in *; congruence.
    + pose proof (generate_loop_names app.sequential names 0 [] r) as Hn.
      destruct (generate_loop_sequential names 0 [] r) as [Hi _].
      destruct (app.generate_loop app.sequential 0 names [] r) as [out r'].
      simpl in *. unfold names_of in Hn. unfold ids in Hi.
      apply (f_equal (fun l => l !! k)) in Hn, Hi.
      rewrite list_lookup_fmap in Hn, Hi. rewrite Hk in Hn. rewrite Hid in Hi.
      destruct (out !! k) as [[nm idv]|]; simpl in *; congruence.
  - intros k. split; [apply zfill_value|].
    unfold zfill, len. cbv zeta.
    assert (Happ : forall a b, String.length (a +:+ b) = String.length a + String.length b).
    { intros a b. induction a as [|c a IH]; simpl; [reflexivity|].
      change (String c a +:+ b) with (String c (a +:+ b)). simpl. rewrite IH. reflexivity. }
    assert (Hz : forall n, String.length (zeros n) = n).
    { induction n as [|n IH]; simpl; [reflexivity | rewrite IH; reflexivity]. }
    rewrite Happ, Hz. lia.
Qed.

(** C6. With no name left after stripping, pressing "Generate IDs"
    reports the error and returns: the session (its record list and its
    step) and the generator are as before. The loop of
    [create_name_id_mapping] on no names yields no record. *)
Theorem empty_batch_is_refused
    (id_type : app.IdType) (algorithm : string) (session : app.SessionState)
    (r : Run) :
  app.final_names (default [] (app.editable_names session)) = [] ->
  app.step_2_generate_ids id_type algorithm session r
    = (app.error "No names to process!", session, r)
  /\ forall strategy : string, create_name_id_mapping [] strategy r = ([], r).
Proof.
  intros Hempty. unfold app.step_2_generate_ids. rewrite Hempty.
  split; reflexivity.
Qed.

End Identifiers.

(** ** The pipeline on ["Ann"; "ann"; "Bob"] *)

Section Duplicates.
Import pystr HashGenerator Spec.
Context `{cfg : Config} `{ent : Entropy}.

(** C2. On ["Ann"; "ann"; "Bob"] the analyzer reports the one group
    "Ann", count 2, positions 0 and 1, and keeps both occurrences in
    [all_cleaned_names]; these become the editable list, and step 2 under
    the hash strategy, on the generator [main] has just built, returns
    three records of which the two named "Ann" carry the same digest. *)
Theorem duplicates_kept_and_hashed_alike (chosen : string) (drawn : nat) :
  let uploaded := ["Ann"; "ann"; "Bob"] in
  let processed := (NameProcessor.process_names NameProcessor.__init__ uploaded).1 in
  let session :=
    app.review NameProcessor.__init__
      {| app.step := 2; app.names_list := uploaded;
         app.editable_names := None; app.name_id_mappings := [] |} in
  let g := {| algorithm := chosen; salt := DEFAULT_SALT; hash_cache := ∅ |} in
  NameProcessor.duplicate_groups processed
    = [("Ann", {| NameProcessor.name := "Ann"; NameProcessor.count := 2;
                  NameProcessor.indices := [0; 1] |})]
  /\ NameProcessor.all_cleaned_names processed = ["Ann"; "Ann"; "Bob"]
  /\ app.editable_names session = Some ["Ann"; "Ann"; "Bob"]
  /\ (app.step_2_generate_ids app.hash chosen session (app.start drawn)).1
     = (app.success 3,
        {| app.step := 3; app.names_list := uploaded;
           app.editable_names := Some ["Ann"; "Ann"; "Bob"];
           app.name_id_mappings :=
             [{| Name := "Ann"; ID := compute_hash g "Ann" |};
              {| Name := "Ann"; ID := compute_hash g "Ann" |};
              {| Name := "Bob"; ID := compute_hash g "Bob" |}] |}).
Proof.
  intros uploaded processed session g.
  split; [vm_compute; reflexivity|].
  split; [vm_compute; reflexivity|].
  split; [vm_compute; reflexivity|].
  assert (Hnames : app.final_names (default [] (app.editable_names session))
                   = ["Ann"; "Ann"; "Bob"]) by (vm_compute; reflexivity).
  assert (Hsession : session
                     = {| app.step := 2; app.names_list := uploaded;
                          app.editable_names := Some ["Ann"; "Ann"; "Bob"];
                          app.name_id_mappings := [] |}) by (vm_compute; reflexivity).
  unfold app.step_2_generate_ids. rewrite Hnames, Hsession. clear Hnames Hsession.
  unfold bind. cbn [set_algorithm bind get_self put_self app.start self uuid_calls
                      app.main_hash_generator __init__ algorithm salt hash_cache].
  fold g.
  destruct (generate_loop_hash_records ["Ann"; "Ann"; "Bob"] 0 []
              {| self := g; uuid_calls := drawn |}) as [Hrec _].
  destruct (app.generate_loop app.hash 0 ["Ann"; "Ann"; "Bob"] []
              {| self := g; uuid_calls := drawn |}) as [out r2].
  cbn [fst self] in Hrec. subst out. simpl.
  assert (Hfresh : forall n, hash_of g n = compute_hash g n).
  { intros n. unfold hash_of, g. cbn [hash_cache]. rewrite lookup_empty. reflexivity. }
  rewrite !Hfresh. reflexivity.
Qed.

End Duplicates.

(** ** The statements at concrete inputs *)

(** C4 at work, three times. With the digest of "ann" taken, "Ann" gets
    the digest of "ann_1". With the digests of "ann", "ann_1", ...,
    "ann_1000" all taken, it gets the first UUID of the random source,
    dashes removed. In the batch "Ann", "Ann", "Bob" the second record
    meets the identifier of the first and carries the digest of "ann_1"
    under the name "Ann". *)
Lemma collision_retries_then_falls_back_witness :
  let h := @Spec.hash_of Sample.config (HashGenerator.self Sample.start) in
  let one : gset string := {[h "Ann"]} in
  let crowd : gset string :=
    list_to_set (h <$> ("Ann" :: (Spec.renamed "Ann" <$> seq 1 1000))) in
  let before :=
    @HashGenerator.create_name_id_mapping Sample.config Sample.entropy
      ["Ann"] "hash" Sample.start in
  (h "Ann" ∈ one /\ h "Ann" ∈ crowd
   /\ @Spec.hash_of Sample.config (HashGenerator.self before.2) "Ann"
        ∈ (list_to_set (Spec.ids before.1) : gset string))
  /\ (@HashGenerator.generate_unique_hash Sample.config Sample.entropy
        "Ann" one Sample.start).1 = h (Spec.renamed "Ann" 1)
  /\ (@HashGenerator.generate_unique_hash Sample.config Sample.entropy
        "Ann" crowd Sample.start).1 = "00000000000040008000000000000000"
  /\ (@HashGenerator.create_name_id_mapping Sample.config Sample.entropy
        ["Ann"; "Ann"; "Bob"] "hash" Sample.start).1 !! 1
     = Some {| HashGenerator.Name := "Ann";
               HashGenerator.ID := "1795369d398df4ba532db9177d698a1b" |}.
Proof.
  intros h one crowd before.
  assert (Hone : h "Ann" ∈ one) by (apply elem_of_singleton; reflexivity).
  assert (Hcrowd : forall n,
             n ∈ "Ann" :: (Spec.renamed "Ann" <$> seq 1 1000) -> h n ∈ crowd).
  { intros n Hn. apply elem_of_list_to_set, list_elem_of_fmap. exists n. auto. }
  assert (Hbase : h "Ann" ∈ crowd) by (apply Hcrowd; left).
  assert (Hmet : @Spec.hash_of Sample.config (HashGenerator.self before.2) "Ann"
                 ∈ (list_to_set (Spec.ids before.1) : gset string)).
  { apply elem_of_list_to_set. vm_compute. left. }
  split; [exact (conj Hone (conj Hbase Hmet))|]. split; [|split].
  - destruct (@collision_retries_then_falls_back Sample.config Sample.entropy
                "Ann" one Sample.start Hone) as (Hfound & _ & _).
    apply (Hfound 1).
    + lia.
    + intros j Hj. lia.
    + intros Hin. apply elem_of_singleton in Hin. revert Hin.
      vm_compute. discriminate.
  - destruct (@collision_retries_then_falls_back Sample.config Sample.entropy
                "Ann" crowd Sample.start Hbase) as (_ & Hfallback & _).
    apply Hfallback. intros j Hj. apply Hcrowd. right.
    apply list_elem_of_fmap. exists j. split; [reflexivity|].
    apply elem_of_seq. lia.
  - destruct (@collision_retries_then_falls_back Sample.config Sample.entropy
                "Ann" (list_to_set (Spec.ids before.1)) before.2 Hmet)
      as (Hfound & _ & Hbatch & _).
    destruct (Hbatch ["Ann"] ["Bob"] Sample.start eq_refl eq_refl)
      as (_ & _ & Hrecord & _).
    destruct (Hfound 1) as [Hid _].
    + lia.
    + intros j Hj. lia.
    + intros Hin. apply elem_of_list_to_set in Hin. vm_compute in Hin.
      inversion Hin as [|? ? ? Hin']. inversion Hin'.
    + rewrite Hid in Hrecord.
      assert (Hdigest : @Spec.hash_of Sample.config (HashGenerator.self before.2)
                          (Spec.renamed "Ann" 1)
                        = "1795369d398df4ba532db9177d698a1b")
        by (vm_compute; reflexivity).
      rewrite Hdigest in Hrecord. exact Hrecord.
Defined.

(** C6 at work: an editable list of blank fields only. *)
Lemma empty_batch_is_refused_witness :
  let session :=
    {| app.step := 2; app.names_list := [];
       app.editable_names := Some [""; "   "]; app.name_id_mappings := [] |} in
  app.final_names (default [] (app.editable_names session)) = []
  /\ @app.step_2_generate_ids Sample.config Sample.entropy
       app.sequential "md5" session Sample.start
     = (app.error "No names to process!", session, Sample.start).
Proof.
  intros session.
  assert (Hempty : app.final_names (default [] (app.editable_names session)) = [])
    by reflexivity.
  split; [exact Hempty|].
  exact (proj1 (@empty_batch_is_refused Sample.config Sample.entropy
                  app.sequential "md5" session Sample.start Hempty)).
Defined.

(** C1 as stated fails: the uploaded names "Ann" and "ann" are both kept
    as "Ann", and step 2 under the hash strategy gives the two records
    one identifier. *)
Lemma repeated_name_shares_identifier :
  let session :=
    app.review NameProcessor.__init__
      {| app.step := 2; app.names_list := ["Ann"; "ann"];
         app.editable_names := None; app.name_id_mappings := [] |} in
  let out :=
    (@app.step_2_generate_ids Sample.config Sample.entropy
       app.hash "md5" session Sample.start).1 in
  app.name_id_mappings out.2
    = [{| HashGenerator.Name := "Ann"; HashGenerator.ID := "7e0d7f8a5d96c24ffcc840f31bce72b2" |};
       {| HashGenerator.Name := "Ann"; HashGenerator.ID := "7e0d7f8a5d96c24ffcc840f31bce72b2" |}]
  /\ ~ NoDup (Spec.ids (app.name_id_mappings out.2)).
Proof.
  intros session out.
  assert (E : app.name_id_mappings out.2
    = [{| HashGenerator.Name := "Ann"; HashGenerator.ID := "7e0d7f8a5d96c24ffcc840f31bce72b2" |};
       {| HashGenerator.Name := "Ann"; HashGenerator.ID := "7e0d7f8a5d96c24ffcc840f31bce72b2" |}])
    by (vm_compute; reflexivity).
  split; [exact E|]. rewrite E. intros Hnd.
  apply NoDup_cons in Hnd as [Hnot _]. apply Hnot. left.
Qed.

(** C1 as amended, on a run of [create_name_id_mapping] over a repeated
    name: no UUID is drawn and the identifiers differ. *)
Lemma identifiers_distinct_by_strategy_witness :
  let out :=
    @HashGenerator.create_name_id_mapping Sample.config Sample.entropy
      ["Ann"; "Ann"; "Bob"] "hash" Sample.start in
  HashGenerator.uuid_calls out.2 = HashGenerator.uuid_calls Sample.start
  /\ NoDup (Spec.ids out.1).
Proof.
  intros out.
  assert (Hsame : HashGenerator.uuid_calls out.2 = HashGenerator.uuid_calls Sample.start)
    by (vm_compute; reflexivity).
  split; [exact Hsame|].
  destruct (@identifiers_distinct_by_strategy Sample.config Sample.entropy
              ["Ann"; "Ann"; "Bob"] "hash" Sample.start) as (_ & _ & Hnd & _).
  exact (Hnd Hsame).
Defined.

(** ** Character classes *)

Section Characters.
Import pystr Spec.

Ltac by_cases_on c :=
  destruct c as [[] [] [] [] [] [] [] []]; vm_compute; (reflexivity || discriminate || tauto).

Lemma isalpha_upper_ch (c : ascii) : isalpha (upper_ch c) = isalpha c.
Proof. by_cases_on c. Qed.

Lemma isalpha_lower_ch (c : ascii) : isalpha (lower_ch c) = isalpha c.
Proof. by_cases_on c. Qed.

Lemma upper_ch_isupper (c : ascii) : isalpha c = true -> isupper (upper_ch c) = true.
Proof. by_cases_on c. Qed.

Lemma lower_ch_islower (c : ascii) : isalpha c = true -> islower (lower_ch c) = true.
Proof. by_cases_on c. Qed.

Lemma upper_ch_idem (c : ascii) : upper_ch (upper_ch c) = upper_ch c.
Proof. by_cases_on c. Qed.

Lemma lower_ch_idem (c : ascii) : lower_ch (lower_ch c) = lower_ch c.
Proof. by_cases_on c. Qed.

Lemma lower_upper_ch (c : ascii) : lower_ch (upper_ch c) = lower_ch c.
Proof. by_cases_on c. Qed.

Lemma isalpha_word (c : ascii) : isalpha c = true -> re.word c = true.
Proof. by_cases_on c. Qed.

Lemma isspace_not_alpha (c : ascii) : isspace c = true -> isalpha c = false.
Proof. by_cases_on c. Qed.

Lemma isdigit_not_alpha (c : ascii) : isdigit_ch c = true -> isalpha c = false.
Proof. by_cases_on c. Qed.

Lemma special_not_alpha (c : ascii) : re.special c = true -> isalpha c = false.
Proof. by_cases_on c. Qed.

Lemma newline_not_alpha (c : ascii) : Ascii.eqb c "010" = true -> isalpha c = false.
Proof. by_cases_on c. Qed.

(** Changing the case of a character keeps its class. *)
Lemma isspace_recase (b : bool) (c : ascii) :
  isspace (if b then lower_ch c else upper_ch c) = isspace c.
Proof. destruct b; by_cases_on c. Qed.

Lemma blank_recase (b : bool) (c : ascii) :
  Ascii.eqb (if b then lower_ch c else upper_ch c) " " = Ascii.eqb c " ".
Proof. destruct b; by_cases_on c. Qed.

Lemma special_recase (b : bool) (c : ascii) :
  re.special (if b then lower_ch c else upper_ch c) = re.special c.
Proof. destruct b; by_cases_on c. Qed.

Lemma newline_recase (b : bool) (c : ascii) :
  Ascii.eqb (if b then lower_ch c else upper_ch c) "010" = Ascii.eqb c "010".
Proof. destruct b; by_cases_on c. Qed.

Lemma newline_fixed (b : bool) (c : ascii) :
  Ascii.eqb c "010" = true -> (if b then lower_ch c else upper_ch c) = c.
Proof. destruct b; by_cases_on c. Qed.

Lemma special_not_space (c : ascii) : re.special c = true -> isspace c = false.
Proof. by_cases_on c. Qed.

Lemma special_not_newline (c : ascii) : re.special c = true -> Ascii.eqb c "010" = false.
Proof. by_cases_on c. Qed.

Lemma blank_not_newline (c : ascii) : Ascii.eqb c " " = true -> Ascii.eqb c "010" = false.
Proof. by_cases_on c. Qed.

Lemma newline_isspace (c : ascii) : Ascii.eqb c "010" = true -> isspace c = true.
Proof. by_cases_on c. Qed.

End Characters.

(** ** [str.title] *)

Section Title.
Import pystr Spec.

Lemma title_go_idem (s : string) :
  forall b, title_go b (title_go b s) = title_go b s.
Proof.
  induction s as [|c s IH]; intros b; [reflexivity|].
  simpl. destruct b.
  - rewrite lower_ch_idem, isalpha_lower_ch, IH. reflexivity.
  - rewrite upper_ch_idem, isalpha_upper_ch, IH. reflexivity.
Qed.

(** In the output of [title], a letter is lower-case after a letter and
    upper-case elsewhere. *)
Lemma title_go_cased (s : string) :
  forall (b : bool) (i : nat) (c : ascii),
    String.get i (title_go b s) = Some c ->
    isalpha c = true ->
    (if match i with
        | O => b
        | S j => from_option isalpha false (String.get j (title_go b s))
        end
     then islower c else isupper c) = true.
Proof.
  induction s as [|a s IH]; intros b i c Hget Hc; [destruct i; discriminate|].
  simpl in Hget. destruct i as [|j].
  - injection Hget as <-. destruct b.
    + rewrite isalpha_lower_ch in Hc. apply lower_ch_islower, Hc.
    + rewrite isalpha_upper_ch in Hc. apply upper_ch_isupper, Hc.
  - specialize (IH (isalpha a) j c Hget Hc). simpl.
    destruct j as [|j']; [|exact IH].
    simpl. destruct b; rewrite ?isalpha_lower_ch, ?isalpha_upper_ch; exact IH.
Qed.

Lemma lower_title_go (s : string) : forall b, lower (title_go b s) = lower s.
Proof.
  induction s as [|c s IH]; intros b; [reflexivity|].
  unfold lower in *. simpl. rewrite IH.
  destruct b; rewrite ?lower_ch_idem, ?lower_upper_ch; reflexivity.
Qed.

End Title.

(** ** Statements about normalisation *)

Section Normalisation.
Import pystr Spec NameProcessor.

(** C7, as the code has it. The result of [_clean_name] is in title case
    with respect to runs of letters: it is unchanged by [str.title], each
    of its letters is lower-case when the character before it is a
    letter and upper-case otherwise (at the start, after a space, a
    digit, an apostrophe or any other character), and apart from the
    case of letters it is the text the trimming steps left, inner
    punctuation included. *)
Theorem clean_name_is_title_cased_by_letter_runs (raw : string) :
  ascii_text raw ->
  let cleaned := _clean_name raw in
  title cleaned = cleaned
  /\ (forall i c,
        String.get i cleaned = Some c ->
        isalpha c = true ->
        (if preceded_by_letter cleaned i then islower c else isupper c) = true)
  /\ lower cleaned = lower (re.sub_edge_punct (re.sub_spaces (strip raw))).
Proof.
  intros _ cleaned. subst cleaned. unfold _clean_name.
  destruct raw as [|c raw]; [repeat split; intros [|i] ch; discriminate|].
  cbn [truthy negb]. cbv zeta. unfold title.
  split; [apply title_go_idem|]. split; [|apply lower_title_go].
  intros i ch Hget Hch.
  pose proof (title_go_cased _ false i ch Hget Hch) as H.
  unfold preceded_by_letter. destruct i; exact H.
Qed.

Lemma rstrip_empty (s : string) : rstrip s = "" -> forallb isspace s = true.
Proof.
  induction s as [|c s IH]; [reflexivity|]. simpl.
  destruct (rstrip s) as [|d r]; [|discriminate].
  destruct (isspace c); [|discriminate]. intros _. apply IH. reflexivity.
Qed.

Lemma lstrip_spaces (s : string) :
  forallb isspace (lstrip s) = true -> forallb isspace s = true.
Proof.
  induction s as [|c s IH]; [reflexivity|]. simpl.
  destruct (isspace c) eqn:Hc; simpl; [exact IH|].
  rewrite Hc. discriminate.
Qed.

Lemma spaces_no_alpha (s : string) : forallb isspace s = true -> existsb isalpha s = false.
Proof.
  induction s as [|c s IH]; [reflexivity|]. simpl.
  intros [Hc Hs]%andb_prop. rewrite (isspace_not_alpha c Hc). auto.
Qed.

Lemma digits_no_alpha (s : string) : forallb isdigit_ch s = true -> existsb isalpha s = false.
Proof.
  induction s as [|c s IH]; [reflexivity|]. simpl.
  intros [Hc Hs]%andb_prop. rewrite (isdigit_not_alpha c Hc). auto.
Qed.

Lemma non_word_no_alpha (s : string) :
  forallb (fun c => negb (re.word c)) s = true -> existsb isalpha s = false.
Proof.
  induction s as [|c s IH]; [reflexivity|]. simpl.
  intros [Hc Hs]%andb_prop. rewrite (IH Hs), orb_false_r.
  destruct (isalpha c) eqn:Ha; [|reflexivity].
  rewrite (isalpha_word c Ha) in Hc. discriminate.
Qed.

Lemma special_run_no_alpha (s rest : string) :
  re.special_run_to_dollar s = Some rest -> existsb isalpha s = false.
Proof.
  induction s as [|c s IH]; [reflexivity|].
  cbn [re.special_run_to_dollar].
  destruct (re.at_dollar (String c s)) eqn:Hd.
  - intros _. simpl in Hd. destruct s; [|discriminate].
    simpl. rewrite (newline_not_alpha c Hd). reflexivity.
  - destruct (re.special c) eqn:Hc; [|discriminate].
    intros H. simpl. rewrite (special_not_alpha c Hc), (IH H). reflexivity.
Qed.

Lemma match_only_special_no_alpha (s : string) :
  re.match_only_special s = true -> existsb isalpha s = false.
Proof.
  destruct s as [|c s]; [discriminate|]. simpl.
  intros [Hc Hrun]%andb_prop. apply bool_decide_eq_true in Hrun as [rest Hrest].
  rewrite (special_not_alpha c Hc), (special_run_no_alpha s rest Hrest). reflexivity.
Qed.

(** A name is accepted exactly when it has two characters or more and a
    letter among them. *)
Lemma validate_name_true (s : string) :
  _validate_name s = true <-> 2 <= len s /\ existsb isalpha s = true.
Proof.
  unfold _validate_name, re.search_letter. split.
  - repeat (match goal with |- context [if ?b then _ else _] => destruct b eqn:? end;
            try discriminate).
    intros _. split.
    + apply Nat.ltb_ge. assumption.
    + apply negb_false_iff. assumption.
  - intros [Hlen Halpha].
    assert (Hne : truthy s = true) by (destruct s; [simpl in Hlen; lia | reflexivity]).
    assert (Hstrip : (len (strip s) <? 1) = false).
    { apply Nat.ltb_ge. destruct (strip s) eqn:E; [|simpl; lia].
      pose proof (spaces_no_alpha s (lstrip_spaces s (rstrip_empty _ E))).
      congruence. }
    assert (Hdig : isdigit s = false).
    { unfold isdigit. rewrite Hne. simpl.
      destruct (forallb isdigit_ch s) eqn:E; [|reflexivity].
      pose proof (digits_no_alpha s E). congruence. }
    assert (Hspec : re.match_only_special s = false).
    { destruct (re.match_only_special s) eqn:E; [|reflexivity].
      pose proof (match_only_special_no_alpha s E). congruence. }
    rewrite Hne, Hstrip, Hdig, Hspec. simpl.
    replace (len s <? 2) with false by (symmetry; apply Nat.ltb_ge; exact Hlen).
    rewrite Halpha. reflexivity.
Qed.

(** C8. "123" and "!!!" are Invalid, "  john   doe  " becomes
    "John Doe", and [_validate_name] rejects a string exactly when it is
    empty, shorter than two characters, all digits, all non-word
    characters, or without a letter. *)
Theorem validity_boundary (s : string) :
  normalize "123" = None
  /\ normalize "!!!" = None
  /\ normalize "  john   doe  " = Some "John Doe"
  /\ (_validate_name s = false <->
      s = "" \/ len s < 2 \/ entirely_numeric s \/ entirely_non_word s
      \/ no_alphabetic s).
Proof.
  split; [reflexivity|]. split; [reflexivity|]. split; [reflexivity|].
  unfold entirely_numeric, entirely_non_word, no_alphabetic. split.
  - intros Hfalse.
    destruct (le_lt_dec 2 (len s)) as [Hlen|Hlen]; [|auto].
    destruct (existsb isalpha s) eqn:Ha; [|auto 6].
    assert (_validate_name s = true) by (apply validate_name_true; auto). congruence.
  - intros Hwhy. destruct (_validate_name s) eqn:Hv; [|reflexivity].
    apply validate_name_true in Hv as [Hlen Ha]. exfalso.
    destruct Hwhy as [-> | [Hshort | [[_ Hd] | [[_ Hw] | Hn]]]].
    + simpl in Hlen. lia.
    + lia.
    + pose proof (digits_no_alpha s Hd). congruence.
    + pose proof (non_word_no_alpha s Hw). congruence.
    + congruence.
Qed.

End Normalisation.

(** ** Normalisation at concrete inputs *)

(** C7 as stated fails: "o'connor" is accepted and becomes "O'Connor",
    where the letter after the apostrophe is upper-cased although it is
    inside its space-separated token; the token rule gives "O'connor". *)
Lemma apostrophe_starts_a_new_word :
  Spec.normalize "o'connor" = Some "O'Connor"
  /\ Spec.capitalize_tokens "O'Connor" = "O'connor"
  /\ ~ Spec.space_title_cased "O'Connor".
Proof.
  split; [reflexivity|]. split; [reflexivity|].
  unfold Spec.space_title_cased. vm_compute. discriminate.
Qed.

(** C7 as amended, on the same name. *)
Lemma clean_name_is_title_cased_by_letter_runs_witness :
  Spec.ascii_text "o'connor"
  /\ pystr.title (NameProcessor._clean_name "o'connor")
     = NameProcessor._clean_name "o'connor"
  /\ pystr.lower (NameProcessor._clean_name "o'connor") = "o'connor".
Proof.
  assert (Hascii : Spec.ascii_text "o'connor") by reflexivity.
  destruct (clean_name_is_title_cased_by_letter_runs "o'connor" Hascii)
    as (Htitle & _ & Hlower).
  exact (conj Hascii (conj Htitle Hlower)).
Defined.

(** C9 fails on the code: the punctuation is trimmed after the blanks,
    so "! john" is accepted as " John", with the blank the trimming
    uncovered, and normalising that again gives "John". *)
Lemma normalize_twice_differs :
  Spec.normalize "! john" = Some " John"
  /\ Spec.normalize " John" = Some "John"
  /\ Spec.normalize " John" <> Spec.normalize "! john".
Proof.
  split; [reflexivity|]. split; [reflexivity|]. vm_compute. discriminate.
Qed.

(** ** When normalisation is idempotent *)

Section Idempotence.
Import pystr Spec NameProcessor.

Lemma tidy_weaken (s : string) : tidy_go true s = true -> tidy_go false s = true.
Proof.
  destruct s as [|c s]; [reflexivity|]. simpl.
  destruct (isspace c); [|auto]. rewrite andb_false_r. discriminate.
Qed.

Lemma tidy_tail (b : bool) (c : ascii) (s : string) :
  tidy_go b (String c s) = true -> tidy_go false s = true.
Proof.
  simpl. destruct (isspace c); [|auto].
  intros [_ H]%andb_prop. apply tidy_weaken, H.
Qed.

Lemma tidy_no_newline (b : bool) (c : ascii) (s : string) :
  tidy_go b (String c s) = true -> Ascii.eqb c "010" = false.
Proof.
  simpl. destruct (Ascii.eqb c "010") eqn:Hn; [|reflexivity].
  rewrite (newline_isspace c Hn).
  destruct (Ascii.eqb c " ") eqn:Hb; [|discriminate].
  rewrite (blank_not_newline c Hb) in Hn. discriminate.
Qed.

Lemma tidy_sub_spaces (s : string) :
  forall b, tidy_go b (re.sub_spaces_go b s) = true.
Proof.
  induction s as [|c s IH]; intros b; [reflexivity|]. simpl.
  destruct (isspace c) eqn:Hc.
  - destruct b; [apply IH|]. simpl. apply IH.
  - simpl. rewrite Hc. apply IH.
Qed.

Lemma sub_spaces_tidy (s : string) :
  forall b, tidy_go b s = true -> re.sub_spaces_go b s = s.
Proof.
  induction s as [|c s IH]; intros b; [reflexivity|]. simpl.
  destruct (isspace c) eqn:Hc.
  - intros [[Hblank Hb]%andb_prop Hs]%andb_prop.
    apply negb_true_iff in Hb as ->. apply Ascii.eqb_eq in Hblank as ->.
    rewrite (IH true Hs). reflexivity.
  - intros Hs. rewrite (IH false Hs). reflexivity.
Qed.

Lemma tidy_sub_leading (s : string) :
  forall b, tidy_go b s = true -> tidy_go false (re.sub_leading s) = true.
Proof.
  induction s as [|c s IH]; intros b Hs; [reflexivity|]. simpl.
  destruct (re.special c) eqn:Hc.
  - apply (IH false). apply (tidy_tail b c s Hs).
  - destruct b; [apply tidy_weaken, Hs | exact Hs].
Qed.

Lemma run_rest_at_dollar (s rest : string) :
  re.special_run_to_dollar s = Some rest -> re.at_dollar rest = true.
Proof.
  induction s as [|c s IH]; [intros [= <-]; reflexivity|].
  cbn [re.special_run_to_dollar].
  destruct (re.at_dollar (String c s)) eqn:Hd; [intros [= <-]; exact Hd|].
  destruct (re.special c); [exact IH | discriminate].
Qed.

(** Without a newline the trailing run reaches the very end. *)
Lemma run_rest_tidy (s rest : string) :
  forall b, tidy_go b s = true ->
            re.special_run_to_dollar s = Some rest -> rest = "".
Proof.
  induction s as [|c s IH]; intros b Hs; [intros [= <-]; reflexivity|].
  cbn [re.special_run_to_dollar].
  destruct (re.at_dollar (String c s)) eqn:Hd.
  - simpl in Hd. destruct s; [|discriminate].
    rewrite (tidy_no_newline b c "" Hs) in Hd. discriminate.
  - destruct (re.special c); [|discriminate].
    apply (IH false), (tidy_tail b c s Hs).
Qed.

Lemma tidy_sub_trailing (s : string) :
  forall b, tidy_go b s = true -> tidy_go b (re.sub_trailing s) = true.
Proof.
  induction s as [|c s IH]; intros b Hs; [reflexivity|].
  pose proof (tidy_tail b c s Hs) as Htail.
  cbn [re.sub_trailing]. destruct (re.special c) eqn:Hc.
  - destruct (re.special_run_to_dollar s) as [rest|] eqn:Hrun.
    + rewrite (run_rest_tidy s rest false Htail Hrun). reflexivity.
    + simpl in *. rewrite (special_not_space c Hc) in *. apply IH, Hs.
  - simpl in *. destruct (isspace c).
    + apply andb_prop in Hs as [Hhead Hs]. rewrite Hhead. apply IH, Hs.
    + apply IH, Hs.
Qed.

Lemma tidy_title_go (s : string) :
  forall b p, tidy_go b (title_go p s) = tidy_go b s.
Proof.
  induction s as [|c s IH]; intros b p; [reflexivity|]. simpl.
  rewrite isspace_recase, blank_recase, !IH. reflexivity.
Qed.

Lemma head_kept_sub_leading (s : string) : head_kept (re.sub_leading s) = true.
Proof.
  induction s as [|c s IH]; [reflexivity|]. simpl.
  destruct (re.special c) eqn:Hc; [exact IH|]. simpl. rewrite Hc. reflexivity.
Qed.

Lemma head_kept_sub_trailing (s : string) :
  head_kept s = true -> head_kept (re.sub_trailing s) = true.
Proof.
  destruct s as [|c s]; [reflexivity|]. simpl.
  intros Hc. apply negb_true_iff in Hc. rewrite Hc. simpl. rewrite Hc. reflexivity.
Qed.

Lemma head_kept_title_go (s : string) (p : bool) :
  head_kept (title_go p s) = head_kept s.
Proof. destruct s as [|c s]; [reflexivity|]. simpl. rewrite special_recase. reflexivity. Qed.

Lemma sub_leading_head_kept (s : string) : head_kept s = true -> re.sub_leading s = s.
Proof.
  destruct s as [|c s]; [reflexivity|]. simpl.
  intros Hc. apply negb_true_iff in Hc. rewrite Hc. reflexivity.
Qed.

Lemma at_dollar_title_go (s : string) (p : bool) :
  re.at_dollar (title_go p s) = re.at_dollar s.
Proof.
  destruct s as [|c [|d s]]; [reflexivity| |reflexivity].
  simpl. apply newline_recase.
Qed.

Lemma title_go_at_dollar (s : string) (p : bool) :
  re.at_dollar s = true -> title_go p s = s.
Proof.
  destruct s as [|c [|d s]]; [reflexivity| |discriminate].
  simpl. intros Hc. rewrite (newline_fixed p c Hc). reflexivity.
Qed.

Lemma run_title_go (s : string) :
  forall p, re.special_run_to_dollar (title_go p s) = re.special_run_to_dollar s.
Proof.
  induction s as [|c s IH]; intros p; [reflexivity|].
  pose proof (at_dollar_title_go (String c s) p) as Hd.
  pose proof (title_go_at_dollar (String c s) p) as Hfix.
  cbn [title_go] in *. cbn [re.special_run_to_dollar]. rewrite Hd.
  destruct (re.at_dollar (String c s)); [rewrite Hfix; reflexivity|].
  rewrite special_recase, IH. reflexivity.
Qed.

(** Trimming the trailing punctuation and title-casing commute. *)
Lemma sub_trailing_title_go (s : string) :
  forall p, re.sub_trailing (title_go p s) = title_go p (re.sub_trailing s).
Proof.
  induction s as [|c s IH]; intros p; [reflexivity|].
  cbn [title_go re.sub_trailing]. rewrite special_recase, run_title_go.
  destruct (re.special c).
  - destruct (re.special_run_to_dollar s) as [rest|] eqn:Hrun.
    + symmetry. apply title_go_at_dollar, (run_rest_at_dollar s rest Hrun).
    + cbn [title_go]. rewrite IH. reflexivity.
  - cbn [title_go]. rewrite IH. reflexivity.
Qed.

Lemma run_sub_trailing_None (s : string) :
  forall b, tidy_go b s = true ->
            re.special_run_to_dollar s = None ->
            re.special_run_to_dollar (re.sub_trailing s) = None.
Proof.
  induction s as [|c s IH]; intros b Hs; [discriminate|].
  pose proof (tidy_tail b c s Hs) as Htail.
  pose proof (tidy_no_newline b c s Hs) as Hnl.
  cbn [re.special_run_to_dollar re.sub_trailing].
  destruct (re.at_dollar (String c s)) eqn:Hd; [discriminate|].
  destruct (re.special c) eqn:Hc.
  - intros Hrun. rewrite Hrun. cbn [re.special_run_to_dollar].
    assert (re.at_dollar (String c (re.sub_trailing s)) = false) as ->.
    { simpl. destruct (re.sub_trailing s); [exact Hnl | reflexivity]. }
    rewrite Hc. apply (IH false Htail Hrun).
  - intros _. cbn [re.special_run_to_dollar].
    assert (re.at_dollar (String c (re.sub_trailing s)) = false) as ->.
    { simpl. destruct (re.sub_trailing s); [exact Hnl | reflexivity]. }
    rewrite Hc. reflexivity.
Qed.

Lemma sub_trailing_idem (s : string) :
  forall b, tidy_go b s = true ->
            re.sub_trailing (re.sub_trailing s) = re.sub_trailing s.
Proof.
  induction s as [|c s IH]; intros b Hs; [reflexivity|].
  pose proof (tidy_tail b c s Hs) as Htail.
  cbn [re.sub_trailing]. destruct (re.special c) eqn:Hc.
  - destruct (re.special_run_to_dollar s) as [rest|] eqn:Hrun.
    + rewrite (run_rest_tidy s rest false Htail Hrun). reflexivity.
    + cbn [re.sub_trailing]. rewrite Hc.
      rewrite (run_sub_trailing_None s false Htail Hrun).
      rewrite (IH false Htail). reflexivity.
  - cbn [re.sub_trailing]. rewrite Hc, (IH false Htail). reflexivity.
Qed.

(** A cleaned name that has no blank at either end is cleaned to itself:
    the only way a second pass changes it is by stripping a blank the
    punctuation trimming uncovered. *)
Lemma clean_name_idem_when_stripped (raw : string) :
  let cleaned := _clean_name raw in
  strip cleaned = cleaned -> _clean_name cleaned = cleaned.
Proof.
  intros cleaned Hstrip. subst cleaned. unfold _clean_name in *.
  destruct raw as [|c0 raw]; [reflexivity|]. cbn [truthy negb] in *. cbv zeta in *.
  set (t0 := re.sub_spaces (strip (String c0 raw))) in *.
  set (u := re.sub_leading t0) in *.
  assert (Ht0 : tidy_go false t0 = true) by apply tidy_sub_spaces.
  assert (Hu : tidy_go false u = true) by (apply (tidy_sub_leading t0 false), Ht0).
  unfold re.sub_edge_punct in *. fold u in Hstrip |- *.
  set (cleaned := title (re.sub_trailing u)) in *.
  assert (Htidy : tidy_go false cleaned = true).
  { unfold cleaned, title. rewrite tidy_title_go. apply tidy_sub_trailing, Hu. }
  assert (Hhead : head_kept cleaned = true).
  { unfold cleaned, title. rewrite head_kept_title_go.
    apply head_kept_sub_trailing, head_kept_sub_leading. }
  destruct (truthy cleaned) eqn:Hne; [|destruct cleaned; [reflexivity|discriminate]].
  cbn [negb]. rewrite Hstrip.
  unfold re.sub_spaces. rewrite (sub_spaces_tidy cleaned false Htidy).
  rewrite (sub_leading_head_kept cleaned Hhead).
  unfold cleaned at 1, title. rewrite sub_trailing_title_go.
  rewrite (sub_trailing_idem u false Hu).
  fold (title (re.sub_trailing u)). fold cleaned.
  unfold cleaned, title. apply title_go_idem.
Qed.

End Idempotence.

(** ** The analyzer's first loop is [normalize], name by name *)

Section Analyzer.
Import pystr Spec NameProcessor.

Lemma clean_and_validate_normalize (names : list string) :
  forall cleaned invalid,
    clean_and_validate names cleaned invalid
    = (cleaned ++ omap normalize names,
       invalid ++ filter (fun raw => normalize raw = None) names).
Proof.
  induction names as [|raw rest IH]; intros cleaned invalid.
  - simpl. rewrite !app_nil_r. reflexivity.
  - assert (Hn : normalize raw
                 = if _validate_name (_clean_name raw)
                   then Some (_clean_name raw) else None) by reflexivity.
    simpl. rewrite filter_cons, Hn.
    destruct (_validate_name (_clean_name raw)); rewrite IH; simpl;
      rewrite <- ?app_assoc; reflexivity.
Qed.

(** An accepted name without a blank at either end is normalised to
    itself. *)
Lemma normalize_idem_when_stripped (raw cleaned : string) :
  normalize raw = Some cleaned ->
  strip cleaned = cleaned ->
  normalize cleaned = Some cleaned.
Proof.
  unfold normalize.
  destruct (_validate_name (_clean_name raw)) eqn:Hv; [|discriminate].
  intros [= <-] Hstrip.
  rewrite (clean_name_idem_when_stripped raw Hstrip), Hv. reflexivity.
Qed.

End Analyzer.

(** * The analysis, the parser, the export and the pages *)

(** ** The analyzer: counts, groups and their resolution *)

Section Counting.
Import pystr Spec NameProcessor.

Lemma occurrences_app (n : string) (l1 l2 : list string) :
  occurrences n (l1 ++ l2) = occurrences n l1 + occurrences n l2.
Proof. apply count_occ_app. Qed.

Lemma occurrences_In (n : string) (l : list string) :
  n ∈ l <-> 0 < occurrences n l.
Proof. rewrite list_elem_of_In. apply count_occ_In. Qed.

Lemma item_count_up (n m : string) (counts : list (string * nat)) :
  item n (count_up m counts)
  = if decide (n = m) then Some (S (default 0 (item m counts))) else item n counts.
Proof.
  induction counts as [|[k v] counts IH]; simpl.
  - repeat case_decide; congruence.
  - destruct (decide (k = m)) as [Hkm|Hkm]; simpl; [|rewrite IH];
      repeat (case_decide; simpl); subst; congruence.
Qed.

Lemma keys_count_up (m : string) (counts : list (string * nat)) :
  (count_up m counts).*1 = if bool_decide (m ∈ counts.*1) then counts.*1
                           else counts.*1 ++ [m].
Proof.
  induction counts as [|[k v] counts IH].
  - reflexivity.
  - cbn [count_up]. destruct (decide (k = m)) as [->|Hkm]; cbn [fmap list_fmap fst].
    + rewrite bool_decide_eq_true_2 by left. reflexivity.
    + fold (@fmap list _ _ _ fst (count_up m counts)).
      fold (@fmap list _ _ _ fst counts). rewrite IH.
      case_bool_decide as Hin.
      * rewrite bool_decide_eq_true_2 by (right; exact Hin). reflexivity.
      * rewrite bool_decide_eq_false_2; [reflexivity|].
        intros [?|?]%elem_of_cons; congruence.
Qed.

Lemma item_None {V} (n : string) (d : list (string * V)) :
  item n d = None <-> n ∉ d.*1.
Proof.
  induction d as [|[k v] d IH]; simpl.
  - split; [intros _ H; inversion H | reflexivity].
  - case_decide as Hk.
    + subst. split; [discriminate | intros H; exfalso; apply H; left].
    + rewrite IH, not_elem_of_cons.
      split; [intros H; split; [congruence | exact H] | intros [_ H]; exact H].
Qed.

Lemma has_key_item {V} (n : string) (d : list (string * V)) :
  has_key n d = bool_decide (is_Some (item n d)).
Proof.
  unfold has_key. apply bool_decide_ext.
  destruct (item n d) eqn:E.
  - split; [eauto|]. intros _.
    destruct (decide (n ∈ d.*1)) as [|Hn]; [done|].
    apply item_None in Hn. congruence.
  - apply item_None in E. split; [done | intros [? [=]]].
Qed.

(** What [Counter] holds, key by key, whatever it started from. *)
Lemma counter_fold (names : list string) :
  forall counts,
    NoDup counts.*1 ->
    let out := foldl (fun counts name => count_up name counts) counts names in
    NoDup out.*1
    /\ (forall n, default 0 (item n out) = default 0 (item n counts) + occurrences n names)
    /\ (forall n, n ∈ out.*1 <-> n ∈ counts.*1 \/ n ∈ names)
    /\ total_count out = total_count counts + length names.
Proof.
  induction names as [|m names IH]; intros counts Hnd; cbv zeta.
  - simpl. repeat split; auto with lia.
    + intros [?|H]; [done | inversion H].
  - simpl.
    assert (Hnd' : NoDup (count_up m counts).*1).
    { rewrite keys_count_up. case_bool_decide as Hin; [exact Hnd|].
      apply NoDup_app. repeat split; [exact Hnd | | apply NoDup_singleton].
      intros x Hx ->%list_elem_of_singleton. done. }
    destruct (IH (count_up m counts) Hnd') as (H1 & H2 & H3 & H4).
    repeat split.
    + exact H1.
    + intros n. rewrite H2, item_count_up. unfold occurrences. simpl.
      destruct (String.eq_dec m n) as [->|Hne].
      * rewrite decide_True by reflexivity. simpl. lia.
      * rewrite decide_False by congruence. reflexivity.
    + intros Hn. apply H3 in Hn. rewrite keys_count_up in Hn.
      rewrite elem_of_cons. case_bool_decide; [tauto|].
      destruct Hn as [Hn|Hn]; [|tauto].
      apply elem_of_app in Hn as [Hn| ->%list_elem_of_singleton]; tauto.
    + intros Hn. apply H3. rewrite keys_count_up.
      rewrite elem_of_cons in Hn. case_bool_decide as Hin.
      * destruct Hn as [Hn|[->|Hn]]; auto.
      * rewrite elem_of_app, list_elem_of_singleton.
        destruct Hn as [Hn|[->|Hn]]; auto.
    + rewrite H4. clear. induction counts as [|[k v] counts IHc]; simpl; [lia|].
      case_decide; simpl in *; lia.
Qed.

Lemma Counter_spec (names : list string) :
  NoDup (Counter names).*1
  /\ (forall n, item n (Counter names)
                = if decide (occurrences n names = 0) then None
                  else Some (occurrences n names))
  /\ total_count (Counter names) = length names.
Proof.
  destruct (counter_fold names [] (NoDup_nil_2)) as (H1 & H2 & H3 & H4).
  cbv zeta in *. fold (Counter names) in *.
  repeat split; [exact H1 | | exact H4].
  intros n. specialize (H2 n). simpl in H2.
  destruct (item n (Counter names)) as [c|] eqn:E; simpl in H2.
  - assert (Hin : n ∈ names).
    { destruct (H3 n) as [Hx _]. destruct Hx as [Hx|Hx]; [|inversion Hx|exact Hx].
      destruct (decide (n ∈ (Counter names).*1)) as [|Hn]; [done|].
      apply item_None in Hn. congruence. }
    apply occurrences_In in Hin. rewrite decide_False by lia. congruence.
  - rewrite decide_True by lia. reflexivity.
Qed.


Lemma set_indices_fresh (n : string) (ix : list nat) (g : DuplicateGroup)
    (groups : list (string * DuplicateGroup)) :
  n ∉ groups.*1 ->
  set_indices n ix (groups ++ [(n, g)])
  = groups ++ [(n, {| name := name g; count := count g; indices := ix |})].
Proof.
  induction groups as [|[k v] groups IH]; intros Hn; simpl.
  - rewrite decide_True by reflexivity. reflexivity.
  - apply not_elem_of_cons in Hn as [Hk Hn]. simpl in Hk.
    rewrite decide_False by congruence. rewrite (IH Hn). reflexivity.
Qed.

(** The second loop of [process_names] splits the counter in two. *)
Lemma separate_fold (cleaned : list string) (counts : list (string * nat)) :
  forall unique groups,
    NoDup (groups.*1 ++ counts.*1) ->
    foldl (separate cleaned) (unique, groups) counts
    = (unique ++ (filter (fun nc : string * nat => nc.2 = 1) counts).*1,
       groups ++ (group_of cleaned
                    <$> filter (fun nc : string * nat => nc.2 <> 1) counts)).
Proof.
  induction counts as [|[n c] counts IH]; intros unique groups Hnd.
  - simpl. rewrite !app_nil_r. reflexivity.
  - cbn [foldl separate]. rewrite !filter_cons. cbn [snd].
    apply NoDup_app in Hnd as (Hg & Hdisj & Hc).
    apply NoDup_cons in Hc as [Hn Hc]. simpl in Hn.
    destruct (decide (c = 1)) as [->|Hc1].
    + cbn [Nat.eqb]. rewrite IH.
      * rewrite decide_False by (intros H; apply H; reflexivity).
        cbn [fmap list_fmap fst]. rewrite <- app_assoc. reflexivity.
      * apply NoDup_app. repeat split; [exact Hg | | exact Hc].
        intros x Hx Hx'. apply (Hdisj x Hx). right. exact Hx'.
    + replace (c =? 1) with false by (symmetry; apply Nat.eqb_neq; exact Hc1).
      assert (Hfresh : n ∉ groups.*1) by (intros Hx; apply (Hdisj n Hx); left).
      assert (has_key n groups = false) as ->
        by (unfold has_key; apply bool_decide_eq_false_2, Hfresh).
      cbn [negb]. rewrite (set_indices_fresh n _ _ groups Hfresh). cbn [name count].
      rewrite IH.
      * rewrite decide_True by exact Hc1. cbn [fmap list_fmap].
        rewrite <- app_assoc. reflexivity.
      * rewrite fmap_app. cbn [fmap list_fmap fst]. rewrite <- app_assoc.
        apply NoDup_app. repeat split; [exact Hg | | ].
        -- intros x Hx Hx'. apply (Hdisj x Hx). exact Hx'.
        -- apply NoDup_cons. split; assumption.
Qed.

(** [process_names], equation by equation. *)
Lemma process_names_eq (self : NameProcessor) (names : list string) :
  let cleaned := omap normalize names in
  let counts := Counter cleaned in
  process_names self names
  = ({| unique_names := (filter (fun nc : string * nat => nc.2 = 1) counts).*1;
        duplicate_groups :=
          group_of cleaned <$> filter (fun nc : string * nat => nc.2 <> 1) counts;
        invalid_names := filter (fun raw => normalize raw = None) names;
        total_names := length cleaned;
        unique_count :=
          length (filter (fun nc : string * nat => nc.2 = 1) counts).*1;
        duplicate_count :=
          length (group_of cleaned
                    <$> filter (fun nc : string * nat => nc.2 <> 1) counts);
        invalid_count := length (filter (fun raw => normalize raw = None) names);
        all_cleaned_names := cleaned |},
     {| processed_names := [];
        duplicates :=
          group_of cleaned <$> filter (fun nc : string * nat => nc.2 <> 1) counts;
        name_counts := counts |}).
Proof.
  intros cleaned counts. unfold process_names.
  rewrite clean_and_validate_normalize. cbn [app]. fold cleaned. fold counts.
  rewrite separate_fold.
  - reflexivity.
  - simpl. apply (Counter_spec cleaned).
Qed.


Lemma item_elem_of {V} (k : string) (v : V) (d : list (string * V)) :
  NoDup d.*1 -> ((k, v) ∈ d <-> item k d = Some v).
Proof.
  induction d as [|[k' v'] d IH]; intros Hnd; simpl.
  - split; [intros H; inversion H | discriminate].
  - apply NoDup_cons in Hnd as [Hk Hnd]. rewrite elem_of_cons.
    case_decide as Hkk.
    + subst k'. split.
      * intros [[= ->]|Hin]; [reflexivity|].
        exfalso. apply Hk. apply list_elem_of_fmap. exists (k, v). done.
      * intros [= ->]. left. reflexivity.
    + rewrite <- (IH Hnd). split; [intros [[= ? ?]|?]; [congruence | done] | auto].
Qed.

Lemma indices_of_spec (n : string) (cleaned : list string) :
  forall start i,
    i ∈ indices_of n start cleaned
    <-> start <= i /\ cleaned !! (i - start) = Some n.
Proof.
  induction cleaned as [|m cleaned IH]; intros start i; simpl.
  - split; [intros H; inversion H | intros [_ [=]]].
  - case_decide as Hm.
    + subst m. rewrite elem_of_cons, IH. split.
      * intros [->|[Hle Hi]].
        -- split; [lia|]. rewrite Nat.sub_diag. reflexivity.
        -- split; [lia|]. replace (i - start) with (S (i - S start)) by lia.
           exact Hi.
      * intros [Hle Hi]. destruct (decide (i = start)) as [->|Hne]; [left; done|].
        right. split; [lia|].
        replace (i - start) with (S (i - S start)) in Hi by lia. exact Hi.
    + rewrite IH. split.
      * intros [Hle Hi]. split; [lia|].
        replace (i - start) with (S (i - S start)) by lia. exact Hi.
      * intros [Hle Hi]. destruct (decide (i = start)) as [->|Hne].
        -- rewrite Nat.sub_diag in Hi. simpl in Hi. congruence.
        -- split; [lia|].
           replace (i - start) with (S (i - S start)) in Hi by lia. exact Hi.
Qed.

Lemma indices_of_length (n : string) (cleaned : list string) :
  forall start, length (indices_of n start cleaned) = occurrences n cleaned.
Proof.
  induction cleaned as [|m cleaned IH]; intros start; [reflexivity|].
  unfold occurrences in *. simpl.
  destruct (String.eq_dec m n) as [->|Hne].
  - rewrite decide_True by reflexivity. simpl. rewrite IH. reflexivity.
  - rewrite decide_False by exact Hne. apply IH.
Qed.

Lemma Counter_elem_of (names : list string) (n : string) (c : nat) :
  (n, c) ∈ Counter names <-> c = occurrences n names /\ 0 < c.
Proof.
  destruct (Counter_spec names) as (Hnd & Hitem & _).
  rewrite (item_elem_of n c _ Hnd), Hitem.
  case_decide as Hz; split.
  - discriminate.
  - intros [-> Hpos]. lia.
  - intros [= <-]. split; [reflexivity | lia].
  - intros [-> _]. reflexivity.
Qed.

Lemma counted_split (counts : list (string * nat)) :
  length (filter (fun nc : string * nat => nc.2 = 1) counts).*1
  + foldr (fun g acc => count g.2 + acc) 0
      (group_of [] <$> filter (fun nc : string * nat => nc.2 <> 1) counts)
  = total_count counts.
Proof.
  induction counts as [|[n c] counts IH]; [reflexivity|].
  rewrite !filter_cons. cbn [snd]. unfold total_count in *. cbn [foldr snd].
  destruct (decide (c = 1)) as [->|Hc].
  - rewrite decide_False by (intros H; apply H; reflexivity).
    cbn [fmap list_fmap length]. simpl in IH |- *. lia.
  - rewrite decide_True by exact Hc. cbn [fmap list_fmap foldr group_of snd count].
    simpl in IH |- *. lia.
Qed.

Lemma group_counts_any (cleaned : list string) (counts : list (string * nat)) :
  foldr (fun g acc => count g.2 + acc) 0 (group_of cleaned <$> counts)
  = foldr (fun g acc => count g.2 + acc) 0 (group_of [] <$> counts).
Proof.
  induction counts as [|nc counts IH]; [reflexivity|].
  cbn [fmap list_fmap foldr]. fold (@fmap list _ _ _ (group_of cleaned) counts).
  fold (@fmap list _ _ _ (group_of []) counts). rewrite IH. reflexivity.
Qed.

End Counting.

Section Analysis.
Import pystr Spec NameProcessor.

(** X1. [process_names] accounts for every entry it is given exactly
    once: the entries whose cleaned form is valid are kept, cleaned and
    in order, as [all_cleaned_names]; the others are returned as they
    came as [invalid_names]; the two counts are the lengths of the two
    lists and add up to the number of entries. *)
Theorem process_names_accounts_for_every_entry
    (self : NameProcessor) (names : list string) :
  let p := (process_names self names).1 in
  all_cleaned_names p = omap normalize names
  /\ invalid_names p = filter (fun raw => normalize raw = None) names
  /\ total_names p = length (all_cleaned_names p)
  /\ invalid_count p = length (invalid_names p)
  /\ total_names p + invalid_count p = length names
  /\ Forall (fun cleaned => _validate_name cleaned = true) (all_cleaned_names p).
Proof.
  cbv zeta. pose proof (process_names_eq self names) as E. cbv zeta in E.
  rewrite E. cbn [fst all_cleaned_names invalid_names total_names invalid_count].
  repeat split.
  - clear E. induction names as [|raw names IH]; [reflexivity|].
    rewrite filter_cons. cbn [omap list_omap]. fold (omap normalize names).
    case_decide as Hn.
    + rewrite Hn. simpl in *. lia.
    + destruct (normalize raw); [|done]. simpl in *. lia.
  - clear E. apply Forall_forall. intros cleaned Hin.
    apply list_elem_of_omap in Hin as (raw & _ & Hn).
    unfold normalize in Hn.
    destruct (_validate_name (_clean_name raw)) eqn:Hv; [|discriminate].
    injection Hn as <-. exact Hv.
Qed.

(** X2. The unique names and the duplicate groups of [process_names]
    split the cleaned names: a name is unique when it occurs once and has
    a group when it occurs at least twice. The group carries the name,
    the number of its occurrences and the positions at which it stands in
    [all_cleaned_names], as many as the count. No name is listed twice. *)
Theorem duplicate_groups_are_the_repeated_names
    (self : NameProcessor) (names : list string) :
  let p := (process_names self names).1 in
  let cleaned := all_cleaned_names p in
  NoDup (unique_names p)
  /\ NoDup (duplicate_groups p).*1
  /\ (forall n, n ∈ unique_names p <-> occurrences n cleaned = 1)
  /\ (forall n g,
        (n, g) ∈ duplicate_groups p
        <-> 2 <= occurrences n cleaned
            /\ g = {| name := n; count := occurrences n cleaned;
                      indices := indices_of n 0 cleaned |})
  /\ (forall n i, i ∈ indices_of n 0 cleaned <-> cleaned !! i = Some n)
  /\ (forall n, length (indices_of n 0 cleaned) = occurrences n cleaned).
Proof.
  cbv zeta. pose proof (process_names_eq self names) as E. cbv zeta in E.
  rewrite E. cbn [fst all_cleaned_names unique_names duplicate_groups]. clear E.
  set (cleaned := omap normalize names).
  destruct (Counter_spec cleaned) as (Hnd & _ & _).
  assert (Hsub : forall P : string * nat -> Prop,
             forall (dec : forall x, Decision (P x)),
               NoDup (filter P (Counter cleaned)).*1).
  { intros P dec. eapply sublist_NoDup; [exact Hnd|].
    apply fmap_sublist, sublist_filter. }
  split; [apply Hsub|]. split.
  { rewrite <- list_fmap_compose.
    erewrite list_fmap_ext; [apply (Hsub (fun nc => nc.2 <> 1) _)|].
    intros _ [n c] _. reflexivity. }
  split; [|split; [|split]].
  - intros n. rewrite list_elem_of_fmap. split.
    + intros ([n' c] & -> & Hin). apply list_elem_of_filter in Hin as [Hc Hin].
      simpl in *. subst c. apply Counter_elem_of in Hin as [Hocc _]. auto.
    + intros Hocc. exists (n, 1). split; [reflexivity|].
      apply list_elem_of_filter. split; [reflexivity|].
      apply Counter_elem_of. split; [auto | lia].
  - intros n g. rewrite list_elem_of_fmap. split.
    + intros ([n' c] & Hg & Hin). apply list_elem_of_filter in Hin as [Hc Hin].
      simpl in Hc. apply Counter_elem_of in Hin as [-> Hpos].
      unfold group_of in Hg. simpl in Hg. injection Hg as -> ->.
      split; [lia | reflexivity].
    + intros [Hocc ->]. exists (n, occurrences n cleaned). split; [reflexivity|].
      apply list_elem_of_filter. split; [simpl; lia|].
      apply Counter_elem_of. split; [reflexivity | lia].
  - intros n i. rewrite indices_of_spec, Nat.sub_0_r. split; [tauto | auto with lia].
  - intros n. apply indices_of_length.
Qed.

(** X3. [get_duplicate_summary] after [process_names]: the entries in
    duplicate groups and the unique names add up to the valid entries;
    the summary counts and names the groups of the analysis; it reports
    no duplicates exactly when the cleaned names are pairwise distinct. *)
Theorem duplicate_summary_adds_up (self : NameProcessor) (names : list string) :
  let p := (process_names self names).1 in
  let summary := get_duplicate_summary (process_names self names).2 in
  total_duplicate_entries summary + unique_count p = total_names p
  /\ summary_duplicate_count summary = duplicate_count p
  /\ duplicate_names summary = (duplicate_groups p).*1
  /\ (has_duplicates summary = false <-> NoDup (all_cleaned_names p)).
Proof.
  cbv zeta. pose proof (process_names_eq self names) as E. cbv zeta in E.
  rewrite E. cbn [fst snd]. clear E.
  set (cleaned := omap normalize names).
  set (groups := group_of cleaned
                   <$> filter (fun nc : string * nat => nc.2 <> 1) (Counter cleaned)).
  cbn [total_names unique_count duplicate_count duplicate_groups all_cleaned_names].
  assert (Hsum : foldr (fun g acc => count g.2 + acc) 0 groups
                 + length (filter (fun nc : string * nat => nc.2 = 1)
                             (Counter cleaned)).*1
                 = length cleaned).
  { destruct (Counter_spec cleaned) as (_ & _ & <-).
    rewrite <- counted_split. unfold groups. rewrite group_counts_any. lia. }
  assert (Hnodup : groups = [] <-> NoDup cleaned).
  { split.
    - intros Hnil. apply NoDup_ListNoDup, (NoDup_count_occ String.eq_dec).
      intros n. destruct (le_lt_dec (count_occ String.eq_dec cleaned n) 1) as [|Hgt];
        [assumption|].
      assert (Hin : (n, occurrences n cleaned) ∈ Counter cleaned)
        by (apply Counter_elem_of; unfold occurrences; split; [reflexivity | lia]).
      assert (Hg : group_of cleaned (n, occurrences n cleaned) ∈ groups).
      { unfold groups. apply list_elem_of_fmap_2, list_elem_of_filter.
        split; [unfold occurrences; simpl; lia | exact Hin]. }
      rewrite Hnil in Hg. inversion Hg.
    - intros Hnd. apply NoDup_ListNoDup in Hnd.
      destruct groups as [|[n g] rest] eqn:Hgroups; [reflexivity|]. exfalso.
      assert (Hin : (n, g) ∈ groups) by (rewrite Hgroups; left).
      unfold groups in Hin. apply list_elem_of_fmap in Hin as ([n' c] & Hg & Hin).
      apply list_elem_of_filter in Hin as [Hc Hin]. simpl in Hc.
      apply Counter_elem_of in Hin as [-> Hpos].
      pose proof (proj1 (NoDup_count_occ String.eq_dec cleaned) Hnd n') as Hle.
      unfold occurrences in *. lia. }
  unfold get_duplicate_summary. cbn [duplicates].
  destruct groups as [|g rest] eqn:Hgroups.
  - cbn [total_duplicate_entries summary_duplicate_count duplicate_names
           has_duplicates].
    split; [exact Hsum|]. split; [reflexivity|]. split; [reflexivity|].
    split; [intros _; apply Hnodup; reflexivity | reflexivity].
  - cbn [total_duplicate_entries summary_duplicate_count duplicate_names
           has_duplicates].
    split; [exact Hsum|]. split; [reflexivity|]. split; [reflexivity|].
    split; [discriminate | intros Hnd; apply Hnodup in Hnd; discriminate].
Qed.

End Analysis.

Section Resolution.
Import pystr Spec NameProcessor.

Lemma occurrences_replicate (x d : string) (c : nat) :
  occurrences x (replicate c d) = if decide (x = d) then c else 0.
Proof.
  unfold occurrences. induction c as [|c IH]; simpl; [case_decide; reflexivity|].
  destruct (String.eq_dec d x) as [->|Hne].
  - rewrite decide_True in * by reflexivity. lia.
  - rewrite decide_False in * by congruence. exact IH.
Qed.

Lemma occurrences_single (x d : string) :
  occurrences x [d] = if decide (x = d) then 1 else 0.
Proof. apply (occurrences_replicate x d 1). Qed.

Lemma occurrences_cons (x n : string) (l : list string) :
  occurrences x (n :: l) = (if decide (x = n) then 1 else 0) + occurrences x l.
Proof. rewrite <- occurrences_single. apply (occurrences_app x [n] l). Qed.

Lemma resolve_loop_occurrences (self : NameProcessor) (choices : list (string * string)) :
  NoDup choices.*1 ->
  forall final_names x,
    occurrences x (resolve_loop self choices final_names)
    = occurrences x final_names + contribution self choices x.
Proof.
  induction choices as [|[d choice] choices IH]; intros Hnd final_names x.
  - unfold contribution. simpl. lia.
  - apply NoDup_cons in Hnd as [Hd Hnd]. cbn [resolve_loop]. rewrite (IH Hnd).
    unfold contribution. cbn [item]. rewrite has_key_item.
    destruct (decide (d = x)) as [->|Hne].
    + assert (item x choices = None) as -> by (apply item_None, Hd).
      destruct (item x (duplicates self)) as [g|] eqn:Hg.
      * rewrite bool_decide_eq_true_2 by eauto.
        repeat case_decide; rewrite ?occurrences_app, ?occurrences_single,
          ?occurrences_replicate, ?decide_True by reflexivity; lia.
      * rewrite bool_decide_eq_false_2 by (intros [? [=]]). lia.
    + assert (Hadd : forall added,
                 (forall y, y ∈ added -> y = d) ->
                 occurrences x (final_names ++ added) = occurrences x final_names).
      { intros added Hall. rewrite occurrences_app.
        assert (occurrences x added = 0); [|lia].
        destruct (Nat.eq_dec (occurrences x added) 0) as [|Hpos]; [assumption|].
        assert (Hin : x ∈ added) by (apply occurrences_In; lia).
        apply Hall in Hin. congruence. }
      case_bool_decide; [|reflexivity].
      repeat case_decide; try reflexivity.
      * rewrite Hadd; [reflexivity|]. intros y ->%list_elem_of_singleton. reflexivity.
      * destruct (item d (duplicates self)); [|reflexivity].
        rewrite Hadd; [reflexivity|]. intros y [-> _]%elem_of_replicate. reflexivity.
Qed.

Lemma unique_occurrences (counts : list (string * nat)) (x : string) :
  NoDup counts.*1 ->
  occurrences x (filter (fun nc : string * nat => nc.2 = 1) counts).*1
  = if decide (item x counts = Some 1) then 1 else 0.
Proof.
  induction counts as [|[n c] counts IH]; intros Hnd; [reflexivity|].
  apply NoDup_cons in Hnd as [Hn Hnd]. specialize (IH Hnd).
  assert (Hhead : occurrences x (filter (fun nc : string * nat => nc.2 = 1)
                                   ((n, c) :: counts)).*1
                  = (if decide (c = 1) then if decide (x = n) then 1 else 0 else 0)
                    + occurrences x (filter (fun nc : string * nat => nc.2 = 1)
                                       counts).*1).
  { rewrite filter_cons. cbn [snd]. destruct (decide (c = 1)); [|reflexivity].
    rewrite fmap_cons. cbn [fst]. apply occurrences_cons. }
  rewrite Hhead, IH. cbn [item]. clear Hhead IH.
  destruct (decide (n = x)) as [->|Hne].
  - assert (Hnone : item x counts = None) by (apply item_None, Hn).
    rewrite Hnone. rewrite (decide_False (P := None = Some 1)) by discriminate.
    rewrite (decide_True (P := x = x)) by reflexivity.
    destruct (decide (c = 1)) as [->|Hc].
    + rewrite decide_True by reflexivity. reflexivity.
    + rewrite decide_False by congruence. reflexivity.
  - rewrite (decide_False (P := x = n)) by congruence.
    destruct (decide (c = 1)); reflexivity.
Qed.

(** How often a name occurs in the resolved list. *)
Lemma resolve_duplicates_occurrences
    (self : NameProcessor) (names : list string) (choices : list (string * string))
    (x : string) :
  NoDup choices.*1 ->
  let cleaned := all_cleaned_names (process_names self names).1 in
  let k := occurrences x cleaned in
  occurrences x (resolve_duplicates (process_names self names).2 choices)
  = if decide (k = 1) then 1
    else if decide (k = 0) then 0
    else match item x choices with
         | Some choice =>
             if decide (choice = "keep_one") then 1
             else if decide (choice = "keep_all") then k else 0
         | None => 0
         end.
Proof.
  intros Hnd. cbv zeta. pose proof (process_names_eq self names) as E.
  cbv zeta in E. rewrite E. cbn [fst snd all_cleaned_names]. clear E.
  set (cleaned := omap normalize names).
  unfold resolve_duplicates. cbn [name_counts app].
  rewrite (resolve_loop_occurrences _ choices Hnd).
  destruct (Counter_spec cleaned) as (Hkeys & Hitem & _).
  rewrite (unique_occurrences _ x Hkeys), Hitem.
  unfold contribution. cbn [duplicates].
  assert (Hgroup : item x (group_of cleaned
                            <$> filter (fun nc : string * nat => nc.2 <> 1)
                                  (Counter cleaned))
                   = if decide (2 <= occurrences x cleaned)
                     then Some (group_of cleaned (x, occurrences x cleaned)).2
                     else None).
  { case_decide as Hk.
    - apply item_elem_of.
      + rewrite <- list_fmap_compose.
        erewrite list_fmap_ext.
        * eapply sublist_NoDup; [exact Hkeys|].
          apply fmap_sublist, (sublist_filter (fun nc : string * nat => nc.2 <> 1)).
        * intros _ [n c] _. reflexivity.
      + apply (list_elem_of_fmap_2 (group_of cleaned) _ (x, occurrences x cleaned)).
        apply list_elem_of_filter. split; [simpl; lia|].
        apply Counter_elem_of. split; [reflexivity | lia].
    - apply item_None. intros Hin.
      apply list_elem_of_fmap in Hin as ([n g] & Hx & Hin). simpl in Hx. subst n.
      apply list_elem_of_fmap in Hin as ([n c] & Hg & Hin).
      apply list_elem_of_filter in Hin as [Hc Hin]. simpl in Hc.
      apply Counter_elem_of in Hin as [-> Hpos].
      unfold group_of in Hg. simpl in Hg. injection Hg as -> _. lia. }
  rewrite Hgroup. clear Hgroup.
  destruct (item x choices) as [choice|];
    repeat (case_decide; simplify_eq; try lia); cbn [group_of snd count];
    repeat (case_decide; simplify_eq; try lia); try reflexivity; try lia.
  all: congruence.
Qed.

(** X4. With 'keep_all' chosen for every repeated name,
    [resolve_duplicates] returns the cleaned names, each as often as it
    occurred (in another order: the unrepeated names come first). *)
Theorem keep_all_keeps_every_occurrence
    (self : NameProcessor) (names : list string) (choices : list (string * string)) :
  NoDup choices.*1 ->
  let cleaned := all_cleaned_names (process_names self names).1 in
  (forall n, 2 <= occurrences n cleaned -> item n choices = Some "keep_all") ->
  resolve_duplicates (process_names self names).2 choices ≡ₚ cleaned.
Proof.
  intros Hnd cleaned Hall.
  apply (Permutation_count_occ String.eq_dec). intros x.
  pose proof (resolve_duplicates_occurrences self names choices x Hnd) as H.
  cbv zeta in H. fold cleaned in H. unfold occurrences in *. rewrite H.
  repeat case_decide; try lia.
  rewrite Hall by lia. reflexivity.
Qed.

(** X5. With 'keep_one' chosen for every repeated name,
    [resolve_duplicates] returns each cleaned name exactly once. *)
Theorem keep_one_leaves_each_name_once
    (self : NameProcessor) (names : list string) (choices : list (string * string)) :
  NoDup choices.*1 ->
  let cleaned := all_cleaned_names (process_names self names).1 in
  (forall n, 2 <= occurrences n cleaned -> item n choices = Some "keep_one") ->
  NoDup (resolve_duplicates (process_names self names).2 choices)
  /\ forall x, x ∈ resolve_duplicates (process_names self names).2 choices
               <-> x ∈ cleaned.
Proof.
  intros Hnd cleaned Hall.
  assert (Hocc : forall x,
             occurrences x (resolve_duplicates (process_names self names).2 choices)
             = if decide (occurrences x cleaned = 0) then 0 else 1).
  { intros x.
    pose proof (resolve_duplicates_occurrences self names choices x Hnd) as H.
    cbv zeta in H. fold cleaned in H. rewrite H.
    repeat case_decide; try lia.
    rewrite Hall by lia. reflexivity. }
  split.
  - apply NoDup_ListNoDup, (NoDup_count_occ String.eq_dec). intros x.
    specialize (Hocc x). unfold occurrences in Hocc. rewrite Hocc.
    case_decide; lia.
  - intros x. rewrite !occurrences_In, Hocc. case_decide; lia.
Qed.

(** X6. Whatever the choices, [resolve_duplicates] keeps a name that
    occurred once exactly once, drops a repeated name for which no choice
    was made, and returns no name that was not among the cleaned names. *)
Theorem unresolved_duplicates_are_dropped
    (self : NameProcessor) (names : list string) (choices : list (string * string))
    (x : string) :
  NoDup choices.*1 ->
  let cleaned := all_cleaned_names (process_names self names).1 in
  let resolved := resolve_duplicates (process_names self names).2 choices in
  (occurrences x cleaned = 1 -> occurrences x resolved = 1)
  /\ (item x choices = None -> 2 <= occurrences x cleaned -> x ∉ resolved)
  /\ (x ∉ cleaned -> x ∉ resolved).
Proof.
  intros Hnd cleaned resolved.
  pose proof (resolve_duplicates_occurrences self names choices x Hnd) as H.
  cbv zeta in H. fold cleaned resolved in H.
  repeat split.
  - intros H1. rewrite H, decide_True by exact H1. reflexivity.
  - intros Hnone Hk Hin. apply occurrences_In in Hin. rewrite H, Hnone in Hin.
    repeat case_decide; lia.
  - intros Hout Hin. apply occurrences_In in Hin.
    assert (occurrences x cleaned = 0).
    { destruct (Nat.eq_dec (occurrences x cleaned) 0) as [|Hpos]; [assumption|].
      exfalso. apply Hout, occurrences_In. lia. }
    rewrite H in Hin. repeat case_decide; lia.
Qed.

End Resolution.

(** ** More of the generator *)

Section Batches.
Import pystr HashGenerator Spec.
Context `{cfg : Config} `{ent : Entropy}.

Lemma remember_keeps (g : HashGenerator) (name other digest : string) :
  hash_cache g !! other = Some digest ->
  hash_cache (remember g name) !! other = Some digest.
Proof.
  intros Hc. unfold remember. destruct (hash_cache g !! name) eqn:Hn; [exact Hc|].
  cbn [hash_cache]. rewrite lookup_insert_ne; [exact Hc | congruence].
Qed.

Lemma remember_caches (g : HashGenerator) (name : string) :
  hash_cache (remember g name) !! name = Some (hash_of g name).
Proof.
  unfold remember, hash_of. destruct (hash_cache g !! name) eqn:Hn.
  - rewrite Hn. reflexivity.
  - cbn [hash_cache]. rewrite lookup_insert_eq. reflexivity.
Qed.

Lemma batch_loop_spec (names : list string) :
  forall (hashes : gmap string string) (r : Run),
    let out := batch_loop names hashes r in
    (forall n, out.1 !! n = if decide (n ∈ names) then Some (hash_of (self r) n)
                            else hashes !! n)
    /\ uuid_calls out.2 = uuid_calls r
    /\ (forall n, hash_of (self out.2) n = hash_of (self r) n)
    /\ (forall n digest, hash_cache (self r) !! n = Some digest ->
                         hash_cache (self out.2) !! n = Some digest)
    /\ (forall n, n ∈ names ->
                  hash_cache (self out.2) !! n = Some (hash_of (self r) n)).
Proof.
  induction names as [|name rest IH]; intros hashes r; cbv zeta.
  - cbn [batch_loop]. unfold ret. cbn [fst snd]. repeat split; auto.
    intros n H. inversion H.
  - cbn [batch_loop]. unfold bind. rewrite generate_hash_run.
    specialize (IH (<[name := hash_of (self r) name]> hashes)
                   {| self := remember (self r) name; uuid_calls := uuid_calls r |}).
    cbv zeta in IH. cbn [self uuid_calls] in IH.
    destruct IH as (H1 & H2 & H3 & H4 & H5).
    repeat split.
    + intros n. rewrite H1. destruct (decide (n ∈ rest)) as [Hin|Hout].
      * rewrite decide_True by (right; exact Hin). rewrite hash_of_remember. reflexivity.
      * destruct (decide (n = name)) as [->|Hne].
        -- rewrite decide_True by left. rewrite lookup_insert_eq. reflexivity.
        -- rewrite decide_False by (intros [?|?]%elem_of_cons; done).
           rewrite lookup_insert_ne by congruence. reflexivity.
    + exact H2.
    + intros n. rewrite H3. apply hash_of_remember.
    + intros n digest Hc. apply H4, remember_keeps, Hc.
    + intros n [->|Hin]%elem_of_cons.
      * apply H4, remember_caches.
      * rewrite (H5 n Hin). rewrite hash_of_remember. reflexivity.
Qed.

(** X7. The dict of [generate_hashes_batch] has exactly the given
    names as keys, each mapped to what [generate_hash] would have
    answered before the batch; afterwards the generator answers the same
    for these names without changing any more, and no UUID was drawn. *)
Theorem generate_hashes_batch_covers_the_names (names : list string) (r : Run) :
  let out := generate_hashes_batch names r in
  dom out.1 = list_to_set names
  /\ (forall n, n ∈ names -> out.1 !! n = Some (generate_hash n r).1)
  /\ (forall n, n ∈ names -> generate_hash n out.2 = ((generate_hash n r).1, out.2))
  /\ uuid_calls out.2 = uuid_calls r.
Proof.
  cbv zeta. unfold generate_hashes_batch.
  destruct (batch_loop_spec names ∅ r) as (H1 & H2 & H3 & _ & H5).
  cbv zeta in *. repeat split.
  - apply set_eq. intros n. rewrite elem_of_dom, elem_of_list_to_set, H1.
    case_decide as Hin; [split; eauto|].
    rewrite lookup_empty. split; [intros [? [=]] | done].
  - intros n Hin. rewrite H1, decide_True by exact Hin.
    rewrite generate_hash_run. reflexivity.
  - intros n Hin. rewrite !generate_hash_run. cbn [fst].
    rewrite H3. f_equal.
    rewrite (remember_cached _ _ _ (H5 n Hin)).
    destruct (batch_loop names ∅ r) as [hashes [g k]]. reflexivity.
  - exact H2.
Qed.

(** X8. [create_name_id_mapping] treats every [id_type] other than
    'sequential' and 'uuid' as 'hash'. *)
Theorem unknown_strategy_is_the_hash_strategy
    (names : list string) (id_type : string) (r : Run) :
  id_type <> "sequential" ->
  id_type <> "uuid" ->
  create_name_id_mapping names id_type r = create_name_id_mapping names "hash" r.
Proof.
  intros Hseq Huuid. unfold create_name_id_mapping.
  generalize (∅ : gset string). generalize (@nil Mapping). revert r.
  induction names as [|name rest IH]; intros r mappings existing; [reflexivity|].
  rewrite !mapping_loop_cons. cbv zeta.
  assert (Hassign : forall n, assign id_type name n existing r
                              = assign "hash" name n existing r).
  { intros n. unfold assign. rewrite (decide_True (P := "hash" = "hash")) by reflexivity.
    repeat case_decide; done. }
  rewrite Hassign. apply IH.
Qed.

End Batches.

Section Widths.
Import pystr HashGenerator Spec hashlib.

Lemma hex_length (bs : list Z) : len (hex bs) = 2 * length bs.
Proof. induction bs as [|b bs IH]; [reflexivity|]. unfold len in *. simpl. rewrite IH. lia. Qed.

Lemma le_bytes_length (k : nat) (x : Z) : length (le_bytes k x) = k.
Proof. unfold le_bytes. rewrite length_fmap, length_seq. reflexivity. Qed.

Lemma be_bytes_length (k : nat) (x : Z) : length (be_bytes k x) = k.
Proof. unfold be_bytes. rewrite length_reverse. apply le_bytes_length. Qed.

Lemma md5_digest_length (msg : list Z) : length (md5_digest msg) = 16.
Proof.
  unfold md5_digest. destruct (foldl md5_block _ _) as [[[a b] c] d].
  rewrite !length_app, !le_bytes_length. reflexivity.
Qed.

Lemma sha1_digest_length (msg : list Z) : length (sha1_digest msg) = 20.
Proof.
  unfold sha1_digest. destruct (foldl sha1_block _ _) as [[[[a b] c] d] e].
  rewrite !length_app, !be_bytes_length. reflexivity.
Qed.

Lemma sha256_step_length (w st : list Z) (i : nat) :
  length (sha256_step w st i) = length st.
Proof.
  unfold sha256_step.
  destruct st as [|a [|b [|c [|d [|e [|f [|g [|h [|x st]]]]]]]]]; reflexivity.
Qed.

Lemma sha256_block_length (st block : list Z) :
  length (sha256_block st block) = length st.
Proof.
  unfold sha256_block. rewrite length_zip_with.
  generalize (sha256_schedule 48 (words of_be block)). intros w.
  assert (H : forall l s, length (foldl (sha256_step w) s l) = length s).
  { induction l as [|i l IH]; intros s; cbn [foldl]; [reflexivity|].
    rewrite IH. apply sha256_step_length. }
  rewrite H. lia.
Qed.

Lemma sha256_digest_length (msg : list Z) : length (sha256_digest msg) = 32.
Proof.
  unfold sha256_digest.
  assert (H : forall bl st, length (foldl sha256_block st bl) = length st).
  { induction bl as [|b bl IH]; intros st; cbn [foldl]; [reflexivity|].
    rewrite IH. apply sha256_block_length. }
  specialize (H (blocks (pad (be_bytes 8) msg)) sha256_H0).
  assert (Hbind : forall st : list Z, length (st ≫= be_bytes 4) = 4 * length st).
  { induction st as [|a st IH]; [reflexivity|].
    rewrite bind_cons, length_app, be_bytes_length, IH. cbn [length]. lia. }
  rewrite Hbind, H. reflexivity.
Qed.

Lemma hexdigest_width (algorithm : string) (data : list Z) :
  len (hexdigest algorithm data) = digest_width algorithm.
Proof.
  unfold hexdigest, digest_width, md5, sha1, sha256.
  repeat case_decide; subst; try discriminate;
    rewrite hex_length, ?md5_digest_length, ?sha1_digest_length,
      ?sha256_digest_length; reflexivity.
Qed.

(** X9. On a generator whose cache is sound, a hash identifier is a
    string of lower-case hexadecimal digits whose length is fixed by the
    algorithm: 64 for sha256, 40 for sha1, and 32 for md5 and for any
    other algorithm name. *)
Theorem hash_width_follows_algorithm `{cfg : Config}
    (g : HashGenerator) (name : string) (k : nat) :
  cache_sound g ->
  len (generate_hash name {| self := g; uuid_calls := k |}).1
  = digest_width (algorithm g)
  /\ lower_hex (generate_hash name {| self := g; uuid_calls := k |}).1.
Proof.
  intros Hg. rewrite generate_hash_run. cbn [fst self].
  rewrite (hash_of_sound g name Hg). unfold compute_hash.
  split; [apply hexdigest_width | apply hexdigest_lower].
Qed.

(** X10. [set_salt] leaves no stale digest behind: afterwards the
    generator keeps its algorithm, carries the new salt, and answers for
    every name what a fresh generator with that algorithm and salt
    answers. *)
Theorem set_salt_rehashes_every_name `{cfg : Config}
    (g : HashGenerator) (new_salt name : string) (k : nat) :
  let r' := (set_salt new_salt {| self := g; uuid_calls := k |}).2 in
  cache_sound (self r')
  /\ algorithm (self r') = algorithm g
  /\ salt (self r') = new_salt
  /\ (generate_hash name r').1
     = (generate_hash name {| self := __init__ (algorithm g) new_salt;
                              uuid_calls := k |}).1.
Proof.
  cbv zeta. split; [apply cache_sound_set_salt|].
  split; [reflexivity|]. split; [reflexivity|].
  rewrite !generate_hash_run. cbn [fst]. unfold hash_of.
  cbn [set_salt clear_cache bind get_self put_self snd self hash_cache __init__].
  rewrite !lookup_empty. cbn [default from_option].
  apply compute_hash_canonical; reflexivity.
Qed.

End Widths.

(** ** [verify_hash_uniqueness] *)

Section Verification.
Import pystr HashGenerator Spec.

Lemma names_with_snoc (h : string) (done : list Mapping) (p : Mapping) :
  names_with h (done ++ [p])
  = names_with h done ++ (if decide (ID p = h) then [Name p] else []).
Proof.
  unfold names_with. rewrite filter_app, fmap_app. f_equal.
  rewrite filter_cons, filter_nil. case_decide; reflexivity.
Qed.

Lemma gathered_step (done : list Mapping) (p : Mapping)
    (st : gmap string (list string) * list string) :
  gathered done st -> gathered (done ++ [p]) (verify_step st p).
Proof.
  destruct st as [hc dups]. intros (Hhc & Hnd & Hdups). unfold verify_step.
  cbn [fst snd] in *.
  pose proof (Hhc (ID p)) as Hp.
  assert (Hother : forall h, h <> ID p ->
                             names_with h (done ++ [p]) = names_with h done).
  { intros h Hne. rewrite names_with_snoc, decide_False by congruence.
    apply app_nil_r. }
  assert (Hself : names_with (ID p) (done ++ [p])
                  = names_with (ID p) done ++ [Name p]).
  { rewrite names_with_snoc, decide_True by reflexivity. reflexivity. }
  destruct (decide (names_with (ID p) done = [])) as [Hempty|Hfull].
  - rewrite Hp. unfold gathered. cbn [fst snd]. repeat split.
    + intros h. destruct (decide (h = ID p)) as [->|Hne].
      * rewrite lookup_insert_eq, Hself, Hempty. reflexivity.
      * rewrite lookup_insert_ne by congruence. rewrite (Hother h Hne). apply Hhc.
    + exact Hnd.
    + intros Hin. destruct (decide (h = ID p)) as [->|Hne].
      * apply Hdups in Hin. rewrite Hempty in Hin. simpl in Hin. lia.
      * rewrite (Hother h Hne). apply Hdups, Hin.
    + intros Hlen. destruct (decide (h = ID p)) as [->|Hne].
      * rewrite Hself, Hempty in Hlen. simpl in Hlen. lia.
      * rewrite (Hother h Hne) in Hlen. apply Hdups, Hlen.
  - rewrite Hp.
    assert (Hhc' : forall h,
               <[ID p := names_with (ID p) done ++ [Name p]]> hc !! h
               = if decide (names_with h (done ++ [p]) = []) then None
                 else Some (names_with h (done ++ [p]))).
    { intros h. destruct (decide (h = ID p)) as [->|Hne].
      - rewrite lookup_insert_eq, Hself.
        rewrite decide_False by (intros H; apply app_eq_nil in H as [_ [=]]).
        reflexivity.
      - rewrite lookup_insert_ne by congruence. rewrite (Hother h Hne). apply Hhc. }
    assert (Hlen : 2 <= length (names_with (ID p) (done ++ [p]))).
    { rewrite Hself, length_app. simpl.
      destruct (names_with (ID p) done); [done | simpl; lia]. }
    case_bool_decide as Hnew; unfold gathered; cbn [fst snd]; repeat split;
      try exact Hhc'.
    + apply NoDup_app. repeat split; [exact Hnd | | apply NoDup_singleton].
      intros x Hx ->%list_elem_of_singleton. done.
    + intros [Hin| ->%list_elem_of_singleton]%elem_of_app; [|exact Hlen].
      destruct (decide (h = ID p)) as [->|Hne]; [exact Hlen|].
      rewrite (Hother h Hne). apply Hdups, Hin.
    + intros Hh. apply elem_of_app. destruct (decide (h = ID p)) as [->|Hne].
      * right. apply list_elem_of_singleton. reflexivity.
      * left. rewrite (Hother h Hne) in Hh. apply Hdups, Hh.
    + exact Hnd.
    + intros Hin. destruct (decide (h = ID p)) as [->|Hne]; [exact Hlen|].
      rewrite (Hother h Hne). apply Hdups, Hin.
    + intros Hh. destruct (decide (h = ID p)) as [->|Hne].
      * destruct (decide (ID p ∈ dups)); [assumption | done].
      * rewrite (Hother h Hne) in Hh. apply Hdups, Hh.
Qed.

Lemma gathered_fold (pairs : list Mapping) :
  forall done st,
    gathered done st -> gathered (done ++ pairs) (foldl verify_step st pairs).
Proof.
  induction pairs as [|p pairs IH]; intros done st Hst.
  - rewrite app_nil_r. exact Hst.
  - cbn [foldl]. replace (done ++ p :: pairs) with ((done ++ [p]) ++ pairs)
      by (rewrite <- app_assoc; reflexivity).
    apply IH, gathered_step, Hst.
Qed.

Lemma names_with_length (h : string) (pairs : list Mapping) :
  length (names_with h pairs) = count_occ String.eq_dec (ids pairs) h.
Proof.
  unfold names_with, ids. induction pairs as [|p pairs IH]; [reflexivity|].
  rewrite filter_cons. cbn [fmap list_fmap count_occ].
  destruct (String.eq_dec (ID p) h) as [->|Hne].
  - rewrite decide_True by reflexivity. cbn [fmap list_fmap length].
    f_equal. exact IH.
  - rewrite decide_False by exact Hne. exact IH.
Qed.

Lemma names_with_nil (h : string) (pairs : list Mapping) :
  names_with h pairs = [] <-> h ∉ ids pairs.
Proof.
  rewrite <- length_zero_iff_nil, names_with_length, list_elem_of_In.
  symmetry. apply count_occ_not_In.
Qed.

Lemma gathered_sizes (pairs : list Mapping)
    (hash_counts : gmap string (list string)) (shared : list string) :
  gathered pairs (hash_counts, shared) ->
  size (filter (fun item : string * list string => length item.2 = 1) hash_counts)
  + length shared
  = size (list_to_set (ids pairs) : gset string).
Proof.
  intros (Hhc & Hnd & Hdups). cbn [fst snd] in *.
  set (P := fun item : string * list string => length item.2 = 1).
  assert (Hdom : dom hash_counts = (list_to_set (ids pairs) : gset string)).
  { apply set_eq. intros h. rewrite elem_of_dom, elem_of_list_to_set, Hhc.
    case_decide as Hnil.
    - split; [intros [? [=]]|]. intros Hin. apply names_with_nil in Hnil. done.
    - split; [|intros _; eexists; reflexivity]. intros _.
      destruct (decide (h ∈ ids pairs)) as [|Hout]; [assumption|].
      apply names_with_nil in Hout. done. }
  assert (Hshared : dom (filter (fun item => ~ P item) hash_counts)
                    = (list_to_set shared : gset string)).
  { apply set_eq. intros h. rewrite elem_of_dom, elem_of_list_to_set, Hdups.
    unfold is_Some. setoid_rewrite map_lookup_filter_Some. rewrite Hhc.
    unfold P. cbn [snd]. case_decide as Hnil.
    - rewrite Hnil. cbn [length]. split; [intros (? & [=] & _) | lia].
    - split.
      + intros (names & [= <-] & Hlen).
        destruct (names_with h pairs) as [|n [|n' ns]]; cbn [length] in *;
          [done | done | lia].
      + intros Hlen. eexists. split; [reflexivity|]. lia. }
  rewrite <- Hdom, size_dom.
  rewrite <- (map_filter_union_complement P hash_counts) at 2.
  rewrite map_size_disj_union by apply map_disjoint_filter_complement.
  f_equal. rewrite <- (size_list_to_set (C := gset string) shared Hnd), <- Hshared.
  rewrite size_dom. reflexivity.
Qed.

(** X11. [verify_hash_uniqueness], on records that carry both keys,
    reports uniqueness exactly when the identifiers are pairwise
    distinct. Every shared identifier is listed once, with all the names
    that carry it in order of appearance, also those met after the entry
    was made. The identifiers held by one record and the shared ones
    together are the distinct identifiers. *)
Theorem verify_hash_uniqueness_reports_shared_ids (pairs : list Mapping) :
  let report := verify_hash_uniqueness pairs in
  (is_unique report = true <-> NoDup (ids pairs))
  /\ total_hashes report = length pairs
  /\ duplicate_hashes report = length (duplicates report)
  /\ unique_hashes report + duplicate_hashes report
     = size (list_to_set (ids pairs) : gset string)
  /\ NoDup (duplicates report).*1
  /\ (forall h names,
        (h, names) ∈ duplicates report
        <-> 2 <= length names /\ names = names_with h pairs).
Proof.
  cbv zeta. unfold verify_hash_uniqueness.
  assert (Hstart : gathered [] (∅, [])).
  { unfold gathered. cbn [fst snd]. repeat split.
    - constructor.
    - intros H. inversion H.
    - unfold names_with. simpl. lia. }
  pose proof (gathered_fold pairs [] (∅, []) Hstart) as Hend.
  rewrite app_nil_l in Hend.
  destruct (foldl verify_step (∅, []) pairs) as [hc dups].
  pose proof (gathered_sizes pairs hc dups Hend) as Hsizes.
  destruct Hend as (Hhc & Hnd & Hdups). cbn [fst snd] in *.
  cbn [is_unique total_hashes unique_hashes duplicate_hashes duplicates].
  split; [|split; [reflexivity|split; [|split; [exact Hsizes|split]]]].
  - rewrite bool_decide_eq_true, NoDup_ListNoDup, (NoDup_count_occ String.eq_dec).
    split.
    + intros Hnone h. rewrite <- names_with_length.
      destruct (le_lt_dec (length (names_with h pairs)) 1) as [|Hgt]; [assumption|].
      assert (Hin : h ∈ dups) by (apply Hdups; lia).
      destruct dups; [inversion Hin | discriminate].
    + intros Hle. destruct dups as [|h dups]; [reflexivity|]. exfalso.
      assert (Hin : h ∈ h :: dups) by left.
      apply Hdups in Hin. rewrite names_with_length in Hin.
      specialize (Hle h). lia.
  - rewrite length_fmap. reflexivity.
  - rewrite <- list_fmap_compose. erewrite list_fmap_ext; [rewrite list_fmap_id; exact Hnd|].
    intros _ h _. reflexivity.
  - intros h names. rewrite list_elem_of_fmap. split.
    + intros (h' & [= -> ->] & Hin). apply Hdups in Hin.
      rewrite Hhc. case_decide as Hnil; [rewrite Hnil in Hin; simpl in Hin; lia|].
      split; [exact Hin | reflexivity].
    + intros [Hlen ->]. exists h. split; [|apply Hdups, Hlen].
      rewrite Hhc. rewrite decide_False; [reflexivity|].
      intros Hnil. rewrite Hnil in Hlen. simpl in Hlen. lia.
Qed.

End Verification.

(** ** [str.strip] and [str.split] *)

Section Strings.
Import pystr Spec FileParser.

Lemma rstrip_idem (s : string) : rstrip (rstrip s) = rstrip s.
Proof.
  induction s as [|c s IH]; [reflexivity|]. cbn [rstrip].
  destruct (rstrip s) as [|d r] eqn:E.
  - destruct (isspace c) eqn:Ec; [reflexivity|]. cbn [rstrip]. rewrite Ec. reflexivity.
  - cbn [rstrip]. cbn [rstrip] in IH. rewrite IH. destruct r; reflexivity.
Qed.

Lemma lstrip_head (s : string) :
  match lstrip s with
  | EmptyString => True
  | String c _ => isspace c = false
  end.
Proof.
  induction s as [|c s IH]; [exact I|]. cbn [lstrip].
  destruct (isspace c) eqn:Ec; [exact IH | exact Ec].
Qed.

Lemma lstrip_kept (c : ascii) (s : string) :
  isspace c = false -> lstrip (String c s) = String c s.
Proof. intros Ec. cbn [lstrip]. rewrite Ec. reflexivity. Qed.

Lemma rstrip_kept (c : ascii) (s : string) :
  isspace c = false -> exists r, rstrip (String c s) = String c r.
Proof.
  intros Ec. cbn [rstrip]. destruct (rstrip s).
  - rewrite Ec. eexists. reflexivity.
  - eexists. reflexivity.
Qed.

Lemma strip_head (s : string) :
  match strip s with
  | EmptyString => True
  | String c _ => isspace c = false
  end.
Proof.
  unfold strip. pose proof (lstrip_head s) as H.
  destruct (lstrip s) as [|c t]; [exact I|].
  destruct (rstrip_kept c t H) as [r ->]. exact H.
Qed.

Lemma strip_idem (s : string) : strip (strip s) = strip s.
Proof.
  pose proof (strip_head s) as H. unfold strip at 1.
  destruct (strip s) as [|c t] eqn:E; [reflexivity|].
  rewrite (lstrip_kept c t H), <- E. unfold strip. apply rstrip_idem.
Qed.

Lemma strip_kept (c : ascii) (s : string) :
  isspace c = false -> strip (String c s) <> "".
Proof.
  intros Ec. unfold strip. rewrite (lstrip_kept c s Ec).
  destruct (rstrip_kept c s Ec) as [r ->]. discriminate.
Qed.

Lemma rstrip_spaces (s : string) : forallb isspace s = true -> rstrip s = "".
Proof.
  induction s as [|c s IH]; [reflexivity|]. cbn [forallb rstrip].
  intros [Ec Hs]%andb_true_iff. rewrite (IH Hs), Ec. reflexivity.
Qed.

Lemma split_nonempty (sep : ascii) (s : string) : split sep s <> [].
Proof.
  destruct s as [|c s]; [discriminate|]. cbn [split].
  destruct (Ascii.eqb c sep); [discriminate|].
  destruct (split sep s); discriminate.
Qed.

End Strings.

(** ** [utils/file_parser.py] *)

Section Parser.
Import pystr Spec FileParser.

Lemma append_nil (s : string) : "" +:+ s = s.
Proof. reflexivity. Qed.

Lemma append_cons (c : ascii) (s t : string) :
  String c s +:+ t = String c (s +:+ t).
Proof. reflexivity. Qed.

Lemma split_last_no_sep (sep : ascii) (s : string) :
  contains sep s = false -> split sep s = [s].
Proof.
  unfold contains. induction s as [|c s IH]; [reflexivity|].
  cbn [existsb split]. intros [Hc Hs]%orb_false_iff.
  rewrite Ascii.eqb_sym in Hc. rewrite Hc, (IH Hs). reflexivity.
Qed.

Lemma last_split_app (sep : ascii) (stem ext : string) :
  contains sep ext = false ->
  last (split sep (stem +:+ String sep ext)) = Some ext.
Proof.
  intros Hext. induction stem as [|c stem IH].
  - rewrite append_nil. cbn [split]. rewrite Ascii.eqb_refl.
    rewrite (split_last_no_sep sep ext Hext). reflexivity.
  - rewrite append_cons. cbn [split]. destruct (Ascii.eqb c sep).
    + rewrite last_cons, IH. reflexivity.
    + destruct (split sep (stem +:+ String sep ext)) as [|p ps] eqn:E.
      * discriminate.
      * destruct ps; [|exact IH]. cbn in IH. cbn.
        (* a single piece cannot end the split of a text with a separator *)
        exfalso. clear IH Hext.
        assert (H : forall t, 2 <= length (split sep (t +:+ String sep ext))).
        { clear. induction t as [|d t IHt].
          - rewrite append_nil. cbn [split]. rewrite Ascii.eqb_refl.
            pose proof (split_nonempty sep ext).
            destruct (split sep ext); [done | simpl; lia].
          - rewrite append_cons. cbn [split]. destruct (Ascii.eqb d sep).
            + simpl. lia.
            + destruct (split sep (t +:+ String sep ext)); simpl in *; lia. }
        specialize (H stem). rewrite E in H. simpl in H. lia.
Qed.

Lemma contains_lower_dot (s : string) :
  contains "." s = false -> contains "." (lower s) = false.
Proof.
  unfold contains, lower. induction s as [|c s IH]; [reflexivity|].
  cbn [existsb map]. intros [Hc Hs]%orb_false_iff. rewrite (IH Hs), orb_false_r.
  revert Hc. clear. destruct c as [[] [] [] [] [] [] [] []]; vm_compute; congruence.
Qed.

Lemma last_split_no_sep (sep : ascii) (s : string) :
  match last (split sep s) with
  | Some piece => contains sep piece = false
  | None => False
  end.
Proof.
  induction s as [|c s IH]; [reflexivity|]. cbn [split].
  destruct (Ascii.eqb c sep) eqn:Ec.
  - rewrite last_cons. destruct (last (split sep s)); [exact IH | destruct IH].
  - destruct (split sep s) as [|p ps] eqn:E; [destruct IH|].
    destruct ps as [|q ps].
    + cbn in *. unfold contains in *. cbn [existsb]. rewrite IH.
      rewrite Ascii.eqb_sym, Ec. reflexivity.
    + exact IH.
Qed.

(** X12. [_get_file_extension] returns a dot followed by the
    lower-cased text after the last dot of the file name; for a name
    without a dot that is the whole name. *)
Theorem file_extension_is_the_text_after_the_last_dot (stem ext : string) :
  contains "." ext = false ->
  _get_file_extension (stem +:+ "." +:+ ext) = "." +:+ lower ext
  /\ _get_file_extension ext = "." +:+ lower ext
  /\ contains "." (lower ext) = false.
Proof.
  intros Hext. unfold _get_file_extension. split; [|split].
  - change (stem +:+ "." +:+ ext) with (stem +:+ String "." ext).
    rewrite (last_split_app "." stem ext Hext). reflexivity.
  - rewrite (split_last_no_sep "." ext Hext). reflexivity.
  - apply contains_lower_dot, Hext.
Qed.

End Parser.

Section CleanNames.
Import pystr Spec FileParser.

Lemma sub_spaces_go_empty (t : string) :
  forall b, re.sub_spaces_go b t = "" -> forallb isspace t = true.
Proof.
  induction t as [|c t IH]; intros b; [reflexivity|]. cbn [re.sub_spaces_go forallb].
  destruct (isspace c); [|discriminate]. destruct b; [|discriminate].
  intros H. apply (IH true H).
Qed.

Lemma rstrip_sub_spaces (t : string) :
  forall b, rstrip t = t ->
            rstrip (re.sub_spaces_go b t) = re.sub_spaces_go b t.
Proof.
  induction t as [|c t IH]; intros b H; [reflexivity|].
  cbn [rstrip] in H. destruct (rstrip t) as [|d r] eqn:E.
  - destruct (isspace c) eqn:Ec; [discriminate|]. injection H as <-.
    cbn [re.sub_spaces_go]. rewrite Ec. cbn [rstrip]. rewrite Ec. reflexivity.
  - injection H as H.
    assert (Hfix : rstrip t = t) by (rewrite E; exact H).
    assert (Hfull : forall b', re.sub_spaces_go b' t <> "").
    { intros b' Hb. apply sub_spaces_go_empty, rstrip_spaces in Hb.
      rewrite E in Hb. discriminate. }
    cbn [re.sub_spaces_go]. destruct (isspace c) eqn:Ec.
    + destruct b; [apply IH, H|].
      cbn [rstrip]. rewrite (IH true H).
      destruct (re.sub_spaces_go true t) eqn:E2;
        [destruct (Hfull true E2) | reflexivity].
    + cbn [rstrip]. rewrite (IH false H).
      destruct (re.sub_spaces_go false t) eqn:E2;
        [destruct (Hfull false E2) | reflexivity].
Qed.

Lemma strip_fixed (t : string) :
  strip t = t ->
  lstrip t = t /\ rstrip t = t.
Proof.
  intros H. pose proof (strip_head t) as Hh. rewrite H in Hh.
  assert (Hl : lstrip t = t).
  { destruct t as [|c t]; [reflexivity | apply lstrip_kept, Hh]. }
  split; [exact Hl|]. unfold strip in H. rewrite Hl in H. exact H.
Qed.

Lemma strip_sub_spaces (t : string) :
  strip t = t -> strip (re.sub_spaces t) = re.sub_spaces t.
Proof.
  intros H. pose proof (strip_head t) as Hh. rewrite H in Hh.
  destruct (strip_fixed t H) as [_ Hr].
  unfold strip. replace (lstrip (re.sub_spaces t)) with (re.sub_spaces t).
  - apply rstrip_sub_spaces, Hr.
  - destruct t as [|c t]; [reflexivity|]. unfold re.sub_spaces.
    cbn [re.sub_spaces_go]. rewrite Hh. cbn [lstrip]. rewrite Hh. reflexivity.
Qed.

Lemma sub_spaces_truthy (t : string) :
  truthy (re.sub_spaces t) = truthy t.
Proof.
  destruct t as [|c t]; [reflexivity|]. unfold re.sub_spaces.
  cbn [re.sub_spaces_go]. destruct (isspace c); reflexivity.
Qed.

Lemma sub_spaces_class (t : string) :
  forall b, forallb digit_space_or_non_word (re.sub_spaces_go b t)
            = forallb digit_space_or_non_word t.
Proof.
  induction t as [|c t IH]; intros b; [reflexivity|].
  cbn [re.sub_spaces_go forallb]. destruct (isspace c) eqn:Ec.
  - assert (Hc : digit_space_or_non_word c = true).
    { unfold digit_space_or_non_word. rewrite Ec, orb_true_r. reflexivity. }
    rewrite Hc. destruct b; cbn [forallb]; rewrite IH; reflexivity.
  - cbn [forallb]. rewrite IH. reflexivity.
Qed.

Lemma sub_spaces_match_no_name (t : string) :
  match_no_name (re.sub_spaces t) = match_no_name t.
Proof.
  unfold match_no_name. rewrite sub_spaces_truthy. unfold re.sub_spaces.
  rewrite sub_spaces_class. reflexivity.
Qed.

Lemma sub_spaces_idem (t : string) :
  re.sub_spaces (re.sub_spaces t) = re.sub_spaces t.
Proof. apply (sub_spaces_tidy _ false), tidy_sub_spaces. Qed.

Lemma clean_names_app (l1 l2 : list string) :
  _clean_names (l1 ++ l2) = _clean_names l1 ++ _clean_names l2.
Proof.
  induction l1 as [|n l1 IH]; [reflexivity|]. cbn [app _clean_names].
  destruct (negb (truthy (strip n))); [exact IH|].
  destruct (match_no_name (strip n)); [exact IH|].
  rewrite IH. reflexivity.
Qed.

Lemma clean_names_kept (names : list string) :
  Forall (fun n => n <> "" /\ strip n = n /\ tidy_go false n = true
                   /\ match_no_name n = false)
         (_clean_names names).
Proof.
  induction names as [|n names IH]; [constructor|]. cbn [_clean_names].
  destruct (truthy (strip n)) eqn:Ht; cbn [negb]; [|exact IH].
  destruct (match_no_name (strip n)) eqn:Hm; [exact IH|].
  constructor; [|exact IH]. repeat split.
  - intros He. rewrite <- sub_spaces_truthy, He in Ht. discriminate.
  - apply strip_sub_spaces, strip_idem.
  - apply (tidy_sub_spaces _ false).
  - rewrite sub_spaces_match_no_name. exact Hm.
Qed.

Lemma clean_names_fixed (names : list string) :
  Forall (fun n => n <> "" /\ strip n = n /\ tidy_go false n = true
                   /\ match_no_name n = false) names ->
  _clean_names names = names.
Proof.
  induction 1 as [|n names (Hne & Hs & Ht & Hm) _ IH]; [reflexivity|].
  cbn [_clean_names]. rewrite Hs, Hm, IH. unfold re.sub_spaces.
  rewrite (sub_spaces_tidy n false Ht). destruct n; [done | reflexivity].
Qed.

(** X13. Every name [_clean_names] returns is non-empty, has no white
    space at either end, has single spaces as its only white space and
    is not made of digits, white space and non-word characters alone.
    Cleaning a cleaned list changes nothing, and no name is added. *)
Theorem clean_names_returns_tidy_names_and_is_idempotent (names : list string) :
  Forall (fun n => n <> "" /\ strip n = n /\ tidy_go false n = true
                   /\ match_no_name n = false)
         (_clean_names names)
  /\ _clean_names (_clean_names names) = _clean_names names
  /\ length (_clean_names names) <= length names.
Proof.
  split; [apply clean_names_kept|]. split; [apply clean_names_fixed, clean_names_kept|].
  induction names as [|n names IH]; [reflexivity|]. cbn [_clean_names length].
  destruct (negb (truthy (strip n))); [lia|].
  destruct (match_no_name (strip n)); [lia|]. cbn [length]. lia.
Qed.

Lemma class_letter (c : ascii) :
  digit_space_or_non_word c = negb (letter_or_underscore c).
Proof. destruct c as [[] [] [] [] [] [] [] []]; vm_compute; reflexivity. Qed.

Lemma forallb_class (s : string) :
  forallb digit_space_or_non_word s = negb (existsb letter_or_underscore s).
Proof.
  induction s as [|c s IH]; [reflexivity|]. cbn [forallb existsb].
  rewrite IH, class_letter, negb_orb. reflexivity.
Qed.

Lemma space_not_letter (c : ascii) :
  isspace c = true -> letter_or_underscore c = false.
Proof. destruct c as [[] [] [] [] [] [] [] []]; vm_compute; congruence. Qed.

Lemma lstrip_letters (s : string) :
  existsb letter_or_underscore (lstrip s) = existsb letter_or_underscore s.
Proof.
  induction s as [|c s IH]; [reflexivity|]. cbn [lstrip].
  destruct (isspace c) eqn:Ec; [|reflexivity].
  cbn [existsb]. rewrite (space_not_letter c Ec). exact IH.
Qed.

Lemma rstrip_letters (s : string) :
  existsb letter_or_underscore (rstrip s) = existsb letter_or_underscore s.
Proof.
  induction s as [|c s IH]; [reflexivity|]. cbn [rstrip existsb]. rewrite <- IH.
  destruct (rstrip s) as [|d r]; [|reflexivity].
  destruct (isspace c) eqn:Ec.
  - rewrite (space_not_letter c Ec). reflexivity.
  - reflexivity.
Qed.

Lemma strip_letters (s : string) :
  existsb letter_or_underscore (strip s) = existsb letter_or_underscore s.
Proof. unfold strip. rewrite rstrip_letters. apply lstrip_letters. Qed.

(** X14. On ASCII text, where [\W] and [str.strip] are the model's,
    [_clean_names] keeps exactly the names that hold a letter or an
    underscore, in order, each stripped and with every run of white
    space turned into one space. *)
Theorem clean_names_keeps_names_with_a_letter_or_underscore (names : list string) :
  Forall ascii_text names ->
  _clean_names names
  = (fun n => re.sub_spaces (strip n))
      <$> filter (fun n => existsb letter_or_underscore n = true) names.
Proof.
  intros _. induction names as [|n names IH]; [reflexivity|].
  cbn [_clean_names]. rewrite filter_cons. unfold match_no_name.
  rewrite forallb_class, strip_letters.
  destruct (existsb letter_or_underscore n) eqn:He.
  - rewrite decide_True by reflexivity.
    assert (Ht : truthy (strip n) = true).
    { rewrite <- strip_letters in He. destruct (strip n); [discriminate | reflexivity]. }
    rewrite Ht. cbn [negb andb fmap list_fmap]. rewrite IH. reflexivity.
  - rewrite decide_False by discriminate.
    destruct (truthy (strip n)); cbn [negb andb]; exact IH.
Qed.

End CleanNames.

Section ParseTxt.
Import pystr Spec FileParser.

Lemma stripped_pieces_app (l1 l2 : list string) :
  stripped_pieces (l1 ++ l2) = stripped_pieces l1 ++ stripped_pieces l2.
Proof.
  induction l1 as [|x l1 IH]; [reflexivity|]. cbn [app stripped_pieces].
  destruct (truthy (strip x)); rewrite IH; reflexivity.
Qed.

Lemma extend_fold (parts : list string) :
  forall names,
    foldl (fun names part => names ++ stripped_pieces (split "010" part))
          names parts
    = names ++ stripped_pieces (parts ≫= split "010").
Proof.
  induction parts as [|part parts IH]; intros names; cbn [foldl].
  - cbn. rewrite app_nil_r. reflexivity.
  - rewrite IH, bind_cons, stripped_pieces_app, app_assoc. reflexivity.
Qed.

Lemma no_comma_left (content : string) :
  contains "," (commas_as_line_breaks content) = false.
Proof.
  unfold contains, commas_as_line_breaks.
  induction content as [|c content IH]; [reflexivity|].
  cbn [map existsb]. rewrite IH, orb_false_r.
  destruct (Ascii.eqb c ",") eqn:Ec; [reflexivity|].
  rewrite Ascii.eqb_sym. exact Ec.
Qed.

Lemma no_comma_unchanged (content : string) :
  contains "," content = false -> commas_as_line_breaks content = content.
Proof.
  unfold contains, commas_as_line_breaks.
  induction content as [|c content IH]; [reflexivity|].
  cbn [map existsb]. intros [Hc Hs]%orb_false_iff.
  rewrite Ascii.eqb_sym in Hc. rewrite Hc, (IH Hs). reflexivity.
Qed.

Lemma split_commas_as_line_breaks (content : string) :
  split "010" (commas_as_line_breaks content)
  = split "," content ≫= split "010".
Proof.
  unfold commas_as_line_breaks.
  induction content as [|c content IH]; [reflexivity|].
  cbn [map split]. destruct (Ascii.eqb c ",") eqn:Ecomma.
  - rewrite Ascii.eqb_refl, bind_cons, IH. reflexivity.
  - pose proof (split_nonempty "," content) as Hne.
    destruct (split "," content) as [|p ps] eqn:Ep; [done|].
    rewrite bind_cons in IH. rewrite bind_cons. cbn [split].
    destruct (Ascii.eqb c "010") eqn:Enl.
    + rewrite IH. reflexivity.
    + rewrite IH. pose proof (split_nonempty "010" p) as Hq.
      destruct (split "010" p) as [|q qs]; [done | reflexivity].
Qed.

(** X15. [_parse_txt] reads a comma as it reads a line break: the
    content with every comma replaced by a line break gives the same
    names and the same message. *)
Theorem parse_txt_reads_commas_as_line_breaks (content : string) :
  _parse_txt (commas_as_line_breaks content) = _parse_txt content.
Proof.
  unfold _parse_txt. rewrite no_comma_left.
  destruct (contains "," content) eqn:Hc.
  - rewrite extend_fold, app_nil_l, split_commas_as_line_breaks. reflexivity.
  - rewrite (no_comma_unchanged content Hc). reflexivity.
Qed.

Lemma strip_spaces (s : string) : forallb isspace s = true -> strip s = "".
Proof.
  intros H. unfold strip. apply rstrip_spaces.
  induction s as [|c s IH]; [reflexivity|]. cbn [forallb] in H.
  apply andb_true_iff in H as [Hc Hs]. cbn [lstrip]. rewrite Hc. apply IH, Hs.
Qed.

Lemma split_spaces (sep : ascii) (s : string) :
  forallb isspace s = true ->
  Forall (fun p => forallb isspace p = true) (split sep s).
Proof.
  induction s as [|c s IH]; cbn [forallb split].
  - intros _. repeat constructor.
  - intros [Hc Hs]%andb_true_iff. specialize (IH Hs).
    destruct (Ascii.eqb c sep).
    + constructor; [reflexivity | exact IH].
    + destruct (split sep s) as [|p ps]; [repeat constructor; cbn; rewrite Hc; reflexivity|].
      inversion IH; subst. constructor; [|assumption].
      cbn [forallb]. rewrite Hc. assumption.
Qed.

Lemma stripped_pieces_spaces (pieces : list string) :
  Forall (fun p => forallb isspace p = true) pieces -> stripped_pieces pieces = [].
Proof.
  induction 1 as [|p pieces Hp _ IH]; [reflexivity|].
  cbn [stripped_pieces]. rewrite (strip_spaces p Hp). exact IH.
Qed.

Lemma spaces_no_comma (s : string) :
  forallb isspace s = true -> contains "," s = false.
Proof.
  unfold contains. induction s as [|c s IH]; [reflexivity|]. cbn [forallb existsb].
  intros [Hc Hs]%andb_true_iff. rewrite (IH Hs), orb_false_r.
  revert Hc. clear. destruct c as [[] [] [] [] [] [] [] []]; vm_compute; congruence.
Qed.

Lemma capped_names (kind : string) (names : list string) :
  (capped kind names).1 = take MAX_NAMES_COUNT names.
Proof.
  unfold capped. destruct (Nat.ltb_spec MAX_NAMES_COUNT (length names)) as [Hlt|Hge].
  - reflexivity.
  - cbn [fst]. rewrite take_ge by exact Hge. reflexivity.
Qed.

(** X16. [_parse_txt] returns at most [MAX_NAMES_COUNT] names, each
    as [_clean_names] leaves it; on a content of white space alone it
    returns no name, with the message of a successful extraction of 0
    names. *)
Theorem parse_txt_returns_bounded_clean_names (content : string) :
  length (_parse_txt content).1 <= MAX_NAMES_COUNT
  /\ Forall (fun n => n <> "" /\ strip n = n /\ tidy_go false n = true
                      /\ match_no_name n = false)
            (_parse_txt content).1
  /\ (forallb isspace content = true ->
      _parse_txt content
      = ([], "Successfully extracted 0 names from TXT file.")).
Proof.
  split; [|split].
  - unfold _parse_txt. rewrite capped_names, length_take. apply Nat.le_min_l.
  - unfold _parse_txt. rewrite capped_names. apply Forall_take.
    apply clean_names_kept.
  - intros Hblank. unfold _parse_txt.
    rewrite (spaces_no_comma content Hblank).
    rewrite (stripped_pieces_spaces _ (split_spaces "010" content Hblank)).
    cbn [_clean_names]. unfold capped. cbn [length].
    destruct (Nat.ltb_spec MAX_NAMES_COUNT 0) as [Hlt|_]; [lia | reflexivity].
Qed.

End ParseTxt.

Section Columns.
Import pystr Spec FileParser.

Lemma find_column_first (p : string) (columns : list string) (carried : option string) :
  find_column p columns carried
  = match first_labelled p columns with
    | Some col => Some col
    | None => carried
    end.
Proof.
  unfold first_labelled. induction columns as [|col columns IH]; [reflexivity|].
  cbn [find_column list_find]. case_decide as Hcol; [reflexivity|].
  rewrite IH. destruct (list_find (fun col => lower col = p) columns) as [[i c]|];
    reflexivity.
Qed.

Lemma first_labelled_Some (p : string) (columns : list string) (col : string) :
  first_labelled p columns = Some col -> col ∈ columns /\ lower col = p.
Proof.
  unfold first_labelled.
  destruct (list_find (fun col => lower col = p) columns) as [[i c]|] eqn:E;
    [|discriminate].
  intros [= <-]. apply list_find_Some in E as (Hi & Hcol & _).
  split; [|exact Hcol]. apply list_elem_of_lookup. exists i. exact Hi.
Qed.

Lemma first_labelled_None (p : string) (columns : list string) :
  first_labelled p columns = None <-> ~ Exists (fun col => lower col = p) columns.
Proof.
  unfold first_labelled. rewrite fmap_None, list_find_None, <- Forall_Exists_neg.
  reflexivity.
Qed.

Lemma first_labelled_truthy (p : string) (columns : list string) (col : string) :
  first_labelled p columns = Some col -> p <> "" -> truthy col = true.
Proof.
  intros [_ <-]%first_labelled_Some Hp. destruct col; [done | reflexivity].
Qed.

Lemma select_name_column_eq (columns : list string) :
  select_name_column columns
  = match first_labelled "name" columns with
    | Some col => Some col
    | None =>
        match first_labelled "subject" columns with
        | Some col => Some col
        | None => first_labelled "trial" columns
        end
    end.
Proof.
  unfold select_name_column. cbn [search_columns]. rewrite !find_column_first.
  destruct (first_labelled "name" columns) as [c1|] eqn:E1.
  { cbn [from_option]. rewrite (first_labelled_truthy _ _ _ E1); done. }
  cbn [from_option].
  destruct (first_labelled "subject" columns) as [c2|] eqn:E2.
  { cbn [from_option]. rewrite (first_labelled_truthy _ _ _ E2); done. }
  cbn [from_option].
  destruct (first_labelled "trial" columns) as [c3|] eqn:E3.
  { cbn [from_option]. rewrite (first_labelled_truthy _ _ _ E3); done. }
  reflexivity.
Qed.

(** X17. The column [_parse_xlsx] reads the names from is the first
    column whose lower-cased label is 'name'; when there is none, the
    first labelled 'subject'; when there is none either, the first
    labelled 'trial'. No column is found exactly when no label is one of
    the three, and a column found is one of the given ones. *)
Theorem name_column_follows_the_priority_order (columns : list string) :
  (Exists (fun col => lower col = "name") columns ->
   select_name_column columns = first_labelled "name" columns)
  /\ (~ Exists (fun col => lower col = "name") columns ->
      Exists (fun col => lower col = "subject") columns ->
      select_name_column columns = first_labelled "subject" columns)
  /\ (~ Exists (fun col => lower col = "name") columns ->
      ~ Exists (fun col => lower col = "subject") columns ->
      select_name_column columns = first_labelled "trial" columns)
  /\ (select_name_column columns = None
      <-> Forall (fun col => lower col ∉ ["name"; "subject"; "trial"]) columns)
  /\ (forall col, select_name_column columns = Some col ->
                  col ∈ columns /\ lower col ∈ ["name"; "subject"; "trial"]).
Proof.
  rewrite select_name_column_eq.
  pose proof (first_labelled_None "name" columns) as Hn.
  pose proof (first_labelled_None "subject" columns) as Hs.
  pose proof (first_labelled_None "trial" columns) as Ht.
  pose proof (first_labelled_Some "name" columns) as Sn.
  pose proof (first_labelled_Some "subject" columns) as Ss.
  pose proof (first_labelled_Some "trial" columns) as St.
  assert (Hnone :
    Forall (fun col => lower col ∉ ["name"; "subject"; "trial"]) columns
    <-> ~ Exists (fun col => lower col = "name") columns
        /\ ~ Exists (fun col => lower col = "subject") columns
        /\ ~ Exists (fun col => lower col = "trial") columns).
  { rewrite <- !Forall_Exists_neg, !Forall_forall. split.
    - intros H. repeat split; intros col Hin Hcol; apply (H col Hin);
        rewrite Hcol; repeat constructor.
    - intros (H1 & H2 & H3) col Hin Hmem.
      repeat (apply elem_of_cons in Hmem as [Hmem|Hmem]);
        [apply (H1 col Hin Hmem) | apply (H2 col Hin Hmem)
         | apply (H3 col Hin Hmem) | inversion Hmem]. }
  rewrite Hnone.
  destruct (first_labelled "name" columns) as [c1|].
  { destruct (Sn c1 eq_refl) as [Hin Hcol].
    split; [reflexivity|]. split; [intros Habs; exfalso; apply Hn in Habs; discriminate|].
    split; [intros Habs; exfalso; apply Hn in Habs; discriminate|]. split.
    - split; [discriminate|]. intros (Habs & _). apply Hn in Habs. discriminate.
    - intros col [= <-]. split; [exact Hin|]. rewrite Hcol. repeat constructor. }
  destruct (first_labelled "subject" columns) as [c2|].
  { destruct (Ss c2 eq_refl) as [Hin Hcol].
    split; [intros Habs; exfalso; revert Habs; apply Hn; reflexivity|].
    split; [reflexivity|].
    split; [intros _ Habs; exfalso; apply Hs in Habs; discriminate|]. split.
    - split; [discriminate|]. intros (_ & Habs & _). apply Hs in Habs. discriminate.
    - intros col [= <-]. split; [exact Hin|]. rewrite Hcol. repeat constructor. }
  split; [intros Habs; exfalso; revert Habs; apply Hn; reflexivity|].
  split; [intros _ Habs; exfalso; revert Habs; apply Hs; reflexivity|].
  split; [reflexivity|]. split.
  - rewrite Ht. split; [intros H; repeat split; tauto|tauto].
  - intros col Hcol. destruct (St col Hcol) as [Hin Hl]. split; [exact Hin|].
    rewrite Hl. repeat constructor.
Qed.

End Columns.

(** ** [validate_export_data] *)

Section ExportData.
Import pystr HashGenerator Spec ExportManager.

Lemma missing_in_nil (mapping : gmap string string) :
  missing_in mapping = []
  <-> is_Some (mapping !! "Name") /\ is_Some (mapping !! "ID").
Proof.
  unfold missing_in. rewrite !filter_cons, filter_nil. cbv beta.
  destruct (mapping !! "Name") as [name|], (mapping !! "ID") as [id|].
  - rewrite !decide_False by discriminate.
    split; [intros _; split; eexists; reflexivity | reflexivity].
  - rewrite decide_False by discriminate. rewrite decide_True by reflexivity.
    split; [discriminate | intros [_ H]; destruct (is_Some_None H)].
  - rewrite decide_True by reflexivity.
    split; [discriminate | intros [H _]; destruct (is_Some_None H)].
  - rewrite decide_True by reflexivity.
    split; [discriminate | intros [H _]; destruct (is_Some_None H)].
Qed.

Lemma missing_in_elem (mapping : gmap string string) (field : string) :
  field ∈ missing_in mapping
  <-> field ∈ ["Name"; "ID"] /\ mapping !! field = None.
Proof. unfold missing_in. rewrite list_elem_of_filter. tauto. Qed.

Lemma missing_fields_nil (mappings : list (gmap string string)) :
  mappings ≫= missing_in = []
  <-> Forall (fun m => is_Some (m !! "Name") /\ is_Some (m !! "ID")) mappings.
Proof.
  induction mappings as [|m mappings IH].
  - split; [constructor | reflexivity].
  - rewrite bind_cons, Forall_cons, <- IH, <- missing_in_nil. split.
    + intros H. apply app_eq_nil in H. exact H.
    + intros [-> ->]. reflexivity.
Qed.

Lemma blank_count_zero (field : string) (mappings : list (gmap string string)) :
  blank_count field mappings = 0
  <-> Forall (fun m => strip (default "" (m !! field)) <> "") mappings.
Proof.
  unfold blank_count. rewrite length_zero_iff_nil. induction mappings as [|m mappings IH].
  - split; [constructor | reflexivity].
  - rewrite filter_cons, Forall_cons, <- IH.
    destruct (strip (default "" (m !! field))) eqn:E; cbn [truthy].
    + rewrite decide_True by reflexivity. split; [discriminate | intros [[] _]; reflexivity].
    + rewrite decide_False by discriminate. split; [|tauto]. intros H; split; [discriminate | exact H].
Qed.

Lemma complete_iff (mappings : list (gmap string string)) :
  Forall complete mappings
  <-> mappings ≫= missing_in = []
      /\ blank_count "Name" mappings = 0 /\ blank_count "ID" mappings = 0.
Proof.
  rewrite missing_fields_nil, !blank_count_zero, !Forall_forall. split.
  - intros H. split; [|split]; intros m Hm;
      destruct (H m Hm) as (name & id & Hn & Hi & Hsn & Hsi); rewrite ?Hn, ?Hi.
    + split; eexists; reflexivity.
    + exact Hsn.
    + exact Hsi.
  - intros (Hpresent & Hnames & Hids) m Hm.
    destruct (Hpresent m Hm) as [[name Hn] [id Hi]].
    exists name, id. specialize (Hnames m Hm). specialize (Hids m Hm).
    rewrite Hn in Hnames. rewrite Hi in Hids. repeat split; assumption.
Qed.

Lemma validate_export_data_nonempty (mappings : list (gmap string string)) :
  mappings <> [] ->
  validate_export_data mappings
  = match mappings ≫= missing_in with
    | _ :: _ => missing_required_fields (list_to_set (mappings ≫= missing_in))
    | [] =>
        if (0 <? blank_count "Name" mappings) || (0 <? blank_count "ID" mappings)
        then empty_values (blank_count "Name" mappings) (blank_count "ID" mappings)
        else valid (length mappings)
    end.
Proof. destruct mappings; [done | reflexivity]. Qed.

(** X18. [validate_export_data] answers 'No data to export' exactly
    for the empty list. It accepts a non-empty list exactly when every
    record has a 'Name' and an 'ID' that are not blank, and then counts
    the records. The fields it reports as missing are those of 'Name'
    and 'ID' that some record lacks. It reports empty values only when
    no field is missing, with the numbers of blank names and of blank
    identifiers, one of them positive. *)
Theorem export_validation_accepts_complete_records
    (mappings : list (gmap string string)) :
  (validate_export_data mappings = no_data <-> mappings = [])
  /\ (forall n, validate_export_data mappings = valid n
                <-> mappings <> [] /\ Forall complete mappings
                    /\ n = length mappings)
  /\ (forall fields,
        validate_export_data mappings = missing_required_fields fields ->
        forall field,
          field ∈ fields
          <-> field ∈ ["Name"; "ID"]
              /\ Exists (fun m : gmap string string => m !! field = None) mappings)
  /\ (forall empty_names empty_ids,
        validate_export_data mappings = empty_values empty_names empty_ids ->
        Forall (fun m => is_Some (m !! "Name") /\ is_Some (m !! "ID")) mappings
        /\ empty_names = blank_count "Name" mappings
        /\ empty_ids = blank_count "ID" mappings
        /\ 0 < empty_names + empty_ids).
Proof.
  destruct (decide (mappings = [])) as [->|Hne].
  { split; [done|]. split; [|split; intros; discriminate].
    intros n. split; [discriminate | intros [[] _]; reflexivity]. }
  pose proof (complete_iff mappings) as Hc.
  rewrite (validate_export_data_nonempty mappings Hne).
  destruct (mappings ≫= missing_in) as [|f fs] eqn:Emiss.
  - destruct ((0 <? blank_count "Name" mappings) || (0 <? blank_count "ID" mappings))
      eqn:Eblank.
    + assert (Hpos : 0 < blank_count "Name" mappings + blank_count "ID" mappings).
      { apply orb_true_iff in Eblank as [H|H]; apply Nat.ltb_lt in H; lia. }
      split; [split; [discriminate | done]|].
      split; [intros n; split; [discriminate|]|].
      { intros (_ & Hall & _). apply Hc in Hall as (_ & Hn & Hi). lia. }
      split; [intros; discriminate|].
      intros a b [= <- <-]. split; [apply missing_fields_nil; exact Emiss|].
      split; [reflexivity|]. split; [reflexivity | exact Hpos].
    + apply orb_false_iff in Eblank as [Hn Hi].
      apply Nat.ltb_ge in Hn, Hi.
      split; [split; [discriminate | done]|].
      split; [|split; intros; discriminate].
      intros n. split.
      * intros [= <-]. split; [exact Hne|]. split; [|reflexivity].
        apply Hc. split; [reflexivity|]. lia.
      * intros (_ & _ & ->). reflexivity.
  - split; [split; [discriminate | done]|].
    split; [intros n; split; [discriminate|]|].
    { intros (_ & Hall & _). apply Hc in Hall as (Habs & _). discriminate. }
    split; [|intros; discriminate].
    intros fields Hfields field.
    assert (Heq : fields = list_to_set (mappings ≫= missing_in))
      by (rewrite Emiss; congruence).
    rewrite Heq, elem_of_list_to_set.
    rewrite list_elem_of_bind, Exists_exists. split.
    + intros (x & Hf & Hx). apply missing_in_elem in Hf as [Hreq Hnone].
      split; [exact Hreq|]. exists x. split; assumption.
    + intros (Hreq & x & Hx & Hnone). exists x.
      split; [apply missing_in_elem; split; assumption | exact Hx].
Qed.

End ExportData.

(** ** From the reviewed names to the download page *)

Section Pages.
Import pystr HashGenerator Spec app.
Context `{cfg : Config} `{ent : Entropy}.

Lemma final_names_spec (items : list string) :
  final_names items = filter (fun n => n <> "") (strip <$> items).
Proof.
  induction items as [|item items IH]; [reflexivity|].
  cbn [final_names fmap list_fmap]. rewrite filter_cons.
  destruct (strip item) eqn:E; cbn [truthy].
  - rewrite decide_False by (intros H; apply H; reflexivity). exact IH.
  - rewrite decide_True by discriminate. rewrite IH. reflexivity.
Qed.

Lemma final_names_kept (items : list string) :
  Forall (fun n => n <> "" /\ strip n = n) (final_names items).
Proof.
  induction items as [|item items IH]; [constructor|]. cbn [final_names].
  destruct (strip item) eqn:E; cbn [truthy]; [exact IH|].
  constructor; [|exact IH]. split; [discriminate|].
  rewrite <- E. apply strip_idem.
Qed.

Lemma final_names_fixed (names : list string) :
  Forall (fun n => n <> "" /\ strip n = n) names -> final_names names = names.
Proof.
  induction 1 as [|n names [Hne Hs] _ IH]; [reflexivity|].
  cbn [final_names]. rewrite Hs, IH. destruct n; [done | reflexivity].
Qed.

Lemma step_2_generate_ids_run (id_type : IdType) (chosen : string)
    (session : SessionState) (r : Run) :
  final_names (default [] (editable_names session)) <> [] ->
  step_2_generate_ids id_type chosen session r
  = let names := final_names (default [] (editable_names session)) in
    let r' := match id_type with
              | hash => (set_algorithm chosen r).2
              | _ => r
              end in
    let out := generate_loop id_type 0 names [] r' in
    ((success (length out.1),
      {| step := 3; names_list := names_list session;
         editable_names := editable_names session;
         name_id_mappings := out.1 |}), out.2).
Proof.
  intros Hne. unfold step_2_generate_ids.
  destruct (final_names (default [] (editable_names session))) as [|n names] eqn:E;
    [done|].
  cbv zeta. unfold bind, ret.
  destruct id_type; cbv beta iota;
    try destruct (set_algorithm chosen r) as [[] r1] eqn:Es; cbn [snd];
    destruct (generate_loop _ 0 (n :: names) [] _) as [ms r2]; reflexivity.
Qed.

(** X19. When some editable name is not blank, "Generate IDs"
    succeeds under every strategy: it reports one identifier per
    non-blank name, moves to step 3 and records the non-blank names,
    stripped and in order. These names are left as they are by another
    round of stripping and filtering, and the editable list and the
    uploaded names stay as they were. *)
Theorem generation_records_every_non_blank_name
    (id_type : IdType) (chosen : string) (session : SessionState) (r : Run) :
  let names := final_names (default [] (editable_names session)) in
  names <> [] ->
  let out := (step_2_generate_ids id_type chosen session r).1 in
  out.1 = success (length names)
  /\ step out.2 = 3
  /\ names_of (name_id_mappings out.2) = names
  /\ names = filter (fun n => n <> "") (strip <$> default [] (editable_names session))
  /\ final_names names = names
  /\ editable_names out.2 = editable_names session
  /\ names_list out.2 = names_list session.
Proof.
  intros names Hne out. subst out.
  rewrite (step_2_generate_ids_run id_type chosen session r Hne).
  cbv zeta. cbn [fst snd step name_id_mappings editable_names names_list].
  fold names.
  assert (Hnames : forall r', names_of (generate_loop id_type 0 names [] r').1 = names).
  { intros r'. rewrite generate_loop_names. reflexivity. }
  split; [|split; [reflexivity|split; [apply Hnames|split; [apply final_names_spec|]]]].
  - f_equal. match goal with |- length (generate_loop _ _ _ _ ?r').1 = _ =>
      rewrite <- (Hnames r') at 2 end.
    unfold names_of. rewrite length_fmap. reflexivity.
  - split; [|split; reflexivity].
    apply final_names_fixed, final_names_kept.
Qed.

Lemma size_list_to_set_le (l : list string) :
  size (list_to_set l : gset string) <= length l.
Proof.
  induction l as [|x l IH]; [rewrite list_to_set_nil, size_empty; reflexivity|].
  rewrite list_to_set_cons, size_union_alt, size_singleton. cbn [length].
  pose proof (subseteq_size (list_to_set l ∖ {[x]}) (list_to_set l : gset string)) as H.
  assert (Hsub : (list_to_set l ∖ {[x]} : gset string) ⊆ list_to_set l).
  { intros y Hy. apply elem_of_difference in Hy as [Hy _]. exact Hy. }
  specialize (H Hsub). lia.
Qed.

Lemma size_image_le (f : string -> string) (l : list string) :
  size (list_to_set (f <$> l) : gset string) <= size (list_to_set l : gset string).
Proof.
  assert (Heq : (list_to_set (f <$> l) : gset string)
                = list_to_set (f <$> remove_dups l)).
  { apply set_eq. intros y. rewrite !elem_of_list_to_set, !list_elem_of_fmap.
    split; intros (x & -> & Hx); exists x; (split; [reflexivity|]);
      apply elem_of_remove_dups; exact Hx. }
  rewrite Heq. etransitivity; [apply size_list_to_set_le|].
  rewrite length_fmap.
  assert (Hl : (list_to_set l : gset string) = list_to_set (remove_dups l)).
  { apply set_eq. intros y. rewrite !elem_of_list_to_set, elem_of_remove_dups.
    reflexivity. }
  rewrite Hl, size_list_to_set by apply NoDup_remove_dups. reflexivity.
Qed.

Lemma step_3_download_results_metrics (session : SessionState) :
  name_id_mappings session <> [] ->
  step_3_download_results session
  = metrics (length (name_id_mappings session))
            (size (list_to_set (names_of (name_id_mappings session)) : gset string))
            (size (list_to_set (ids (name_id_mappings session)) : gset string)).
Proof.
  unfold step_3_download_results.
  destruct (name_id_mappings session); [done | reflexivity].
Qed.

(** X20. After a successful generation the download page shows its
    three metrics, not the error: as many records as non-blank names,
    the number of distinct names, and a number of distinct identifiers
    between 1 and the number of records, which is the number of records
    under the sequential strategy and at most the number of distinct
    names under the hash strategy. *)
Theorem download_page_counts_the_generated_records
    (id_type : IdType) (chosen : string) (session : SessionState) (r : Run) :
  let names := final_names (default [] (editable_names session)) in
  names <> [] ->
  let out := (step_2_generate_ids id_type chosen session r).1 in
  exists unique_ids,
    step_3_download_results out.2
    = metrics (length names) (size (list_to_set names : gset string)) unique_ids
    /\ 1 <= unique_ids <= length names
    /\ (id_type = sequential -> unique_ids = length names)
    /\ (id_type = hash ->
        unique_ids <= size (list_to_set names : gset string)).
Proof.
  intros names Hne out. subst out.
  rewrite (step_2_generate_ids_run id_type chosen session r Hne).
  cbv zeta. cbn [fst snd]. fold names.
  set (r' := match id_type with hash => (set_algorithm chosen r).2 | _ => r end).
  pose proof (generate_loop_names id_type names 0 [] r') as Hnames.
  cbn [names_of fmap list_fmap app] in Hnames.
  destruct (generate_loop id_type 0 names [] r') as [ms r2] eqn:Eloop.
  cbn [fst] in *.
  assert (Hlen : length ms = length names).
  { rewrite <- Hnames. unfold names_of. rewrite length_fmap. reflexivity. }
  assert (Hms : ms <> []).
  { intros ->. destruct names; [done | discriminate]. }
  rewrite step_3_download_results_metrics by exact Hms.
  cbn [name_id_mappings]. rewrite Hnames, Hlen.
  exists (size (list_to_set (ids ms) : gset string)).
  split; [reflexivity|]. split; [split|split].
  - destruct ms as [|m ms']; [done|].
    assert (Hin : ID m ∈ (list_to_set (ids (m :: ms')) : gset string)).
    { rewrite elem_of_list_to_set. left. }
    destruct (size (list_to_set (ids (m :: ms')) : gset string)) eqn:Esize; [|lia].
    apply size_empty_iff in Esize. rewrite Esize in Hin.
    apply elem_of_empty in Hin. destruct Hin.
  - etransitivity; [apply size_list_to_set_le|]. unfold ids.
    rewrite length_fmap, Hlen. reflexivity.
  - intros ->. subst r'.
    destruct (generate_loop_sequential names 0 [] r) as [Hids _].
    rewrite Eloop in Hids. cbn [fst] in Hids.
    change (ids ms = sequential_id <$> seq (0 + 1) (length names)) in Hids.
    rewrite Hids, size_list_to_set by apply sequential_ids_NoDup.
    rewrite length_fmap, length_seq. reflexivity.
  - intros ->. subst r'.
    pose proof (generate_loop_hash names 0 (set_algorithm chosen r).2) as Hids.
    rewrite Eloop in Hids. cbn [fst] in Hids. rewrite Hids.
    apply size_image_le.
Qed.

End Pages.

Section Upload.
Import pystr HashGenerator Spec app.

Lemma letters_kept (s : string) :
  existsb isalpha s = true -> strip s <> "".
Proof.
  intros H. assert (Hl : existsb letter_or_underscore s = true).
  { induction s as [|c s IH]; [discriminate|]. cbn [existsb] in *.
    unfold letter_or_underscore at 1.
    destruct (isalpha c); [reflexivity|]. cbn [orb] in *.
    rewrite (IH H). apply orb_true_r. }
  rewrite <- strip_letters in Hl. destruct (strip s); [discriminate | discriminate].
Qed.

Lemma normalize_valid (raw cleaned : string) :
  normalize raw = Some cleaned -> NameProcessor._validate_name cleaned = true.
Proof.
  unfold normalize.
  destruct (NameProcessor._validate_name (NameProcessor._clean_name raw)) eqn:E;
    [|discriminate].
  intros [= <-]. exact E.
Qed.

Lemma omap_normalize_cons (raw : string) (names : list string) :
  omap normalize (raw :: names)
  = match normalize raw with
    | Some cleaned => cleaned :: omap normalize names
    | None => omap normalize names
    end.
Proof. reflexivity. Qed.

Lemma final_names_valid (names : list string) :
  final_names (omap normalize names) = strip <$> omap normalize names.
Proof.
  induction names as [|raw names IH]; [reflexivity|]. rewrite omap_normalize_cons.
  destruct (normalize raw) as [cleaned|] eqn:E; [|exact IH].
  cbn [final_names fmap list_fmap]. apply normalize_valid in E.
  apply validate_name_true in E as [_ Hletter].
  pose proof (letters_kept cleaned Hletter) as Hkept.
  destruct (strip cleaned); [done|]. cbn [truthy]. rewrite IH. reflexivity.
Qed.

(** X21. On the first visit of step 2 after an upload the editable
    list is the list of the valid cleaned names; the names the
    identifiers are generated for are these names stripped, none of them
    dropped; and the review run again leaves the session as it is. *)
Theorem unedited_upload_is_reviewed_as_its_valid_names
    (name_processor : NameProcessor.NameProcessor) (session : SessionState) :
  names_list session <> [] ->
  editable_names session = None ->
  let reviewed := review name_processor session in
  editable_names reviewed = Some (omap normalize (names_list session))
  /\ final_names (default [] (editable_names reviewed))
     = strip <$> omap normalize (names_list session)
  /\ review name_processor reviewed = reviewed.
Proof.
  intros Hne Hnone reviewed.
  assert (Hed : editable_names reviewed = Some (omap normalize (names_list session))).
  { subst reviewed. unfold review. cbn [editable_names]. rewrite Hnone.
    destruct (names_list session) as [|n names] eqn:E; [done|].
    rewrite process_names_eq. reflexivity. }
  split; [exact Hed|]. split.
  - rewrite Hed. cbn [default from_option]. apply final_names_valid.
  - unfold review at 1. rewrite Hed. subst reviewed. unfold review.
    cbn [step names_list editable_names name_id_mappings]. rewrite Hnone.
    destruct (names_list session); [done|].
    rewrite process_names_eq. reflexivity.
Qed.

End Upload.

Section ExportOfPages.
Import pystr HashGenerator Spec app ExportManager.
Context `{cfg : Config} `{ent : Entropy}.

Lemma hex_not_space (c : ascii) : lower_hex_ch c = true -> isspace c = false.
Proof. destruct c as [[] [] [] [] [] [] [] []]; vm_compute; congruence. Qed.

Lemma hexdigest_kept (chosen : string) (data : list Z) :
  strip (hexdigest chosen data) <> "".
Proof.
  pose proof (hexdigest_width chosen data) as Hw.
  pose proof (hexdigest_lower chosen data) as Hl.
  destruct (hexdigest chosen data) as [|c s].
  - unfold digest_width in Hw. cbn [len String.length] in Hw.
    repeat case_decide; discriminate.
  - unfold lower_hex in Hl. cbn [forallb] in Hl.
    apply andb_true_iff in Hl as [Hc _]. apply strip_kept, hex_not_space, Hc.
Qed.

Lemma as_dict_complete (m : Mapping) :
  strip (Name m) <> "" -> strip (ID m) <> "" -> complete (as_dict m).
Proof.
  intros Hn Hi. exists (Name m), (ID m). unfold as_dict.
  rewrite lookup_insert_eq, lookup_insert_ne by discriminate.
  rewrite lookup_insert_eq. repeat split; assumption.
Qed.

Lemma records_complete (ms : list Mapping) :
  Forall (fun n => strip n <> "") (names_of ms) ->
  Forall (fun i => strip i <> "") (ids ms) ->
  Forall complete (as_dict <$> ms).
Proof.
  unfold names_of, ids. rewrite !Forall_fmap. intros Hn Hi.
  apply Forall_forall. intros m Hm. rewrite Forall_forall in Hn, Hi.
  apply as_dict_complete; [apply (Hn m Hm) | apply (Hi m Hm)].
Qed.

(** X22. The records a generation by hash or by position makes from
    a fresh generator pass [validate_export_data], which counts one
    record per non-blank name. *)
Theorem generated_records_pass_export_validation
    (id_type : IdType) (chosen : string) (session : SessionState) (drawn : nat) :
  let names := final_names (default [] (editable_names session)) in
  names <> [] ->
  id_type <> uuid ->
  let out := (step_2_generate_ids id_type chosen session (start drawn)).1 in
  validate_export_data (as_dict <$> name_id_mappings out.2)
  = valid (length names).
Proof.
  intros names Hne Hid out. subst out.
  rewrite (step_2_generate_ids_run id_type chosen session (start drawn) Hne).
  cbv zeta. cbn [fst snd name_id_mappings]. fold names.
  set (r' := match id_type with hash => (set_algorithm chosen (start drawn)).2
                           | _ => start drawn end).
  pose proof (generate_loop_names id_type names 0 [] r') as Hnames.
  change (names_of [] ++ names) with names in Hnames.
  assert (Hids : Forall (fun i => strip i <> "")
                        (ids (generate_loop id_type 0 names [] r').1)).
  { destruct id_type; [| |done]; subst r'.
    - rewrite generate_loop_hash. apply Forall_fmap, Forall_forall. intros n _.
      cbn [compose]. rewrite hash_of_sound.
      + unfold compute_hash. apply hexdigest_kept.
      + apply (cache_sound_set_algorithm main_hash_generator chosen drawn).
        reflexivity.
    - destruct (generate_loop_sequential names 0 [] (start drawn)) as [-> _].
      change (ids [] ++ ?l) with l. apply Forall_fmap, Forall_forall. intros k _.
      cbn [compose]. unfold sequential_id. apply strip_kept. reflexivity. }
  destruct (generate_loop id_type 0 names [] r') as [ms r2]. cbn [fst] in *.
  assert (Hlen : length ms = length names).
  { rewrite <- Hnames. unfold names_of. rewrite length_fmap. reflexivity. }
  assert (Hcomplete : Forall complete (as_dict <$> ms)).
  { apply records_complete; [|exact Hids]. rewrite Hnames.
    eapply Forall_impl; [apply final_names_kept|].
    intros n [Hn Hs]. cbv beta. rewrite Hs. exact Hn. }
  apply complete_iff in Hcomplete as (Hmiss & Hn & Hi).
  rewrite validate_export_data_nonempty.
  - rewrite Hmiss, Hn, Hi. cbn [Nat.ltb Nat.leb orb]. rewrite length_fmap, Hlen.
    reflexivity.
  - intros Hnil. apply fmap_nil_inv in Hnil. subst ms.
    destruct names; [done | discriminate].
Qed.

End ExportOfPages.

(** ** Identifiers that are free, numbered, and checked *)

Section Checked.
Import pystr HashGenerator Spec.
Context `{cfg : Config} `{ent : Entropy}.

Local Arguments retry : simpl never.
Local Arguments generate_unique_hash : simpl never.

Lemma gathered_end (pairs : list Mapping) :
  gathered pairs (foldl verify_step (∅, []) pairs).
Proof.
  assert (Hstart : gathered [] (∅, [])).
  { unfold gathered. cbn [fst snd]. repeat split.
    - constructor.
    - intros H. inversion H.
    - unfold names_with. simpl. lia. }
  apply (gathered_fold pairs [] (∅, []) Hstart).
Qed.

Lemma is_unique_NoDup (pairs : list Mapping) :
  is_unique (verify_hash_uniqueness pairs) = true <-> NoDup (ids pairs).
Proof.
  unfold verify_hash_uniqueness. pose proof (gathered_end pairs) as Hend.
  destruct (foldl verify_step (∅, []) pairs) as [hc dups].
  destruct Hend as (_ & _ & Hdups). cbn [fst snd is_unique] in *.
  rewrite bool_decide_eq_true, NoDup_ListNoDup, (NoDup_count_occ String.eq_dec).
  split.
  - intros Hnone h. rewrite <- names_with_length.
    destruct (le_lt_dec (length (names_with h pairs)) 1) as [|Hgt]; [assumption|].
    assert (Hin : h ∈ dups) by (apply Hdups; lia).
    destruct dups; [inversion Hin | discriminate].
  - intros Hle. destruct dups as [|h dups]; [reflexivity|]. exfalso.
    assert (Hin : h ∈ h :: dups) by left.
    apply Hdups in Hin. rewrite names_with_length in Hin.
    specialize (Hle h). lia.
Qed.

(** X23. The records of [create_name_id_mapping] pass the generator's
    own check: [verify_hash_uniqueness] reports them unique under the
    sequential strategy, and under every strategy in a run that draws no
    UUID. The records of step 2 of the app under the hash strategy fail
    it as soon as a name occurs twice. *)
Theorem verify_hash_uniqueness_confirms_the_mapping
    (names : list string) (id_type : string) (r : Run) :
  is_unique (verify_hash_uniqueness
               (create_name_id_mapping names "sequential" r).1) = true
  /\ (uuid_calls (create_name_id_mapping names id_type r).2 = uuid_calls r ->
      is_unique (verify_hash_uniqueness
                   (create_name_id_mapping names id_type r).1) = true)
  /\ (~ NoDup names ->
      is_unique (verify_hash_uniqueness
                   (app.generate_loop app.hash 0 names [] r).1) = false).
Proof.
  assert (Hseq : NoDup (ids (create_name_id_mapping names "sequential" r).1)).
  { unfold create_name_id_mapping.
    destruct (mapping_loop_sequential names [] ∅ r) as [-> _].
    apply sequential_ids_NoDup. }
  split; [apply is_unique_NoDup, Hseq|]. split.
  - intros Hsame. apply is_unique_NoDup.
    destruct (decide (id_type = "sequential")) as [->|Hne]; [exact Hseq|].
    unfold create_name_id_mapping in *.
    destruct (mapping_loop_unique id_type names Hne [] ∅ r) as [_ Hnd].
    + intros x Hx. inversion Hx.
    + apply Hnd; [exact Hsame | constructor].
  - intros Hrep. apply not_true_is_false. rewrite is_unique_NoDup.
    rewrite generate_loop_hash. intros Hnd. apply Hrep.
    eapply NoDup_fmap_1, Hnd.
Qed.

(** X24. [generate_unique_hash] does what [generate_hash] does when
    the hash of the name is not among the existing ones; whenever it
    draws no UUID its result is not among the existing ones; it draws at
    most one UUID; and it never changes what the generator answers for
    any name. *)
Theorem generate_unique_hash_returns_a_free_identifier
    (name : string) (existing : gset string) (r : Run) :
  let out := generate_unique_hash name existing r in
  ((generate_hash name r).1 ∉ existing -> out = generate_hash name r)
  /\ (uuid_calls out.2 = uuid_calls r -> out.1 ∉ existing)
  /\ uuid_calls r <= uuid_calls out.2 <= S (uuid_calls r)
  /\ (forall other, (generate_hash other out.2).1 = (generate_hash other r).1).
Proof.
  intros out. subst out.
  pose proof (generate_unique_hash_outcome name existing r) as [Hsame Hout].
  cbv zeta in Hsame, Hout. split; [|split; [|split]].
  - rewrite generate_hash_run. cbn [fst]. intros Hfree.
    rewrite generate_unique_hash_run. cbv zeta.
    rewrite bool_decide_eq_true_2 by exact Hfree. reflexivity.
  - intros Hcalls. destruct Hout as [[Hfree _]|Hdrawn]; [exact Hfree | lia].
  - destruct Hout as [[_ Hcalls]|Hdrawn]; lia.
  - intros other. rewrite !generate_hash_run. cbn [fst]. apply Hsame.
Qed.

End Checked.

Section Numbered.
Import pystr HashGenerator Spec.

Lemma last_occurrence (name : string) (names : list string) :
  name ∈ names ->
  exists k, names !! k = Some name /\ name ∉ drop (S k) names.
Proof.
  induction names as [|n names IH]; [intros H; inversion H|].
  intros Hin. destruct (decide (name ∈ names)) as [Hlater|Hnot].
  - destruct (IH Hlater) as (k & Hk & Hlast). exists (S k). split; assumption.
  - apply elem_of_cons in Hin as [->|Hin]; [|done].
    exists 0. split; [reflexivity | exact Hnot].
Qed.

(** X25. The dict of [generate_sequential_ids], whatever the prefix,
    has exactly the given names as keys; each is mapped to the prefix
    followed by its last 1-based position, zero-filled to three digits;
    no two names share an identifier. *)
Theorem sequential_dict_numbers_each_name_once
    (names : list string) (prefix : string) :
  let ids := generate_sequential_ids names prefix in
  dom ids = list_to_set names
  /\ (forall name id, ids !! name = Some id ->
        exists k, names !! k = Some name /\ (name ∉ drop (S k) names)
                  /\ id = prefix +:+ zfill 3 (k + 1))
  /\ (forall n1 n2 id, ids !! n1 = Some id -> ids !! n2 = Some id -> n1 = n2).
Proof.
  intros ids.
  assert (Hkey : forall name id, ids !! name = Some id ->
            exists k, names !! k = Some name /\ (name ∉ drop (S k) names)
                      /\ id = prefix +:+ zfill 3 (k + 1)).
  { intros name id Hid. destruct (decide (name ∈ names)) as [Hin|Hout].
    - destruct (last_occurrence name names Hin) as (k & Hk & Hlast).
      exists k. split; [exact Hk|]. split; [exact Hlast|].
      subst ids. unfold generate_sequential_ids in Hid.
      rewrite (generate_sequential_ids_last prefix names 1 ∅ k name Hk Hlast) in Hid.
      injection Hid as <-. do 2 f_equal. lia.
    - subst ids. unfold generate_sequential_ids in Hid.
      rewrite (sequential_loop_other prefix name names Hout) in Hid.
      rewrite lookup_empty in Hid. discriminate. }
  split; [|split; [exact Hkey|]].
  - apply set_eq. intros name. rewrite elem_of_dom, elem_of_list_to_set. split.
    + intros [id Hid]. destruct (Hkey name id Hid) as (k & Hk & _).
      apply list_elem_of_lookup. exists k. exact Hk.
    + intros Hin. destruct (last_occurrence name names Hin) as (k & Hk & Hlast).
      subst ids. unfold generate_sequential_ids.
      rewrite (generate_sequential_ids_last prefix names 1 ∅ k name Hk Hlast).
      eexists. reflexivity.
  - intros n1 n2 id H1 H2.
    destruct (Hkey n1 id H1) as (k1 & Hk1 & _ & E1).
    destruct (Hkey n2 id H2) as (k2 & Hk2 & _ & E2).
    rewrite E1 in E2. apply String.app_inj in E2. apply zfill_inj in E2.
    assert (k1 = k2) by lia. subst k2. congruence.
Qed.

End Numbered.

(** ** The statements at work *)

(** X4 at work: "ann" and "Ann" are one name, kept twice. *)
Lemma keep_all_keeps_every_occurrence_witness :
  let names := ["ann"; "Ann"; "bob"] in
  let choices := [("Ann", "keep_all")] in
  let cleaned :=
    NameProcessor.all_cleaned_names
      (NameProcessor.process_names NameProcessor.__init__ names).1 in
  cleaned = ["Ann"; "Ann"; "Bob"]
  /\ NoDup choices.*1
  /\ NameProcessor.resolve_duplicates
       (NameProcessor.process_names NameProcessor.__init__ names).2 choices
     ≡ₚ cleaned.
Proof.
  intros names choices cleaned.
  assert (Hcleaned : cleaned = ["Ann"; "Ann"; "Bob"]) by (vm_compute; reflexivity).
  assert (Hkeys : NoDup choices.*1) by (apply NoDup_singleton).
  split; [exact Hcleaned|]. split; [exact Hkeys|].
  apply (keep_all_keeps_every_occurrence NameProcessor.__init__ names choices Hkeys).
  fold cleaned. rewrite Hcleaned. intros n Hn.
  destruct (decide (n = "Ann")) as [->|Hne]; [reflexivity|]. exfalso.
  revert Hn. unfold Spec.occurrences. cbn [count_occ].
  destruct (String.eq_dec "Ann" n) as [Heq|_]; [congruence|].
  destruct (String.eq_dec "Bob" n); lia.
Defined.

(** X5 at work: the same upload, one "Ann" kept. *)
Lemma keep_one_leaves_each_name_once_witness :
  let names := ["ann"; "Ann"; "bob"] in
  let choices := [("Ann", "keep_one")] in
  let resolved :=
    NameProcessor.resolve_duplicates
      (NameProcessor.process_names NameProcessor.__init__ names).2 choices in
  NoDup choices.*1
  /\ NoDup resolved
  /\ forall x, x ∈ resolved <-> x ∈ ["Ann"; "Ann"; "Bob"].
Proof.
  intros names choices resolved.
  assert (Hkeys : NoDup choices.*1) by (apply NoDup_singleton).
  split; [exact Hkeys|].
  assert (Hcleaned :
    NameProcessor.all_cleaned_names
      (NameProcessor.process_names NameProcessor.__init__ names).1
    = ["Ann"; "Ann"; "Bob"]) by (vm_compute; reflexivity).
  rewrite <- Hcleaned.
  apply (keep_one_leaves_each_name_once NameProcessor.__init__ names choices Hkeys).
  rewrite Hcleaned. intros n Hn.
  destruct (decide (n = "Ann")) as [->|Hne]; [reflexivity|]. exfalso.
  revert Hn. unfold Spec.occurrences. cbn [count_occ].
  destruct (String.eq_dec "Ann" n) as [Heq|_]; [congruence|].
  destruct (String.eq_dec "Bob" n); lia.
Defined.

(** X6 at work: no choice made for "Ann". *)
Lemma unresolved_duplicates_are_dropped_witness :
  let names := ["ann"; "Ann"; "bob"] in
  let choices : list (string * string) := [] in
  let resolved :=
    NameProcessor.resolve_duplicates
      (NameProcessor.process_names NameProcessor.__init__ names).2 choices in
  NoDup choices.*1 /\ "Ann" ∉ resolved.
Proof.
  intros names choices resolved.
  assert (Hkeys : NoDup choices.*1) by constructor.
  split; [exact Hkeys|].
  destruct (unresolved_duplicates_are_dropped NameProcessor.__init__ names choices
              "Ann" Hkeys) as (_ & Hdropped & _).
  apply Hdropped; [reflexivity|]. vm_compute. lia.
Defined.

(** X8 at work: a strategy the generator does not know. *)
Lemma unknown_strategy_is_the_hash_strategy_witness :
  "random" <> "sequential" /\ "random" <> "uuid"
  /\ @HashGenerator.create_name_id_mapping Sample.config Sample.entropy
       ["Ann"; "Bob"] "random" Sample.start
     = @HashGenerator.create_name_id_mapping Sample.config Sample.entropy
         ["Ann"; "Bob"] "hash" Sample.start.
Proof.
  assert (H1 : "random" <> "sequential") by discriminate.
  assert (H2 : "random" <> "uuid") by discriminate.
  split; [exact H1|]. split; [exact H2|].
  exact (@unknown_strategy_is_the_hash_strategy Sample.config Sample.entropy
           ["Ann"; "Bob"] "random" Sample.start H1 H2).
Defined.

(** X9 at work: a fresh SHA-1 generator. *)
Lemma hash_width_follows_algorithm_witness :
  let g := HashGenerator.__init__ "sha1" "" in
  @Spec.cache_sound Sample.config g
  /\ pystr.len
       (@HashGenerator.generate_hash Sample.config "Ann"
          {| HashGenerator.self := g; HashGenerator.uuid_calls := 0 |}).1 = 40.
Proof.
  intros g.
  assert (Hsound : @Spec.cache_sound Sample.config g)
    by apply (@cache_sound_init Sample.config).
  split; [exact Hsound|].
  exact (proj1 (@hash_width_follows_algorithm Sample.config g "Ann" 0 Hsound)).
Defined.

(** X12 at work: the case of the extension does not matter. *)
Lemma file_extension_is_the_text_after_the_last_dot_witness :
  FileParser.contains "." "TXT" = false
  /\ FileParser._get_file_extension "class.list.TXT" = ".txt".
Proof.
  assert (H : FileParser.contains "." "TXT" = false) by reflexivity.
  split; [exact H|].
  exact (proj1 (file_extension_is_the_text_after_the_last_dot "class.list" "TXT" H)).
Defined.

(** X14 at work: a number is dropped, a lone underscore is kept. *)
Lemma clean_names_keeps_names_with_a_letter_or_underscore_witness :
  let names := ["  ann   lee "; "42"; "_"; ""] in
  Forall Spec.ascii_text names
  /\ FileParser._clean_names names = ["ann lee"; "_"].
Proof.
  intros names.
  assert (H : Forall Spec.ascii_text names) by (repeat constructor).
  split; [exact H|].
  rewrite (clean_names_keeps_names_with_a_letter_or_underscore names H).
  reflexivity.
Defined.

(** X19 at work: a blank field between two names. *)
Lemma generation_records_every_non_blank_name_witness :
  let session :=
    {| app.step := 2; app.names_list := [];
       app.editable_names := Some [" Ann "; ""; "Bob"];
       app.name_id_mappings := [] |} in
  let out :=
    (@app.step_2_generate_ids Sample.config Sample.entropy
       app.uuid "md5" session Sample.start).1 in
  app.final_names (default [] (app.editable_names session)) <> []
  /\ out.1 = app.success 2
  /\ Spec.names_of (app.name_id_mappings out.2) = ["Ann"; "Bob"].
Proof.
  intros session out.
  assert (H : app.final_names (default [] (app.editable_names session)) <> [])
    by discriminate.
  split; [exact H|].
  destruct (@generation_records_every_non_blank_name Sample.config Sample.entropy
              app.uuid "md5" session Sample.start H) as (Hmsg & _ & Hnames & _).
  split; [exact Hmsg | exact Hnames].
Defined.

(** X20 at work: two of three records share a name. *)
Lemma download_page_counts_the_generated_records_witness :
  let session :=
    {| app.step := 2; app.names_list := [];
       app.editable_names := Some ["Ann"; "Bob"; "Ann"];
       app.name_id_mappings := [] |} in
  let out :=
    (@app.step_2_generate_ids Sample.config Sample.entropy
       app.hash "md5" session Sample.start).1 in
  app.final_names (default [] (app.editable_names session)) <> []
  /\ exists unique_ids,
       app.step_3_download_results out.2 = app.metrics 3 2 unique_ids
       /\ 1 <= unique_ids <= 2.
Proof.
  intros session out.
  assert (H : app.final_names (default [] (app.editable_names session)) <> [])
    by discriminate.
  split; [exact H|].
  destruct (@download_page_counts_the_generated_records Sample.config Sample.entropy
              app.hash "md5" session Sample.start H)
    as (unique_ids & Hpage & [Hlow _] & _ & Hhash).
  exists unique_ids. split; [exact Hpage|]. split; [exact Hlow|].
  apply (Hhash eq_refl).
Defined.

(** X21 at work: an upload with a number in it. *)
Lemma unedited_upload_is_reviewed_as_its_valid_names_witness :
  let session :=
    {| app.step := 2; app.names_list := ["  john   doe  "; "123"; "ann"];
       app.editable_names := None; app.name_id_mappings := [] |} in
  app.names_list session <> []
  /\ app.editable_names session = None
  /\ app.final_names
       (default [] (app.editable_names (app.review NameProcessor.__init__ session)))
     = ["John Doe"; "Ann"].
Proof.
  intros session.
  assert (H1 : app.names_list session <> []) by discriminate.
  assert (H2 : app.editable_names session = None) by reflexivity.
  split; [exact H1|]. split; [exact H2|].
  destruct (unedited_upload_is_reviewed_as_its_valid_names
              NameProcessor.__init__ session H1 H2) as (_ & Hfinal & _).
  rewrite Hfinal. reflexivity.
Defined.

(** X22 at work: two records numbered by position. *)
Lemma generated_records_pass_export_validation_witness :
  let session :=
    {| app.step := 2; app.names_list := [];
       app.editable_names := Some ["Ann"; " "; "Bob"];
       app.name_id_mappings := [] |} in
  let out :=
    (@app.step_2_generate_ids Sample.config Sample.entropy
       app.sequential "md5" session (@app.start Sample.config 0)).1 in
  app.final_names (default [] (app.editable_names session)) <> []
  /\ app.sequential <> app.uuid
  /\ ExportManager.validate_export_data
       (ExportManager.as_dict <$> app.name_id_mappings out.2)
     = ExportManager.valid 2.
Proof.
  intros session out.
  assert (H1 : app.final_names (default [] (app.editable_names session)) <> [])
    by discriminate.
  assert (H2 : app.sequential <> app.uuid) by discriminate.
  split; [exact H1|]. split; [exact H2|].
  exact (@generated_records_pass_export_validation Sample.config Sample.entropy
           app.sequential "md5" session 0 H1 H2).
Defined.
